(** * LandMarking AI: the geometric inference pipeline

    A shallow embedding of [src/ai/processing/imagery/boundary_detection.py]
    and [src/ai/processing/imagery/land_use.py], and the properties the
    specification states about them.

    Conventions of the embedding.
    - Python floats are exact rationals ([Q]): the arithmetic of the source
      is kept operation by operation, its binary64 rounding is not modelled.
    - The ambient generator of Python's [random] module is an explicit tape
      of draws threaded through every call; each draw lies in [0, 1).
    - Python exceptions are the [Raise] results of an error monad.
    - Logging and [time.sleep] have no effect on any returned value and are
      left out. *)

From Stdlib Require Import QArith Qround Qabs Lqa ZArith Lia Bool Sorted.
From stdpp Require Import base option list strings gmap.

Local Open Scope Q_scope.

(** [x < y] on floats *)
Definition Qlt_bool (x y : Q) : bool := negb (Qle_bool y x).

(** ** Results and exceptions *)

Inductive exn : Type :=
| IndexError
| TypeError
| ValueError
| AttributeError
| ZeroDivisionError
| RecursionError
| SystemError.

Inductive result (A : Type) : Type :=
| Ok (a : A)
| Raise (e : exn).

Arguments Ok {A} a.
Arguments Raise {A} e.

(** ** The random source

    [random.random()] returns a float in the half-open interval [0, 1):
    a draw carries that range with it. *)

Definition in_unit (q : Q) : bool := Qle_bool 0 q && negb (Qle_bool 1 q).

Record draw : Type := Draw { draw_val : Q; draw_ok : in_unit draw_val = true }.

(** The tape lists the coming draws; once it is used up every further draw
    is 0. *)
Definition tape : Type := list draw.

(** State and exceptions: a computation takes the state it starts in and
    returns a value and the state it leaves, or raises. *)
Definition ST (S A : Type) : Type := S -> result (A * S).

Definition ret {S A} (a : A) : ST S A := fun s => Ok (a, s).

Definition bind {S A B} (m : ST S A) (k : A -> ST S B) : ST S B :=
  fun s => match m s with
           | Ok (a, s') => k a s'
           | Raise e => Raise e
           end.

Definition raise {S A} (e : exn) : ST S A := fun _ => Raise e.

Definition lift {S A} (r : result A) : ST S A :=
  fun s => match r with Ok a => Ok (a, s) | Raise e => Raise e end.

Notation "'let*' x ':=' m 'in' k" := (bind m (fun x => k))
  (at level 10, x name, m at level 100, k at level 200).

(** Computations whose state is the tape alone. *)
Definition M (A : Type) : Type := ST tape A.

(** [random.random()] *)
Definition random : M Q :=
  fun t => match t with
           | [] => Ok (0, [])
           | d :: t' => Ok (draw_val d, t')
           end.

(** [random._randbelow(n)]: an integer in [0, n). *)
Definition randbelow (n : Z) : M Z :=
  let* u := random in ret (Qfloor (u * inject_Z n)).

(** [random.randint(a, b)]: an integer in [a, b]; an empty range raises
    [ValueError]. *)
Definition randint (a b : Z) : M Z :=
  if (b <? a)%Z then raise ValueError
  else let* k := randbelow (b - a + 1) in ret (a + k)%Z.

(** ** Floats *)

(** [math.pi] is the binary64 number nearest to the circle constant. *)
Definition pi : Q := 884279719003555 # 281474976710656.

(** [x / y] on floats *)
Definition fdiv (x y : Q) : result Q :=
  if Qeq_bool y 0 then Raise ZeroDivisionError else Ok (x / y).

(** ** Module state

    Each of the two modules has the globals [MODEL] and [MODEL_LOADED]. What
    [load_model] logs and how long it has slept, in seconds, is recorded
    beside them. *)
Record globals : Type := Globals {
  MODEL : option string;
  MODEL_LOADED : bool;
  logged : list string;
  slept : Q
}.

(** The globals as the module body sets them. *)
Definition at_import : globals := Globals None false [] 0.

(** ** Python lists *)

(** [l[i]], with negative indices counted from the end. *)
Definition list_getitem {A} (l : list A) (i : Z) : result A :=
  let n := Z.of_nat (length l) in
  let j := if (i <? 0)%Z then (i + n)%Z else i in
  if (j <? 0)%Z then Raise IndexError
  else match l !! Z.to_nat j with
       | Some x => Ok x
       | None => Raise IndexError
       end.

(** [l.insert(i, x)]: the index is clamped to [0, len(l)]. *)
Definition list_insert_at {A} (l : list A) (i : Z) (x : A) : list A :=
  let n := Z.of_nat (length l) in
  let j := if (i <? 0)%Z then Z.max 0 (i + n) else Z.min i n in
  take (Z.to_nat j) l ++ x :: drop (Z.to_nat j) l.

(** [len(l)] *)
Definition len {A} (l : list A) : Z := Z.of_nat (length l).

(** ** Land-use scoring: [land_use.py] *)

Module LandUse.

(** List of possible land use categories *)
Definition LAND_USE_CATEGORIES : list string :=
  [ "agricultural"; "residential"; "commercial"; "industrial"; "forestry";
    "recreational"; "conservation"; "transportation"; "institutional";
    "mixed_use" ]%string.

(** *** [get_land_use_details] *)

Record details : Type := Details {
  description : string;
  typical_features : list string;
  subdivisions : list string
}.

(** A dict display: the pairs are stored from left to right. *)
Definition dict_of {V} (items : list (string * V)) : gmap string V :=
  foldl (fun m kv => <[kv.1 := kv.2]> m) ∅ items.

(** [d.get(key, default)] *)
Definition dict_get {V} (d : gmap string V) (key : string) (default : V) : V :=
  match d !! key with
  | Some v => v
  | None => default
  end.

Definition details_items : list (string * details) :=
  [ ("agricultural",
     Details "Land used for farming, crop production, or livestock"
       ["crop patterns"; "irrigation systems"; "farm buildings"]
       ["arable"; "pasture"; "orchard"; "vineyard"; "plantation"]);
    ("residential",
     Details "Land used for housing and living quarters"
       ["houses"; "apartment buildings"; "streets"; "yards"]
       ["single-family"; "multi-family"; "high-density"; "rural"]);
    ("commercial",
     Details "Land used for business and commerce"
       ["office buildings"; "retail stores"; "parking lots"]
       ["retail"; "office"; "hospitality"; "services"]);
    ("industrial",
     Details "Land used for manufacturing and processing"
       ["factories"; "warehouses"; "heavy equipment"; "storage yards"]
       ["light"; "heavy"; "extractive"; "waste management"]);
    ("forestry",
     Details "Land covered by forests, managed for timber or conservation"
       ["trees"; "forest roads"; "cleared areas"]
       ["natural"; "plantation"; "managed"; "protected"]);
    ("recreational",
     Details "Land used for leisure and recreation"
       ["parks"; "sports fields"; "playgrounds"]
       ["parks"; "sports"; "entertainment"; "tourism"]);
    ("conservation",
     Details "Land protected for environmental preservation"
       ["natural habitats"; "limited development"; "protected areas"]
       ["nature reserve"; "wildlife sanctuary"; "protected watershed"]);
    ("transportation",
     Details "Land used for transportation infrastructure"
       ["roads"; "railways"; "airports"; "ports"]
       ["road"; "rail"; "air"; "water"]);
    ("institutional",
     Details "Land used for public institutions and services"
       ["government buildings"; "schools"; "hospitals"]
       ["education"; "healthcare"; "government"; "religious"]);
    ("mixed_use",
     Details "Land with multiple combined uses"
       ["combination of buildings"; "mixed development"]
       ["residential-commercial"; "live-work"; "integrated"]) ]%string.

Definition unknown_details : details :=
  Details "Unknown land use category" [] [].

Definition get_land_use_details (category : string) : details :=
  dict_get (dict_of details_items) category unknown_details.

(** *** [random.sample]

    CPython's algorithm for a population of at most 21 items (here there are
    9): a pool of the items not yet selected; the selected slot is refilled
    with the last item of the pool, which shrinks by one. *)
Definition pool_remove {A} (pool : list A) (j : nat) : list A :=
  match last pool with
  | Some y => take (length pool - 1) (<[j := y]> pool)
  | None => pool
  end.

Fixpoint sample_loop {A} (k : nat) (pool : list A) : M (list A) :=
  match k with
  | O => ret []
  | S k' =>
      let* j := randbelow (len pool) in
      let* x := lift (list_getitem pool j) in
      let* rest := sample_loop k' (pool_remove pool (Z.to_nat j)) in
      ret (x :: rest)
  end.

Definition sample {A} (population : list A) (k : Z) : M (list A) :=
  if ((k <? 0) || (len population <? k))%Z then raise ValueError
  else sample_loop (Z.to_nat k) population.

(** *** [list.sort(key=..., reverse=True)]

    A stable sort into descending order of the key: items with equal keys
    keep their original order. *)
Record alternative : Type := Alternative { landUse : string; confidence : Q }.

Fixpoint insert_desc (x : alternative) (l : list alternative) : list alternative :=
  match l with
  | [] => [x]
  | y :: l' =>
      if Qlt_bool (confidence x) (confidence y) then y :: insert_desc x l'
      else x :: y :: l'
  end.

Definition sort_desc (l : list alternative) : list alternative :=
  foldr insert_desc [] l.

(** *** [detect_land_use] *)

(** The geometry argument only reaches the imagery stub, which logs its
    [type]; nothing of it enters the result. *)
Record geometry_ref : Type := { geometry_type : string }.

(** The loop [for i, category in enumerate(alternative_categories)], entered
    at index [i] with [alternatives] built so far; [n] is
    [len(alternative_categories)]. *)
Fixpoint distribute (n i : Z) (categories : list string) (remaining_confidence : Q)
    (alternatives : list alternative) : M (list alternative) :=
  match categories with
  | [] => ret alternatives
  | category :: categories' =>
      if (i =? n - 1)%Z then
        let confidence := remaining_confidence in
        distribute n (i + 1) categories' remaining_confidence
          (alternatives ++ [Alternative category confidence])
      else
        let* u := random in
        let portion := u * (7 # 10) in
        let confidence := remaining_confidence * portion in
        distribute n (i + 1) categories' (remaining_confidence - confidence)
          (alternatives ++ [Alternative category confidence])
  end.

(** [detect_land_use] up to the final sort: the primary category, its
    confidence and the alternatives in the order they were drawn. *)
Definition draw_alternatives (geometry : geometry_ref)
  : M (string * Q * list alternative) :=
  let* u := random in
  let* primary_idx :=
    (if Qlt_bool u (4 # 10) then ret 0%Z
     else randint 0 (len LAND_USE_CATEGORIES - 1)) in
  let* primary_category := lift (list_getitem LAND_USE_CATEGORIES primary_idx) in
  let* u' := random in
  let primary_confidence := (65 # 100) + u' * (3 # 10) in
  let remaining_confidence := 1 - primary_confidence in
  let* num_alternatives := randint 2 4 in
  let* alternative_categories :=
    sample (filter (fun c => c ≠ primary_category) LAND_USE_CATEGORIES)
      num_alternatives in
  let* alternatives :=
    distribute (len alternative_categories) 0 alternative_categories
      remaining_confidence [] in
  ret (primary_category, primary_confidence, alternatives).

Definition detect_land_use (geometry : geometry_ref)
  : M (string * Q * list alternative) :=
  let* drawn := draw_alternatives geometry in
  let alternatives := sort_desc drawn.2 in
  ret (drawn.1.1, drawn.1.2, alternatives).

(** *** Vocabulary of the scorer's properties *)

(** The sum of the confidences of a list of alternatives. *)
Definition sum_confidence (l : list alternative) : Q :=
  foldr (fun a s => confidence a + s) 0 l.

Definition nonneg (a : alternative) : Prop := 0 <= confidence a.

(** Descending order of confidence. *)
Definition sorted_desc (l : list alternative) : Prop :=
  StronglySorted (fun a b => confidence b <= confidence a) l.

(** The alternatives whose confidence is [q], in list order. *)
Definition ties (q : Q) (l : list alternative) : list alternative :=
  List.filter (fun a => Qeq_bool (confidence a) q) l.

(** *** [load_model] *)

Definition load_model (g : globals) : globals :=
  if MODEL_LOADED g then g
  else
    let g := Globals (MODEL g) (MODEL_LOADED g)
               (logged g ++ ["Loading land use classification model..."%string])
               (slept g) in
    let g := Globals (MODEL g) (MODEL_LOADED g) (logged g) (slept g + (1 # 2)) in
    let g := Globals (Some "simulation"%string) (MODEL_LOADED g) (logged g) (slept g) in
    let g := Globals (MODEL g) true (logged g) (slept g) in
    Globals (MODEL g) (MODEL_LOADED g)
      (logged g ++ ["Land use classification model loaded successfully"%string])
      (slept g).

End LandUse.

(** ** Boundary synthesis and refinement: [boundary_detection.py] *)

Module BoundaryDetection.

(** GeoJSON coordinates: floats, nested in lists to any depth (a position is
    a list of floats, a ring a list of positions, a polygon a list of
    rings). *)
#[local] Unset Elimination Schemes.
Inductive coords_t : Type :=
| Num (x : Q)
| Arr (l : list coords_t).
#[local] Set Elimination Schemes.

(** A geometry object: its [type] and its [coordinates]. *)
Record geometry_t : Type := Geometry { type : string; coordinates : coords_t }.

(** [v[i]] *)
Definition getitem (v : coords_t) (i : Z) : result coords_t :=
  match v with
  | Num _ => Raise TypeError
  | Arr l => list_getitem l i
  end.

(** Iterating over a value, as [for x in v] and [enumerate(v)] do. *)
Definition iter (v : coords_t) : result (list coords_t) :=
  match v with
  | Num _ => Raise TypeError
  | Arr l => Ok l
  end.

(** A value used as an operand of float arithmetic. *)
Definition as_float (v : coords_t) : result Q :=
  match v with
  | Num x => Ok x
  | Arr _ => Raise TypeError
  end.

(** [v.copy()]: a new list with the same items; floats have no such
    method. *)
Definition copy (v : coords_t) : result coords_t :=
  match v with
  | Num _ => Raise AttributeError
  | Arr l => Ok (Arr l)
  end.

(** [v == w]: floats by value, lists item by item. *)
Fixpoint py_eqb (v w : coords_t) {struct v} : bool :=
  match v, w with
  | Num x, Num y => Qeq_bool x y
  | Arr l, Arr l' =>
      (fix all2 (l l' : list coords_t) {struct l} : bool :=
         match l, l' with
         | [], [] => true
         | a :: l, b :: l' => py_eqb a b && all2 l l'
         | _, _ => false
         end) l l'
  | _, _ => false
  end.

(** *** [refine_polygon] *)

(** [point[k] + (random.random() - 0.5) * adjustment] *)
Definition perturb_coordinate (point : coords_t) (k : Z) (adjustment : Q) : M Q :=
  let* c := lift (getitem point k) in
  let* u := random in
  let* x := lift (as_float c) in
  ret (x + (u - (1 # 2)) * adjustment).

(** The loop [for i, point in enumerate(ring)], entered at index [i] with
    [improved_ring] built so far; [n] is [len(ring)]. *)
Fixpoint perturb_loop (n i : Z) (ring : list coords_t) (improved_ring : list coords_t)
  : M (list coords_t) :=
  match ring with
  | [] => ret improved_ring
  | point :: ring' =>
      if ((i =? 0) || (i =? n - 1))%Z then
        perturb_loop n (i + 1) ring' (improved_ring ++ [point])
      else
        let* certainty := random in
        let adjustment := (1 - certainty) * (1 # 10000) in
        let* x := perturb_coordinate point 0 adjustment in
        let* y := perturb_coordinate point 1 adjustment in
        let improved_point := Arr [Num x; Num y] in
        perturb_loop n (i + 1) ring' (improved_ring ++ [improved_point])
  end.

(** [(a[k] + b[k]) / 2 + (random.random() - 0.5) * 0.00005] *)
Definition midpoint_coordinate (a b : coords_t) (k : Z) : M Q :=
  let* ak := lift (getitem a k) in
  let* bk := lift (getitem b k) in
  let* x := lift (as_float ak) in
  let* y := lift (as_float bk) in
  let* u := random in
  ret ((x + y) / 2 + (u - (1 # 2)) * (5 # 100000)).

(** One round of the loop [for _ in range(random.randint(0, 2))]. *)
Definition insert_point (improved_ring : list coords_t) : M (list coords_t) :=
  let* insert_idx := randint 1 (len improved_ring - 2) in
  let* a := lift (list_getitem improved_ring insert_idx) in
  let* b := lift (list_getitem improved_ring (insert_idx + 1)) in
  let* x := midpoint_coordinate a b 0 in
  let* y := midpoint_coordinate a b 1 in
  let new_point := Arr [Num x; Num y] in
  ret (list_insert_at improved_ring (insert_idx + 1) new_point).

Fixpoint insert_points (rounds : nat) (improved_ring : list coords_t) : M (list coords_t) :=
  match rounds with
  | O => ret improved_ring
  | S rounds' =>
      let* improved_ring' := insert_point improved_ring in
      insert_points rounds' improved_ring'
  end.

(** [if len(ring) < 20: ...] *)
Definition densify (ring improved_ring : list coords_t) : M (list coords_t) :=
  if (len ring <? 20)%Z then
    let* rounds := randint 0 2 in
    insert_points (Z.to_nat rounds) improved_ring
  else ret improved_ring.

(** [if improved_ring[0] != improved_ring[-1]: ...] *)
Definition close_ring (improved_ring : list coords_t) : result (list coords_t) :=
  match list_getitem improved_ring 0 with
  | Raise e => Raise e
  | Ok first =>
      match list_getitem improved_ring (-1) with
      | Raise e => Raise e
      | Ok last =>
          if negb (py_eqb first last) then
            match copy first with
            | Raise e => Raise e
            | Ok c => Ok (improved_ring ++ [c])
            end
          else Ok improved_ring
      end
  end.

(** The body of [for ring in geometry.coordinates]. *)
Definition refine_ring (ring : coords_t) : M coords_t :=
  let* points := lift (iter ring) in
  let* improved_ring := perturb_loop (len points) 0 points [] in
  let* improved_ring := densify points improved_ring in
  let* improved_ring := lift (close_ring improved_ring) in
  ret (Arr improved_ring).

Fixpoint refine_rings (rings : list coords_t) (improved_rings : list coords_t)
  : M (list coords_t) :=
  match rings with
  | [] => ret improved_rings
  | ring :: rings' =>
      let* improved_ring := refine_ring ring in
      refine_rings rings' (improved_rings ++ [improved_ring])
  end.

Definition refine_polygon (geometry : geometry_t) : M geometry_t :=
  if String.eqb (type geometry) "Polygon" then
    let* rings := lift (iter (coordinates geometry)) in
    let* improved_rings := refine_rings rings [] in
    ret (Geometry (type geometry) (Arr improved_rings))
  else
    ret (Geometry (type geometry) (coordinates geometry)).

(** *** Vocabulary of the refiner's properties *)

(** The rings of a polygon's coordinates. *)
Definition rings_of (geometry : geometry_t) : list coords_t :=
  match coordinates geometry with
  | Arr rings => rings
  | Num _ => []
  end.

(** A position with at least a longitude and a latitude. *)
Definition is_geopoint (v : coords_t) : bool :=
  match v with
  | Arr (Num _ :: Num _ :: _) => true
  | _ => false
  end.

(** A ring whose first and last points are equal, as [==] has it. *)
Definition ring_closed (ring : coords_t) : bool :=
  match ring with
  | Arr points =>
      match head points, last points with
      | Some first, Some last => py_eqb first last
      | _, _ => false
      end
  | Num _ => false
  end.

(** A list of at least [n] positions. *)
Definition is_ring (n : Z) (ring : coords_t) : bool :=
  match ring with
  | Arr points => (n <=? len points)%Z && forallb is_geopoint points
  | Num _ => false
  end.

(** A polygon all of whose rings are lists of at least [n] positions. *)
Definition is_polygon (n : Z) (geometry : geometry_t) : bool :=
  String.eqb (type geometry) "Polygon" &&
  match coordinates geometry with
  | Arr rings => forallb (is_ring n) rings
  | Num _ => false
  end.

(** [point'] is a two-float position within [bound] of the position [point]
    in longitude and in latitude. *)
Definition displaced (bound : Q) (point point' : coords_t) : Prop :=
  exists x y x' y',
    getitem point 0 = Ok (Num x) /\ getitem point 1 = Ok (Num y)
    /\ point' = Arr [Num x'; Num y']
    /\ Qabs (x' - x) <= bound /\ Qabs (y' - y) <= bound.

(** [p] is [points] with every interior position displaced by at most
    0.0001 per axis, the first and the last kept as they are. *)
Definition perturbed (points p : list coords_t) : Prop :=
  length p = length points
  /\ forall (k : nat) point, points !! k = Some point ->
       exists point', p !! k = Some point'
         /\ (if ((Z.of_nat k =? 0) || (Z.of_nat k =? len points - 1))%Z
             then point' = point
             else displaced (1 # 10000) point point').

(** [l'] is [l] with one position put in at an index from 2 to [len(l) - 1]:
    after the first point and before the last. *)
Definition inserted (l l' : list coords_t) : Prop :=
  exists (k : nat) new_point,
    (2 <= k < length l)%nat /\ is_geopoint new_point = true
    /\ l' = take k l ++ new_point :: drop k l.

(** [l'] is [l] after [n] such insertions. *)
Inductive inserted_n : nat -> list coords_t -> list coords_t -> Prop :=
| inserted_0 l : inserted_n 0 l l
| inserted_S n l l' l'' : inserted l l' -> inserted_n n l' l'' -> inserted_n (S n) l l''.

(** What [refine_ring] returned for a ring, on some state of the tape. *)
Definition refines (ring ring' : coords_t) : Prop :=
  exists t t', refine_ring ring t = Ok (ring', t').

(** Every interior position of [ring] has a counterpart in [ring'] within
    [bound] of it per axis; the counterparts are in [ring'] in the same
    order, among the positions the refiner put in. *)
Definition interior_within (bound : Q) (ring ring' : coords_t) : Prop :=
  exists points points' p,
    ring = Arr points /\ ring' = Arr points'
    /\ length p = length points /\ p `sublist_of` points'
    /\ forall (i : nat) point,
         (0 < i < length points - 1)%nat -> points !! i = Some point ->
         exists point', p !! i = Some point' /\ displaced bound point point'.

(** [ring'] is [ring] refined: interior positions displaced, then up to two
    positions put in, then a copy of the first point appended if the ring
    was not closed. The first point is kept; when [ring] was closed so is
    the last, and nothing is appended. *)
Definition refined (ring ring' : coords_t) : Prop :=
  exists points points' p,
    ring = Arr points /\ ring' = Arr points'
    /\ perturbed points p /\ p `sublist_of` points'
    /\ (length points <= length points' <= length points + 3)%nat
    /\ head points' = head points
    /\ (ring_closed ring = true ->
        last points' = last points
        /\ (length points' <= length points + 2)%nat).

(** *** Examples *)

Definition U (q : Q) (H : in_unit q = true) : draw := Draw q H.

Definition position (lon lat : Q) : coords_t := Arr [Num lon; Num lat].

(** A square parcel with a triangular hole. *)
Definition parcel_exterior : coords_t :=
  Arr [position 0 0; position 4 0; position 4 4; position 0 4; position 0 0].
Definition parcel_hole : coords_t :=
  Arr [position 1 1; position 2 1; position 2 2; position 1 1].
Definition parcel : geometry_t := Geometry "Polygon" (Arr [parcel_exterior; parcel_hole]).

(** Draws that leave the exterior where it is and add no point to it, then
    move the first interior vertex of the hole as far west and south as the
    refiner can and add no point to the hole. *)
Definition parcel_tape : tape :=
  let h := U (1 # 2) eq_refl in
  let z := U 0 eq_refl in
  [h; h; h; h; h; h; h; h; h; z;
   z; z; z; h; h; h; z].

Definition point_geometry : geometry_t := Geometry "Point" (position 1 2).

Definition parcel_refined : geometry_t :=
  match refine_polygon parcel parcel_tape with
  | Ok (geometry', _) => geometry'
  | Raise _ => parcel
  end.

(** A closed ring of 21 positions, too long to be densified. *)
Definition long_ring : coords_t :=
  Arr (position 0 0 :: replicate 19 (position 1 1) ++ [position 0 0]).

Definition long_parcel : geometry_t := Geometry "Polygon" (Arr [long_ring]).

Definition long_parcel_refined : geometry_t :=
  match refine_polygon long_parcel [] with
  | Ok (geometry', _) => geometry'
  | Raise _ => long_parcel
  end.

(** A ring as one round of densification may find it. *)
Definition insert_example : list coords_t :=
  [position 0 0; position 4 0; position 4 4; position 0 0].

(** *** [generate_realistic_polygon] and [detect_boundaries_from_coords]

    [math.sin] and [math.cos] are functions of the platform's C library. *)

Section Synthesizer.

Variables sin cos : Q -> Q.

(** The loop [for i in range(num_points)], entered at index [i] with
    [coords] built so far; [todo] rounds remain. *)
Fixpoint vertex_loop (center_lat center_lon radius_lat radius_lon : Q)
    (num_points : Z) (todo : nat) (i : Z) (coords : list coords_t)
  : M (list coords_t) :=
  match todo with
  | O => ret coords
  | S todo' =>
      let* q := lift (fdiv (inject_Z i) (inject_Z num_points)) in
      let angle := q * 2 * pi in
      let* u1 := random in
      let radius_factor := (7 # 10) + u1 * (3 # 10) in
      let* u2 := random in
      let noise := u2 * (2 # 10) in
      let* u3 := random in
      let angle_noise := u3 * (2 # 10) in
      let lat := center_lat
                 + sin (angle + angle_noise) * radius_lat * radius_factor * (1 + noise) in
      let lon := center_lon
                 + cos (angle + angle_noise) * radius_lon * radius_factor * (1 + noise) in
      vertex_loop center_lat center_lon radius_lat radius_lon num_points
        todo' (i + 1) (coords ++ [Arr [Num lon; Num lat]])
  end.

Definition generate_realistic_polygon (center_lat center_lon : Q) (radius_m : Z)
  : M geometry_t :=
  let* radius_lat := lift (fdiv (inject_Z radius_m) 110540) in
  let* radius_lon :=
    lift (fdiv (inject_Z radius_m) (111320 * cos (center_lat * pi / 180))) in
  let* num_points := randint 6 10 in
  let* coords :=
    vertex_loop center_lat center_lon radius_lat radius_lon num_points
      (Z.to_nat num_points) 0 [] in
  let* first := lift (list_getitem coords 0) in
  let* first_copy := lift (copy first) in
  let coords := coords ++ [first_copy] in
  ret (Geometry "Polygon" (Arr [Arr coords])).

(** The model handle and the imagery stub (which draws from NumPy's own
    generator) return nothing that is used. *)
Definition detect_boundaries_from_coords (lat lon : Q) (radius_m : Z)
  : M (geometry_t * Q) :=
  let* polygon := generate_realistic_polygon lat lon radius_m in
  let* u := random in
  let confidence := (75 # 100) + (u * (2 # 10)) in
  ret (polygon, confidence).

End Synthesizer.

(** A vertex as [generate_realistic_polygon] builds it around the centre
    [(center_lon, center_lat)] with the radii [radius_lon] and [radius_lat]
    in degrees: at some angle, between 70% and 100% of the radius, with up
    to 20% of noise. *)
Definition vertex (sin cos : Q -> Q) (center_lat center_lon radius_lat radius_lon : Q)
    (point : coords_t) : Prop :=
  exists angle radius_factor noise,
    (7 # 10) <= radius_factor < 1 /\ 0 <= noise < (2 # 10)
    /\ point = Arr [Num (center_lon + cos angle * radius_lon * radius_factor * (1 + noise));
                    Num (center_lat + sin angle * radius_lat * radius_factor * (1 + noise))].

(** *** [load_model] *)

Definition load_model (g : globals) : globals :=
  if MODEL_LOADED g then g
  else
    let g := Globals (MODEL g) (MODEL_LOADED g)
               (logged g ++ ["Loading boundary detection model..."%string])
               (slept g) in
    let g := Globals (MODEL g) (MODEL_LOADED g) (logged g) (slept g + (1 # 2)) in
    let g := Globals (Some "simulation"%string) (MODEL_LOADED g) (logged g) (slept g) in
    let g := Globals (MODEL g) true (logged g) (slept g) in
    Globals (MODEL g) (MODEL_LOADED g)
      (logged g ++ ["Boundary detection model loaded successfully"%string])
      (slept g).

(** *** [improve_existing_boundary]

    [math.cos] and [math.sqrt] are functions of the platform's C library.
    The model handle and the imagery stub return nothing that is used. *)

(** [sum(point[k] for point in coords)], entered with [total]. *)
Fixpoint sum_coordinate (k : Z) (points : list coords_t) (total : Q) : result Q :=
  match points with
  | [] => Ok total
  | point :: points' =>
      match getitem point k with
      | Raise e => Raise e
      | Ok c =>
          match as_float c with
          | Raise e => Raise e
          | Ok x => sum_coordinate k points' (total + x)
          end
      end
  end.

Section Improve.

Variables cos sqrt : Q -> Q.

(** The centre and radius handed to the imagery stub. *)
Definition centre_and_radius (geometry : geometry_t) : M (Q * Q * Q) :=
  if String.eqb (type geometry) "Polygon" then
    let* coords := lift (getitem (coordinates geometry) 0) in
    let* points := lift (iter coords) in
    let* lon_sum := lift (sum_coordinate 0 points 0) in
    let* lat_sum := lift (sum_coordinate 1 points 0) in
    let* center_lon := lift (fdiv lon_sum (inject_Z (len points))) in
    let* center_lat := lift (fdiv lat_sum (inject_Z (len points))) in
    let* first_point := lift (getitem coords 0) in
    let* c := lift (getitem first_point 0) in
    let* x := lift (as_float c) in
    let dx := (x - center_lon) * 111320 * cos (center_lat * pi / 180) in
    let* c := lift (getitem first_point 1) in
    let* y := lift (as_float c) in
    let dy := (y - center_lat) * 110540 in
    let radius_m := sqrt (dx * dx + dy * dy) in
    ret (center_lat, center_lon, radius_m)
  else
    ret (0, 0, 500).

Definition improve_existing_boundary (geometry : geometry_t)
  : M (geometry_t * Q) :=
  let* _ := centre_and_radius geometry in
  let* improved_geometry := refine_polygon geometry in
  let* u := random in
  let confidence := (85 # 100) + (u * (14 # 100)) in
  ret (improved_geometry, confidence).

End Improve.

End BoundaryDetection.

(** ** The refiner on Python's object store

    Lists are objects: a variable or a list item holds a reference to one,
    [append] and [insert] change the object in place, and two references may
    name the same object. This model of [refine_polygon] keeps the store, so
    that what the function does to the lists of its input can be stated. *)

Module BoundaryHeap.

(** The identity of an object. *)
Abbreviation loc := positive (only parsing).

(** A float, or a reference to a list object. *)
Inductive val : Type :=
| VNum (x : Q)
| VRef (l : loc).

(** The store: the items of every list object. *)
Abbreviation heap := (gmap loc (list val)) (only parsing).

(** A geometry object: the values of its attributes [type] and
    [coordinates]. No code here assigns to them. *)
Record geometry_t : Type := Geometry { type : string; coordinates : val }.

(** Computations on the store and the tape. *)
Definition HM (A : Type) : Type := ST (heap * tape) A.

(** A draw from the random source. *)
Definition rnd {A} (m : M A) : HM A :=
  fun s => match m s.2 with
           | Ok (a, t') => Ok (a, (s.1, t'))
           | Raise e => Raise e
           end.

(** A new list object. *)
Definition alloc (items : list val) : HM val :=
  fun s => let l := fresh (dom s.1) in Ok (VRef l, (<[l := items]> s.1, s.2)).

(** The items of the list [v] refers to. A reference to no object is not a
    state Python can be in. *)
Definition load (v : val) : HM (list val) :=
  fun s => match v with
           | VNum _ => Raise TypeError
           | VRef l => match s.1 !! l with
                       | Some items => Ok (items, s)
                       | None => Raise SystemError
                       end
           end.

(** The list object [v] refers to gets new items. *)
Definition store (v : val) (items : list val) : HM unit :=
  fun s => match v with
           | VNum _ => Raise AttributeError
           | VRef l => Ok (tt, (<[l := items]> s.1, s.2))
           end.

(** [v.append(x)] *)
Definition append (v x : val) : HM unit :=
  match v with
  | VNum _ => raise AttributeError
  | VRef _ => let* items := load v in store v (items ++ [x])
  end.

(** [v.insert(i, x)] *)
Definition insert (v : val) (i : Z) (x : val) : HM unit :=
  match v with
  | VNum _ => raise AttributeError
  | VRef _ => let* items := load v in store v (list_insert_at items i x)
  end.

(** [v[i]] *)
Definition getitem (v : val) (i : Z) : HM val :=
  let* items := load v in lift (list_getitem items i).

(** [len(v)] *)
Definition length_of (v : val) : HM Z :=
  let* items := load v in ret (len items).

(** [v.copy()]: a new list object with the same items. *)
Definition copy (v : val) : HM val :=
  match v with
  | VNum _ => raise AttributeError
  | VRef _ => let* items := load v in alloc items
  end.

Definition as_float (v : val) : result Q :=
  match v with
  | VNum x => Ok x
  | VRef _ => Raise TypeError
  end.

(** Lists are compared item by item until two items differ. *)
Fixpoint all_equal (eqb : val -> val -> result bool) (a b : list val) : result bool :=
  match a, b with
  | x :: a', y :: b' =>
      match eqb x y with
      | Ok true => all_equal eqb a' b'
      | r => r
      end
  | _, _ => Ok true
  end.

(** The nesting that a comparison can follow before Python gives up. *)
Definition recursion_limit : nat := 1000.

(** [v == w]: floats by value; lists of different lengths are unequal, others
    are compared item by item, an object being equal to itself. *)
Fixpoint eqb_fuel (fuel : nat) (h : heap) (v w : val) : result bool :=
  match fuel with
  | O => Raise RecursionError
  | S fuel' =>
      match v, w with
      | VNum x, VNum y => Ok (Qeq_bool x y)
      | VRef l, VRef l' =>
          match h !! l, h !! l' with
          | Some items, Some items' =>
              if negb (length items =? length items')%nat then Ok false
              else
                all_equal
                  (fun x y =>
                     match x, y with
                     | VRef k, VRef k' =>
                         if decide (k = k') then Ok true
                         else eqb_fuel fuel' h x y
                     | _, _ => eqb_fuel fuel' h x y
                     end)
                  items items'
          | _, _ => Raise SystemError
          end
      | _, _ => Ok false
      end
  end.

(** [v != w], with [fuel] levels of nesting to go. *)
Definition ne_fuel (fuel : nat) (v w : val) : HM bool :=
  fun s => match eqb_fuel fuel s.1 v w with
           | Ok b => Ok (negb b, s)
           | Raise e => Raise e
           end.

(** [v != w] *)
Definition ne (v w : val) : HM bool := ne_fuel recursion_limit v w.

(** *** [refine_polygon] *)

(** [point[k] + (random.random() - 0.5) * adjustment] *)
Definition perturb_coordinate (point : val) (k : Z) (adjustment : Q) : HM Q :=
  let* c := getitem point k in
  let* u := rnd random in
  let* x := lift (as_float c) in
  ret (x + (u - (1 # 2)) * adjustment).

(** The loop [for i, point in enumerate(ring)] over the items [points] that
    [ring] has when the loop is entered; [len(ring)] is read in each round. *)
Fixpoint perturb_loop (ring : val) (i : Z) (points : list val) (improved_ring : val)
  : HM unit :=
  match points with
  | [] => ret tt
  | point :: points' =>
      let* n := length_of ring in
      if ((i =? 0) || (i =? n - 1))%Z then
        let* _ := append improved_ring point in
        perturb_loop ring (i + 1) points' improved_ring
      else
        let* certainty := rnd random in
        let adjustment := (1 - certainty) * (1 # 10000) in
        let* x := perturb_coordinate point 0 adjustment in
        let* y := perturb_coordinate point 1 adjustment in
        let* improved_point := alloc [VNum x; VNum y] in
        let* _ := append improved_ring improved_point in
        perturb_loop ring (i + 1) points' improved_ring
  end.

(** [(a[k] + b[k]) / 2 + (random.random() - 0.5) * 0.00005] *)
Definition midpoint_coordinate (a b : val) (k : Z) : HM Q :=
  let* ak := getitem a k in
  let* bk := getitem b k in
  let* x := lift (as_float ak) in
  let* y := lift (as_float bk) in
  let* u := rnd random in
  ret ((x + y) / 2 + (u - (1 # 2)) * (5 # 100000)).

Definition insert_point (improved_ring : val) : HM unit :=
  let* n := length_of improved_ring in
  let* insert_idx := rnd (randint 1 (n - 2)) in
  let* a := getitem improved_ring insert_idx in
  let* b := getitem improved_ring (insert_idx + 1) in
  let* x := midpoint_coordinate a b 0 in
  let* y := midpoint_coordinate a b 1 in
  let* new_point := alloc [VNum x; VNum y] in
  insert improved_ring (insert_idx + 1) new_point.

Fixpoint insert_points (rounds : nat) (improved_ring : val) : HM unit :=
  match rounds with
  | O => ret tt
  | S rounds' =>
      let* _ := insert_point improved_ring in
      insert_points rounds' improved_ring
  end.

Definition densify (ring improved_ring : val) : HM unit :=
  let* n := length_of ring in
  if (n <? 20)%Z then
    let* rounds := rnd (randint 0 2) in
    insert_points (Z.to_nat rounds) improved_ring
  else ret tt.

Definition close_ring (improved_ring : val) : HM unit :=
  let* first := getitem improved_ring 0 in
  let* last := getitem improved_ring (-1) in
  let* open := ne first last in
  if open then
    let* first := getitem improved_ring 0 in
    let* c := copy first in
    append improved_ring c
  else ret tt.

(** The body of [for ring in geometry.coordinates]. *)
Definition refine_ring (ring improved_rings : val) : HM unit :=
  let* improved_ring := alloc [] in
  let* points := load ring in
  let* _ := perturb_loop ring 0 points improved_ring in
  let* _ := densify ring improved_ring in
  let* _ := close_ring improved_ring in
  append improved_rings improved_ring.

Fixpoint refine_rings (rings : list val) (improved_rings : val) : HM unit :=
  match rings with
  | [] => ret tt
  | ring :: rings' =>
      let* _ := refine_ring ring improved_rings in
      refine_rings rings' improved_rings
  end.

(** The dict [improved] is built here and known to nobody else until it is
    returned: it is the returned record. *)
Definition refine_polygon (geometry : geometry_t) : HM geometry_t :=
  let* empty := alloc [] in
  let improved := Geometry (type geometry) empty in
  if String.eqb (type geometry) "Polygon" then
    let* improved_rings := alloc [] in
    let* rings := load (coordinates geometry) in
    let* _ := refine_rings rings improved_rings in
    ret (Geometry (type improved) improved_rings)
  else
    ret (Geometry (type improved) (coordinates geometry)).

(** *** [improve_existing_boundary]

    [math.cos] and [math.sqrt] are functions of the platform's C library.
    The model handle and the imagery stub touch no list. *)

Section Improve.

Variables cos sqrt : Q -> Q.

(** [sum(point[k] for point in coords)], entered with [total]. *)
Fixpoint sum_coordinate (k : Z) (points : list val) (total : Q) : HM Q :=
  match points with
  | [] => ret total
  | point :: points' =>
      let* c := getitem point k in
      let* x := lift (as_float c) in
      sum_coordinate k points' (total + x)
  end.

(** The centre and radius handed to the imagery stub. *)
Definition centre_and_radius (geometry : geometry_t) : HM (Q * Q * Q) :=
  if String.eqb (type geometry) "Polygon" then
    let* coords := getitem (coordinates geometry) 0 in
    let* points := load coords in
    let* lon_sum := sum_coordinate 0 points 0 in
    let* points := load coords in
    let* lat_sum := sum_coordinate 1 points 0 in
    let* n := length_of coords in
    let* center_lon := lift (fdiv lon_sum (inject_Z n)) in
    let* n := length_of coords in
    let* center_lat := lift (fdiv lat_sum (inject_Z n)) in
    let* first_point := getitem coords 0 in
    let* c := getitem first_point 0 in
    let* x := lift (as_float c) in
    let dx := (x - center_lon) * 111320 * cos (center_lat * pi / 180) in
    let* c := getitem first_point 1 in
    let* y := lift (as_float c) in
    let dy := (y - center_lat) * 110540 in
    let radius_m := sqrt (dx * dx + dy * dy) in
    ret (center_lat, center_lon, radius_m)
  else
    ret (0, 0, 500).

Definition improve_existing_boundary (geometry : geometry_t)
  : HM (geometry_t * Q) :=
  let* _ := centre_and_radius geometry in
  let* improved_geometry := refine_polygon geometry in
  let* u := rnd random in
  let confidence := (85 # 100) + (u * (14 # 100)) in
  ret (improved_geometry, confidence).

End Improve.

(** *** Vocabulary of the store properties *)

(** [v] is no reference to an object of [h]. *)
Definition fresh_for (h : heap) (v : val) : Prop :=
  match v with
  | VNum _ => True
  | VRef l => h !! l = None
  end.

(** Started in a store that holds the objects of [h0] as they are in [h0],
    [m] leaves such a store if it returns, and returns a value that
    satisfies [post]. *)
Definition keeps {A} (h0 : heap) (m : HM A) (post : A -> Prop) : Prop :=
  forall s a s', h0 ⊆ s.1 -> m s = Ok (a, s') -> h0 ⊆ s'.1 /\ post a.

(** No condition on the value returned. *)
Definition any {A} : A -> Prop := fun _ => True.

(** The nested list a value stands for in a store, read to depth [fuel]. *)
Fixpoint reify (fuel : nat) (h : heap) (v : val) : option BoundaryDetection.coords_t :=
  match fuel with
  | O => None
  | S fuel' =>
      match v with
      | VNum x => Some (BoundaryDetection.Num x)
      | VRef l =>
          match h !! l with
          | Some items =>
              BoundaryDetection.Arr <$> mapM (reify fuel' h) items
          | None => None
          end
      end
  end.

(** *** Vocabulary of the agreement with the list model *)

(** The items stand for the nested lists [cs], read to depth [fuel]. *)
Definition reps (fuel : nat) (h : heap) (items : list val)
    (cs : list BoundaryDetection.coords_t) : Prop :=
  Forall2 (fun v c => reify fuel h v = Some c) items cs.

(** Started on the store [h] and the tape [t], the computation on the store
    and the computation on nested lists raise the same exception, or both
    return, leaving the same tape, values that [post] relates. *)
Definition sim {A B} (h : heap) (t : tape) (mh : HM A) (mp : M B)
    (post : heap -> A -> B -> Prop) : Prop :=
  match mp t with
  | Ok (b, t') => exists a h', mh (h, t) = Ok (a, (h', t')) /\ post h' a b
  | Raise e => mh (h, t) = Raise e
  end.

(** The store without the ring under construction, [lir], and the list of
    finished rings, [lirs]: the part that is never written again. *)
Definition stable (lir lirs : loc) (h : heap) : heap := delete lir (delete lirs h).

(** The ring under construction holds items that stand for [cs], positions
    read to depth [fq + 2], and the list of finished rings is there. *)
Definition building (fq : nat) (lir lirs : loc) (h : heap)
    (cs : list BoundaryDetection.coords_t) : Prop :=
  (exists items, h !! lir = Some items
     /\ reps (S (S fq)) (stable lir lirs h) items cs)
  /\ is_Some (h !! lirs).

(** From [h] to [h'] the stable part has only grown and the list of
    finished rings is as it was. *)
Definition extends (lir lirs : loc) (h h' : heap) : Prop :=
  stable lir lirs h ⊆ stable lir lirs h' /\ h' !! lirs = h !! lirs.

Definition built (fq : nat) (lir lirs : loc) (h : heap)
  : heap -> unit -> list BoundaryDetection.coords_t -> Prop :=
  fun h' _ cs' => extends lir lirs h h' /\ building fq lir lirs h' cs'.

(** The list of finished rings holds items that stand for [rs]. *)
Definition collecting (fq : nat) (lirs : loc) (h : heap)
    (rs : list BoundaryDetection.coords_t) : Prop :=
  exists its, h !! lirs = Some its /\ reps (S (S (S fq))) (delete lirs h) its rs.

Definition collected (fq : nat) (lirs : loc) (h : heap)
  : heap -> unit -> list BoundaryDetection.coords_t -> Prop :=
  fun h' _ rs' => delete lirs h ⊆ delete lirs h' /\ collecting fq lirs h' rs'.

(** *** Vocabulary of what the output shares with the input *)

(** [m] changes no object and creates none. *)
Definition reads {A} (m : HM A) : Prop :=
  forall s a s', m s = Ok (a, s') -> s'.1 = s.1.

(** [v] refers to an object that [h] does not have. *)
Definition created (h : heap) (v : val) : Prop :=
  exists l : loc, v = VRef l /\ h !! l = None.

(** The items [points'] of a refined ring, against the items [points] of the
    ring it was made from: the first item, new objects, the last item when
    [points] has two items or more, and at most one more new object. The
    first and the last item are the items of [points] themselves, not
    copies. *)
Definition shares (h : heap) (points points' : list val) : Prop :=
  exists mid closing,
    points' = take 1 points ++ mid
              ++ drop (Nat.max 1 (length points - 1)) points ++ closing
    /\ Forall (created h) mid /\ Forall (created h) closing
    /\ (length closing <= 1)%nat.

(** The refined ring [ring'] in the store [h'], against [ring] in the store
    [h] that the refiner was started in: a new list object, whose items
    share the ends of [ring]. *)
Definition ring_shares (h h' : heap) (ring ring' : val) : Prop :=
  exists (lir : loc) points',
    ring' = VRef lir /\ h !! lir = None /\ h' !! lir = Some points'
    /\ forall (lr : loc) points,
         ring = VRef lr -> h !! lr = Some points -> shares h points points'.

(** *** Examples *)

(** The square parcel with its hole, as the request parser builds it: every
    position, every ring and the list of rings an object of its own. *)
Definition parcel_heap : heap :=
  list_to_map
    [ (1%positive, [VNum 0; VNum 0]); (2%positive, [VNum 4; VNum 0]);
      (3%positive, [VNum 4; VNum 4]); (4%positive, [VNum 0; VNum 4]);
      (5%positive, [VNum 0; VNum 0]);
      (6%positive, [VRef 1%positive; VRef 2%positive; VRef 3%positive; VRef 4%positive; VRef 5%positive]);
      (7%positive, [VNum 1; VNum 1]); (8%positive, [VNum 2; VNum 1]);
      (9%positive, [VNum 2; VNum 2]); (10%positive, [VNum 1; VNum 1]);
      (11%positive, [VRef 7%positive; VRef 8%positive; VRef 9%positive; VRef 10%positive]);
      (12%positive, [VRef 6%positive; VRef 11%positive]) ].

Definition parcel : geometry_t := Geometry "Polygon" (VRef 12%positive).

End BoundaryHeap.

(** * Properties *)

(** ** The monad and the random source *)

Lemma bind_Ok {S A B} (m : ST S A) (k : A -> ST S B) t r :
  bind m k t = Ok r <-> exists a t', m t = Ok (a, t') /\ k a t' = Ok r.
Proof.
  unfold bind. split.
  - destruct (m t) as [[a t']|e]; [eauto | discriminate].
  - intros (a & t' & -> & H). exact H.
Qed.

Lemma lift_Ok {S A} (r : result A) (t : S) a t' :
  lift r t = Ok (a, t') <-> r = Ok a /\ t' = t.
Proof.
  unfold lift. destruct r; split; intros H.
  - by inversion H.
  - destruct H as [H ->]. by inversion H.
  - discriminate.
  - by destruct H.
Qed.

Lemma ret_Ok {S A} (a : A) (t : S) b t' : ret a t = Ok (b, t') <-> b = a /\ t' = t.
Proof. unfold ret. split; [intros H; by inversion H | by intros [-> ->]]. Qed.

Lemma in_unit_range q : in_unit q = true -> 0 <= q < 1.
Proof.
  unfold in_unit. rewrite andb_true_iff, negb_true_iff. intros [H1 H2].
  apply Qle_bool_iff in H1. split; [exact H1|].
  apply Qnot_le_lt. intros H. apply Qle_bool_iff in H. congruence.
Qed.

Lemma random_total t : exists u t', random t = Ok (u, t') /\ 0 <= u < 1.
Proof.
  destruct t as [|[q Hq] t]; simpl.
  - exists 0, []. split; [done | lra].
  - exists q, t. split; [done | by apply in_unit_range].
Qed.

Lemma random_Ok t u t' : random t = Ok (u, t') -> 0 <= u < 1.
Proof.
  destruct (random_total t) as (u0 & t0 & E & H). rewrite E. by intros [= <- <-].
Qed.

Lemma Qfloor_unit_scale u (n : Z) :
  0 <= u < 1 -> (0 < n)%Z -> (0 <= Qfloor (u * inject_Z n) < n)%Z.
Proof.
  intros [H0 H1] Hn.
  assert (Hq : 0 < inject_Z n)
    by (change (inject_Z 0 < inject_Z n); rewrite <- Zlt_Qlt; exact Hn).
  split.
  - change 0%Z with (Qfloor 0). apply Qfloor_resp_le. nra.
  - apply Z.lt_nge. intros Hge.
    assert (H2 : inject_Z n <= inject_Z (Qfloor (u * inject_Z n)))
      by (rewrite <- Zle_Qle; exact Hge).
    pose proof (Qfloor_le (u * inject_Z n)). nra.
Qed.

Lemma randbelow_total n t :
  (0 < n)%Z -> exists k t', randbelow n t = Ok (k, t') /\ (0 <= k < n)%Z.
Proof.
  intros Hn. unfold randbelow.
  destruct (random_total t) as (u & t' & E & Hu).
  exists (Qfloor (u * inject_Z n)), t'. split.
  - apply bind_Ok. exists u, t'. by split.
  - by apply Qfloor_unit_scale.
Qed.

Lemma randint_total a b t :
  (a <= b)%Z -> exists k t', randint a b t = Ok (k, t') /\ (a <= k <= b)%Z.
Proof.
  intros Hab. unfold randint.
  destruct (Z.ltb_spec b a) as [?|_]; [lia|].
  destruct (randbelow_total (b - a + 1) t) as (k & t' & E & Hk); [lia|].
  exists (a + k)%Z, t'. split; [|lia].
  apply bind_Ok. exists k, t'. by split.
Qed.

Lemma randint_Ok a b t k t' :
  randint a b t = Ok (k, t') -> (a <= k <= b)%Z.
Proof.
  unfold randint. destruct (Z.ltb_spec b a) as [?|Hab]; [discriminate|].
  destruct (randint_total a b t Hab) as (k0 & t0 & E & Hk).
  unfold randint in E. destruct (Z.ltb_spec b a); [lia|].
  rewrite E. by intros [= <- <-].
Qed.

Lemma list_getitem_nonneg {A} (l : list A) (i : Z) :
  (0 <= i)%Z ->
  list_getitem l i = match l !! Z.to_nat i with
                     | Some x => Ok x
                     | None => Raise IndexError
                     end.
Proof.
  intros Hi. unfold list_getitem.
  destruct (Z.ltb_spec i 0) as [?|_]; [lia|].
  destruct (Z.ltb_spec i 0) as [?|_]; [lia|]. done.
Qed.

Lemma list_getitem_lookup {A} (l : list A) (i : Z) x :
  (0 <= i)%Z -> l !! Z.to_nat i = Some x -> list_getitem l i = Ok x.
Proof. intros Hi E. rewrite list_getitem_nonneg by done. by rewrite E. Qed.

(** ** Land-use scoring *)
Module LandUseFacts.
Import LandUse.

Lemma dict_of_snoc {V} (items : list (string * V)) k v :
  dict_of (items ++ [(k, v)]) = <[k := v]> (dict_of items).
Proof. unfold dict_of. by rewrite foldl_snoc. Qed.

Lemma dict_of_lookup_None {V} (items : list (string * V)) k :
  k ∉ items.*1 -> dict_of items !! k = None.
Proof.
  induction items as [|[k' v'] items IH] using rev_ind; intros Hk.
  - apply lookup_empty.
  - rewrite dict_of_snoc. rewrite fmap_app, elem_of_app in Hk. simpl in Hk.
    rewrite lookup_insert_ne; [apply IH; tauto|].
    intros ->. apply Hk. right. by left.
Qed.

Lemma dict_of_lookup_Some {V} (items : list (string * V)) k v :
  NoDup items.*1 -> (k, v) ∈ items -> dict_of items !! k = Some v.
Proof.
  induction items as [|[k' v'] items IH] using rev_ind; intros Hnd Hin.
  - by apply elem_of_nil in Hin.
  - rewrite dict_of_snoc. rewrite fmap_app in Hnd. simpl in Hnd.
    apply NoDup_app in Hnd as (Hnd & Hfresh & _).
    apply elem_of_app in Hin as [Hin|Hin].
    + rewrite lookup_insert_ne; [by apply IH|].
      intros ->. apply (Hfresh k); [|by left].
      apply list_elem_of_fmap. by exists (k, v).
    + apply list_elem_of_singleton in Hin as [= -> ->]. apply lookup_insert_eq.
Qed.

Lemma details_keys : details_items.*1 = LAND_USE_CATEGORIES.
Proof. reflexivity. Qed.

Lemma categories_NoDup : NoDup LAND_USE_CATEGORIES.
Proof. apply (bool_decide_unpack _). by vm_compute. Qed.

(** C8. The category-detail lookup is a total function. For each of the ten
    categories it returns the record the table pairs with that category (the
    table has exactly these ten keys, each once); for every other string it
    returns the placeholder record, whose description is "Unknown land use
    category" and whose lists are empty. *)
Theorem get_land_use_details_total (category : string) :
  (category ∈ LAND_USE_CATEGORIES ->
   (category, get_land_use_details category) ∈ details_items)
  /\ (category ∉ LAND_USE_CATEGORIES ->
      get_land_use_details category = unknown_details).
Proof.
  unfold get_land_use_details, dict_get. split; intros Hc.
  - rewrite <- details_keys in Hc.
    apply list_elem_of_fmap in Hc as ([k d] & -> & Hin). simpl.
    rewrite (dict_of_lookup_Some _ k d); [done| |done].
    rewrite details_keys. apply categories_NoDup.
  - rewrite dict_of_lookup_None; [done|]. by rewrite details_keys.
Qed.

Lemma get_land_use_details_total_witness :
  let known := "forestry"%string in
  let unknown := "forest"%string in
  (known ∈ LAND_USE_CATEGORIES
   /\ (known, get_land_use_details known) ∈ details_items)
  /\ ((unknown ∉ LAND_USE_CATEGORIES)
      /\ get_land_use_details unknown = unknown_details).
Proof.
  intros known unknown.
  assert (H1 : known ∈ LAND_USE_CATEGORIES)
    by (apply (bool_decide_unpack _); vm_compute; reflexivity).
  assert (H2 : unknown ∉ LAND_USE_CATEGORIES)
    by (apply (bool_decide_unpack _); vm_compute; reflexivity).
  split.
  - split; [exact H1|]. exact (proj1 (get_land_use_details_total known) H1).
  - split; [exact H2|]. exact (proj2 (get_land_use_details_total unknown) H2).
Defined.

(** *** Sampling without replacement *)

Lemma pool_remove_split {A} (pool : list A) j x :
  pool !! j = Some x ->
  exists l1 l2, pool = l1 ++ x :: l2 /\ pool_remove pool j ≡ₚ l1 ++ l2.
Proof.
  intros Hj. apply list_elem_of_split_length in Hj as (l1 & l2 & -> & ->).
  exists l1, l2. split; [done|]. unfold pool_remove.
  destruct l2 as [|z l2 _] using rev_ind.
  - rewrite last_snoc, length_app. simpl.
    rewrite list_insert_id by (by rewrite list_lookup_middle).
    replace (length l1 + 1 - 1)%nat with (length l1) by lia.
    by rewrite take_app_length, app_nil_r.
  - assert (E : l1 ++ x :: l2 ++ [z] = (l1 ++ x :: l2) ++ [z])
      by (by rewrite <- app_assoc).
    rewrite E at 1. rewrite last_snoc.
    assert (E' : <[length l1 := z]> (l1 ++ x :: l2 ++ [z]) = (l1 ++ z :: l2) ++ [z]).
    { rewrite insert_app_r_alt by lia. rewrite Nat.sub_diag. simpl.
      by rewrite <- app_assoc. }
    rewrite E'. rewrite take_app_length'.
    + apply Permutation_app_head. apply Permutation_cons_append.
    + rewrite !length_app. simpl. rewrite length_app. simpl. lia.
Qed.

Lemma sample_loop_spec {A} (k : nat) : forall (pool : list A) t,
  NoDup pool -> (k <= length pool)%nat ->
  exists res t', sample_loop k pool t = Ok (res, t')
    /\ length res = k /\ NoDup res /\ (forall x, x ∈ res -> x ∈ pool).
Proof.
  induction k as [|k IH]; intros pool t Hnd Hk; simpl.
  - exists [], t. repeat split; [constructor | intros x Hx; by apply elem_of_nil in Hx].
  - destruct (randbelow_total (len pool) t) as (j & t1 & Ej & Hj);
      [unfold len; lia|].
    unfold len in Hj.
    destruct (lookup_lt_is_Some_2 pool (Z.to_nat j)) as [x Hx]; [lia|].
    destruct (pool_remove_split pool _ x Hx) as (l1 & l2 & Hpool & Hperm).
    assert (Hnd' : NoDup (l1 ++ l2) /\ x ∉ l1 ++ l2).
    { rewrite Hpool in Hnd. apply NoDup_app in Hnd as (H1 & H2 & H3).
      apply NoDup_cons in H3 as [H3 H4]. split.
      - apply NoDup_app. repeat split; [done| |done].
        intros y Hy Hy'. apply (H2 y Hy). by right.
      - rewrite elem_of_app. intros [Hin|Hin]; [|done].
        apply (H2 x Hin). by left. }
    destruct Hnd' as [Hnd' Hfresh].
    destruct (IH (pool_remove pool (Z.to_nat j)) t1) as (res & t2 & Er & Hlen & Hres & Hsub).
    { by rewrite Hperm. }
    { rewrite Hperm. rewrite Hpool, length_app in Hk. simpl in Hk.
      rewrite length_app. lia. }
    exists (x :: res), t2. split; [|split; [|split]].
    + apply bind_Ok. exists j, t1. split; [done|].
      apply bind_Ok. exists x, t1. split.
      { apply lift_Ok. split; [|done]. apply list_getitem_lookup; [lia|done]. }
      apply bind_Ok. exists res, t2. by split.
    + simpl. by rewrite Hlen.
    + apply NoDup_cons. split; [|done].
      intros Hin. apply Hfresh. rewrite <- Hperm. by apply Hsub.
    + intros y Hy. apply elem_of_cons in Hy as [->|Hy].
      * by apply list_elem_of_lookup_2 in Hx.
      * apply Hsub in Hy. rewrite Hperm in Hy. rewrite Hpool.
        rewrite elem_of_app in Hy. rewrite elem_of_app, elem_of_cons. tauto.
Qed.

Lemma sample_spec {A} (population : list A) (k : Z) t :
  NoDup population -> (0 <= k <= len population)%Z ->
  exists res t', sample population k t = Ok (res, t')
    /\ len res = k /\ NoDup res /\ (forall x, x ∈ res -> x ∈ population).
Proof.
  intros Hnd Hk. unfold sample.
  destruct (Z.ltb_spec k 0) as [?|_]; [lia|].
  destruct (Z.ltb_spec (len population) k) as [?|_]; [lia|]. simpl.
  destruct (sample_loop_spec (Z.to_nat k) population t Hnd) as (res & t' & E & Hlen & H);
    [unfold len in Hk; lia|].
  exists res, t'. split; [done|]. split; [unfold len; lia | done].
Qed.

(** *** Distributing the remaining confidence *)

Lemma sum_confidence_app l l' :
  sum_confidence (l ++ l') == sum_confidence l + sum_confidence l'.
Proof.
  induction l as [|a l IH]; simpl.
  - ring.
  - rewrite IH. ring.
Qed.

Lemma sum_confidence_perm l l' :
  l ≡ₚ l' -> sum_confidence l == sum_confidence l'.
Proof.
  induction 1 as [|a l l' _ IH|a b l|l1 l2 l3 _ IH1 _ IH2]; simpl.
  - reflexivity.
  - by rewrite IH.
  - ring.
  - by rewrite IH1.
Qed.

Lemma distribute_spec cs : forall c n i remaining acc t,
  (i + len (c :: cs) = n)%Z -> 0 <= remaining ->
  exists res t', distribute n i (c :: cs) remaining acc t = Ok (res, t')
    /\ landUse <$> res = (landUse <$> acc) ++ c :: cs
    /\ sum_confidence res == sum_confidence acc + remaining
    /\ (Forall nonneg acc -> Forall nonneg res).
Proof.
  induction cs as [|c' cs IH]; intros c n i remaining acc t Hn Hrem.
  - unfold len in Hn. simpl in Hn. simpl.
    destruct (Z.eqb_spec i (n - 1)) as [_|?]; [|lia].
    eexists _, t. split; [reflexivity|]. split; [|split].
    + by rewrite fmap_app.
    + rewrite sum_confidence_app. simpl. ring.
    + intros Hacc. apply Forall_app. split; [done|]. by repeat constructor.
  - unfold len in Hn. cbn [length] in Hn.
    cbn [distribute].
    destruct (Z.eqb_spec i (n - 1)) as [?|_]; [lia|].
    destruct (random_total t) as (u & t1 & Eu & Hu).
    set (conf := remaining * (u * (7 # 10))).
    destruct (IH c' n (i + 1)%Z (remaining - conf)
                (acc ++ [Alternative c conf]) t1) as (res & t2 & Er & Hcats & Hsum & Hpos).
    { unfold len. cbn [length]. lia. }
    { unfold conf. nra. }
    exists res, t2. split; [|split; [|split]].
    + apply bind_Ok. exists u, t1. by split.
    + rewrite Hcats, fmap_app. simpl. by rewrite <- app_assoc.
    + rewrite Hsum, sum_confidence_app. simpl. ring.
    + intros Hacc. apply Hpos. apply Forall_app. split; [done|].
      repeat constructor. unfold nonneg, conf. simpl. nra.
Qed.

(** *** The stable descending sort *)

Lemma Qlt_bool_iff x y : Qlt_bool x y = true <-> x < y.
Proof.
  unfold Qlt_bool. rewrite negb_true_iff. split; intros H.
  - apply Qnot_le_lt. intros Hle. apply Qle_bool_iff in Hle. congruence.
  - destruct (Qle_bool y x) eqn:E; [|done].
    apply Qle_bool_iff in E. lra.
Qed.

Lemma Qlt_bool_false x y : Qlt_bool x y = false <-> y <= x.
Proof.
  unfold Qlt_bool. rewrite negb_false_iff. apply Qle_bool_iff.
Qed.

Lemma insert_desc_perm x l : insert_desc x l ≡ₚ x :: l.
Proof.
  induction l as [|y l IH]; simpl; [done|].
  destruct (Qlt_bool _ _); [|done].
  rewrite IH. apply Permutation_swap.
Qed.

Lemma sort_desc_perm l : sort_desc l ≡ₚ l.
Proof.
  induction l as [|x l IH]; simpl; [done|].
  by rewrite insert_desc_perm, IH.
Qed.

Lemma insert_desc_sorted x l : sorted_desc l -> sorted_desc (insert_desc x l).
Proof.
  unfold sorted_desc. induction 1 as [|y l Hs IH Hy]; simpl.
  - repeat constructor.
  - destruct (Qlt_bool (confidence x) (confidence y)) eqn:E.
    + apply Qlt_bool_iff in E. constructor; [done|].
      rewrite Forall_forall. intros z Hz.
      rewrite insert_desc_perm in Hz.
      apply elem_of_cons in Hz as [->|Hz]; [lra|].
      rewrite Forall_forall in Hy. by apply Hy.
    + apply Qlt_bool_false in E. constructor; [by constructor|].
      constructor; [done|].
      rewrite Forall_forall in Hy |- *. intros z Hz. specialize (Hy z Hz). lra.
Qed.

Lemma sort_desc_sorted l : sorted_desc (sort_desc l).
Proof.
  induction l as [|x l IH]; simpl.
  - constructor.
  - by apply insert_desc_sorted.
Qed.

Lemma ties_insert_desc q x l : ties q (insert_desc x l) = ties q (x :: l).
Proof.
  induction l as [|y l IH]; [done|]. cbn [insert_desc].
  destruct (Qlt_bool (confidence x) (confidence y)) eqn:E; [|done].
  apply Qlt_bool_iff in E.
  unfold ties in *. cbn [List.filter] in *. rewrite IH.
  destruct (Qeq_bool (confidence x) q) eqn:Ex; [|done].
  destruct (Qeq_bool (confidence y) q) eqn:Ey; [|done].
  apply Qeq_bool_iff in Ex, Ey. lra.
Qed.

Lemma ties_sort_desc q l : ties q (sort_desc l) = ties q l.
Proof.
  induction l as [|x l IH]; [done|]. simpl sort_desc.
  rewrite ties_insert_desc. unfold ties in *. simpl. by rewrite IH.
Qed.

(** *** The scorer *)

Lemma other_categories_length p :
  p ∈ LAND_USE_CATEGORIES ->
  length (filter (fun c => c ≠ p) LAND_USE_CATEGORIES) = 9%nat.
Proof.
  unfold LAND_USE_CATEGORIES. rewrite !elem_of_cons, elem_of_nil.
  intros H. repeat (destruct H as [->|H]; [by vm_compute|]). done.
Qed.

Lemma draw_alternatives_spec geometry t :
  exists primary conf drawn t',
    draw_alternatives geometry t = Ok (primary, conf, drawn, t')
    /\ primary ∈ LAND_USE_CATEGORIES
    /\ (65 # 100) <= conf < (95 # 100)
    /\ (2 <= length drawn <= 4)%nat
    /\ NoDup (landUse <$> drawn)
    /\ (forall c, c ∈ landUse <$> drawn -> c ∈ LAND_USE_CATEGORIES /\ c ≠ primary)
    /\ conf + sum_confidence drawn == 1
    /\ Forall nonneg drawn.
Proof.
  unfold draw_alternatives.
  destruct (random_total t) as (u & t1 & Eu & Hu).
  assert (Hidx : exists idx t2,
    (if Qlt_bool u (4 # 10) then ret 0%Z
     else randint 0 (len LAND_USE_CATEGORIES - 1)) t1 = Ok (idx, t2)
    /\ (0 <= idx <= 9)%Z).
  { destruct (Qlt_bool u (4 # 10)).
    - exists 0%Z, t1. split; [done | lia].
    - destruct (randint_total 0 (len LAND_USE_CATEGORIES - 1) t1) as (k & t2 & E & Hk);
        [by vm_compute|].
      exists k, t2. split; [done|]. exact Hk. }
  destruct Hidx as (idx & t2 & Eidx & Hidx).
  destruct (lookup_lt_is_Some_2 LAND_USE_CATEGORIES (Z.to_nat idx)) as [primary Hp];
    [simpl; lia|].
  assert (Hprim : primary ∈ LAND_USE_CATEGORIES) by (by eapply list_elem_of_lookup_2).
  destruct (random_total t2) as (u' & t3 & Eu' & Hu').
  destruct (randint_total 2 4 t3) as (num & t4 & Enum & Hnum); [lia|].
  set (pool := filter (fun c => c ≠ primary) LAND_USE_CATEGORIES).
  destruct (sample_spec pool num t4) as (cats & t5 & Ecats & Hlen & Hnd & Hsub).
  { apply NoDup_filter, categories_NoDup. }
  { unfold len, pool. rewrite other_categories_length by done. lia. }
  destruct cats as [|c cats]; [unfold len in Hlen; simpl in Hlen; lia|].
  set (conf := (65 # 100) + u' * (3 # 10)).
  destruct (distribute_spec cats c (len (c :: cats)) 0 (1 - conf) [] t5)
    as (drawn & t6 & Ed & Hcats & Hsum & Hpos); [lia | unfold conf; lra |].
  simpl in Hcats, Hsum.
  exists primary, conf, drawn, t6. split; [|repeat split].
  - apply bind_Ok. exists u, t1. split; [done|].
    apply bind_Ok. exists idx, t2. split; [done|].
    apply bind_Ok. exists primary, t2. split.
    { apply lift_Ok. split; [|done]. apply list_getitem_lookup; [lia|done]. }
    apply bind_Ok. exists u', t3. split; [done|].
    apply bind_Ok. exists num, t4. split; [done|].
    apply bind_Ok. exists (c :: cats), t5. split; [done|].
    apply bind_Ok. exists drawn, t6. by split.
  - done.
  - unfold conf. lra.
  - unfold conf. lra.
  - apply (f_equal length) in Hcats. rewrite length_fmap in Hcats.
    unfold len in Hlen. lia.
  - apply (f_equal length) in Hcats. rewrite length_fmap in Hcats.
    unfold len in Hlen. lia.
  - by rewrite Hcats.
  - rewrite Hcats in H. apply Hsub in H. unfold pool in H.
    by apply list_elem_of_filter in H as [_ H].
  - rewrite Hcats in H. apply Hsub in H. unfold pool in H.
    by apply list_elem_of_filter in H as [H _].
  - rewrite Hsum. ring.
  - apply Hpos. constructor.
Qed.

Lemma detect_land_use_draw geometry t primary conf drawn t' :
  draw_alternatives geometry t = Ok (primary, conf, drawn, t') ->
  detect_land_use geometry t = Ok (primary, conf, sort_desc drawn, t').
Proof. intros E. unfold detect_land_use, bind. by rewrite E. Qed.

(** C1. For every draw of the random source [detect_land_use] returns a
    result in which the primary confidence plus the sum of the confidences of
    all alternatives is exactly 1, and every alternative confidence is
    non-negative. *)
Theorem detect_land_use_mass geometry t :
  exists primary conf alternatives t',
    detect_land_use geometry t = Ok (primary, conf, alternatives, t')
    /\ conf + sum_confidence alternatives == 1
    /\ Forall nonneg alternatives.
Proof.
  destruct (draw_alternatives_spec geometry t)
    as (primary & conf & drawn & t' & E & _ & _ & _ & _ & _ & Hsum & Hpos).
  exists primary, conf, (sort_desc drawn), t'. split; [|split].
  - by apply detect_land_use_draw.
  - by rewrite (sum_confidence_perm _ _ (sort_desc_perm drawn)).
  - by rewrite sort_desc_perm.
Qed.

(** C6. For every draw of the random source the alternatives returned by
    [detect_land_use] are the drawn alternatives in descending order of
    confidence, equal confidences keeping their draw order; there are
    between 2 and 4 of them; their labels are pairwise distinct categories of
    the fixed set, none equal to the primary label. *)
Theorem detect_land_use_alternatives geometry t :
  exists primary conf drawn t',
    draw_alternatives geometry t = Ok (primary, conf, drawn, t')
    /\ detect_land_use geometry t = Ok (primary, conf, sort_desc drawn, t')
    /\ sort_desc drawn ≡ₚ drawn
    /\ sorted_desc (sort_desc drawn)
    /\ (forall q, ties q (sort_desc drawn) = ties q drawn)
    /\ (2 <= length (sort_desc drawn) <= 4)%nat
    /\ NoDup (landUse <$> sort_desc drawn)
    /\ (forall a, a ∈ sort_desc drawn ->
          landUse a ∈ LAND_USE_CATEGORIES /\ landUse a ≠ primary).
Proof.
  destruct (draw_alternatives_spec geometry t)
    as (primary & conf & drawn & t' & E & _ & _ & Hlen & Hnd & Hcat & _ & _).
  exists primary, conf, drawn, t'.
  pose proof (sort_desc_perm drawn) as Hperm.
  split; [done|]. split; [by apply detect_land_use_draw|].
  split; [done|]. split; [apply sort_desc_sorted|].
  split; [intros q; apply ties_sort_desc|].
  split; [by rewrite Hperm|]. split; [by rewrite Hperm|].
  intros a Ha. apply Hcat. rewrite Hperm in Ha.
  apply list_elem_of_fmap. by exists a.
Qed.

End LandUseFacts.

Module BoundaryFacts.
Import BoundaryDetection.

(** *** Values *)

Lemma coords_ind (P : coords_t -> Prop) :
  (forall x, P (Num x)) ->
  (forall l, Forall P l -> P (Arr l)) ->
  forall v, P v.
Proof.
  intros HNum HArr. fix IH 1. intros [x|l].
  - apply HNum.
  - apply HArr. induction l as [|a l IHl]; constructor; [apply IH | exact IHl].
Qed.

Lemma py_eqb_refl v : py_eqb v v = true.
Proof.
  induction v as [x|l IH] using coords_ind; simpl.
  - apply Qeq_bool_refl.
  - induction IH as [|a l Ha _ IHl]; [done|]. by rewrite Ha, IHl.
Qed.

(** *** Closing a ring *)

Lemma list_getitem_0 {A} (l : list A) :
  list_getitem l 0 = match head l with Some x => Ok x | None => Raise IndexError end.
Proof. rewrite list_getitem_nonneg by lia. by destruct l. Qed.

Lemma list_getitem_last {A} (l : list A) :
  list_getitem l (-1) = match last l with Some x => Ok x | None => Raise IndexError end.
Proof.
  unfold list_getitem. simpl.
  destruct l as [|x l _] using rev_ind; [done|].
  rewrite last_snoc, length_app. simpl.
  destruct (Z.ltb_spec (-1 + Z.of_nat (length l + 1)) 0) as [?|_]; [lia|].
  replace (Z.to_nat (-1 + Z.of_nat (length l + 1))) with (length l) by lia.
  by rewrite list_lookup_middle.
Qed.

Lemma close_ring_Ok l l' :
  close_ring l = Ok l' ->
  exists first last_, head l = Some first /\ last l = Some last_
    /\ ((py_eqb first last_ = true /\ l' = l)
        \/ (py_eqb first last_ = false /\ l' = l ++ [first])).
Proof.
  unfold close_ring. rewrite list_getitem_0, list_getitem_last.
  destruct (head l) as [first|]; [|discriminate].
  destruct (last l) as [last_|]; [|discriminate].
  intros H. exists first, last_. split; [done|]. split; [done|].
  destruct (py_eqb first last_); simpl in H.
  - left. by inversion H.
  - right. split; [done|]. destruct first; simpl in H; [discriminate|]. by inversion H.
Qed.

Lemma close_ring_closed l l' :
  close_ring l = Ok l' -> ring_closed (Arr l') = true.
Proof.
  intros (first & last_ & Hf & Hl & [[E ->]|[E ->]])%close_ring_Ok; simpl.
  - by rewrite Hf, Hl.
  - rewrite last_snoc. destruct l; [done|]. simpl in *. inversion Hf; subst.
    apply py_eqb_refl.
Qed.

Lemma close_ring_total l :
  l <> [] -> Forall (fun v => is_geopoint v = true) l ->
  exists l', close_ring l = Ok l'.
Proof.
  intros Hne Hgeo. unfold close_ring. rewrite list_getitem_0, list_getitem_last.
  destruct l as [|first l]; [done|]. cbn [head].
  apply Forall_cons in Hgeo as [Hfirst _].
  destruct (last (first :: l)) as [last_|] eqn:El.
  - destruct (negb (py_eqb first last_)); [|eauto].
    destruct first as [|pts]; [done|]. cbn [copy]. eauto.
  - by apply last_None in El.
Qed.

(** *** Positions *)

Lemma is_geopoint_getitem v :
  is_geopoint v = true ->
  exists x y, getitem v 0 = Ok (Num x) /\ getitem v 1 = Ok (Num y).
Proof.
  destruct v as [|[|[x|] [|[y|] rest]]]; try discriminate. intros _.
  by exists x, y.
Qed.

(** *** Densification *)

Lemma midpoint_coordinate_total a b k t :
  is_geopoint a = true -> is_geopoint b = true -> (k = 0 \/ k = 1)%Z ->
  exists x t', midpoint_coordinate a b k t = Ok (x, t').
Proof.
  intros (xa & ya & Ha0 & Ha1)%is_geopoint_getitem
         (xb & yb & Hb0 & Hb1)%is_geopoint_getitem Hk.
  destruct (random_total t) as (u & t' & Eu & _).
  unfold midpoint_coordinate, bind, lift.
  destruct Hk as [-> | ->].
  - rewrite Ha0, Hb0. simpl. rewrite Eu. eauto.
  - rewrite Ha1, Hb1. simpl. rewrite Eu. eauto.
Qed.

Lemma list_insert_at_inner {A} (l : list A) (i : Z) x :
  (0 <= i <= len l)%Z ->
  list_insert_at l i x = take (Z.to_nat i) l ++ x :: drop (Z.to_nat i) l.
Proof.
  intros Hi. unfold list_insert_at. fold (len l).
  destruct (Z.ltb_spec i 0) as [?|_]; [lia|].
  by rewrite Z.min_l by lia.
Qed.

Lemma insert_point_Ok l l' t t' :
  insert_point l t = Ok (l', t') -> inserted l l'.
Proof.
  unfold insert_point. intros H.
  apply bind_Ok in H as (idx & t1 & Eidx & H). apply randint_Ok in Eidx.
  apply bind_Ok in H as (a & t2 & _ & H).
  apply bind_Ok in H as (b & t3 & _ & H).
  apply bind_Ok in H as (x & t4 & _ & H).
  apply bind_Ok in H as (y & t5 & _ & H).
  apply ret_Ok in H as [-> _].
  exists (Z.to_nat (idx + 1)), (Arr [Num x; Num y]). unfold len in Eidx.
  split; [lia|]. split; [done|].
  apply list_insert_at_inner. unfold len. lia.
Qed.

Lemma insert_point_total l t :
  (3 <= length l)%nat -> Forall (fun v => is_geopoint v = true) l ->
  exists l' t', insert_point l t = Ok (l', t').
Proof.
  intros Hlen Hgeo. unfold insert_point.
  destruct (randint_total 1 (len l - 2) t) as (idx & t1 & Eidx & Hidx);
    [unfold len; lia|].
  unfold len in Hidx.
  destruct (lookup_lt_is_Some_2 l (Z.to_nat idx)) as [a Ha]; [lia|].
  destruct (lookup_lt_is_Some_2 l (Z.to_nat (idx + 1))) as [b Hb]; [lia|].
  rewrite Forall_forall in Hgeo.
  destruct (midpoint_coordinate_total a b 0 t1) as (x & t2 & Ex);
    [eauto using list_elem_of_lookup_2 .. | by left |].
  destruct (midpoint_coordinate_total a b 1 t2) as (y & t3 & Ey);
    [eauto using list_elem_of_lookup_2 .. | by right |].
  eexists _, t3.
  apply bind_Ok. exists idx, t1. split; [done|].
  apply bind_Ok. exists a, t1. split.
  { apply lift_Ok. split; [|done]. apply list_getitem_lookup; [lia|done]. }
  apply bind_Ok. exists b, t1. split.
  { apply lift_Ok. split; [|done]. apply list_getitem_lookup; [lia|done]. }
  apply bind_Ok. exists x, t2. split; [done|].
  apply bind_Ok. exists y, t3. split; [done|]. reflexivity.
Qed.

Lemma inserted_length l l' : inserted l l' -> length l' = S (length l).
Proof.
  intros (k & x & Hk & _ & ->).
  rewrite length_app. simpl. rewrite length_take, length_drop. lia.
Qed.

Lemma inserted_head l l' : inserted l l' -> head l' = head l.
Proof.
  intros (k & x & Hk & _ & ->).
  destruct l as [|a l]; [simpl in Hk; lia|].
  destruct k as [|k]; [lia|]. done.
Qed.

Lemma inserted_last l l' : inserted l l' -> last l' = last l.
Proof.
  intros (k & x & Hk & _ & ->).
  rewrite <- (take_drop k l) at 3.
  destruct (drop k l) as [|b d] eqn:Ed.
  - apply (f_equal length) in Ed. rewrite length_drop in Ed. simpl in Ed. lia.
  - rewrite !last_app. simpl. by destruct d.
Qed.

Lemma inserted_sublist l l' : inserted l l' -> l `sublist_of` l'.
Proof.
  intros (k & x & Hk & _ & ->).
  rewrite <- (take_drop k l) at 1.
  apply sublist_app; [done|]. by apply sublist_cons.
Qed.

Lemma inserted_geopoints l l' :
  inserted l l' ->
  Forall (fun v => is_geopoint v = true) l ->
  Forall (fun v => is_geopoint v = true) l'.
Proof.
  intros (k & x & Hk & Hx & ->) Hl.
  rewrite <- (take_drop k l) in Hl. apply Forall_app in Hl as [H1 H2].
  apply Forall_app. split; [done|]. by constructor.
Qed.

Lemma insert_points_Ok n : forall l l' t t',
  insert_points n l t = Ok (l', t') -> inserted_n n l l'.
Proof.
  induction n as [|n IH]; intros l l' t t' H; simpl in H.
  - apply ret_Ok in H as [-> _]. constructor.
  - apply bind_Ok in H as (l1 & t1 & E1 & H).
    econstructor; [by eapply insert_point_Ok | by eapply IH].
Qed.

Lemma insert_points_total n : forall l t,
  (3 <= length l)%nat -> Forall (fun v => is_geopoint v = true) l ->
  exists l' t', insert_points n l t = Ok (l', t').
Proof.
  induction n as [|n IH]; intros l t Hlen Hgeo; simpl.
  - by exists l, t.
  - destruct (insert_point_total l t Hlen Hgeo) as (l1 & t1 & E1).
    pose proof (insert_point_Ok _ _ _ _ E1) as Hins.
    destruct (IH l1 t1) as (l' & t' & E').
    { rewrite (inserted_length _ _ Hins). lia. }
    { by eapply inserted_geopoints. }
    exists l', t'. apply bind_Ok. exists l1, t1. by split.
Qed.

Lemma inserted_n_facts n l l' :
  inserted_n n l l' ->
  length l' = (length l + n)%nat /\ head l' = head l /\ last l' = last l
  /\ l `sublist_of` l'
  /\ (Forall (fun v => is_geopoint v = true) l ->
      Forall (fun v => is_geopoint v = true) l').
Proof.
  induction 1 as [l|n l l1 l' Hins _ (IH1 & IH2 & IH3 & IH4 & IH5)].
  - repeat split; [lia | done | done].
  - repeat split.
    + rewrite IH1, (inserted_length _ _ Hins). lia.
    + by rewrite IH2, (inserted_head _ _ Hins).
    + by rewrite IH3, (inserted_last _ _ Hins).
    + etrans; [by apply inserted_sublist | done].
    + intros Hl. apply IH5. by eapply inserted_geopoints.
Qed.

Lemma densify_Ok ring l l' t t' :
  densify ring l t = Ok (l', t') ->
  exists n, (n <= 2)%nat /\ inserted_n n l l'.
Proof.
  unfold densify. destruct (len ring <? 20)%Z.
  - intros H. apply bind_Ok in H as (rounds & t1 & E & H).
    apply randint_Ok in E. exists (Z.to_nat rounds). split; [lia|].
    by eapply insert_points_Ok.
  - intros [-> _]%ret_Ok. exists 0%nat. split; [lia | constructor].
Qed.

Lemma densify_total ring l t :
  (3 <= length l)%nat -> Forall (fun v => is_geopoint v = true) l ->
  exists l' t', densify ring l t = Ok (l', t').
Proof.
  intros Hlen Hgeo. unfold densify. destruct (len ring <? 20)%Z.
  - destruct (randint_total 0 2 t) as (rounds & t1 & E & _); [lia|].
    destruct (insert_points_total (Z.to_nat rounds) l t1 Hlen Hgeo) as (l' & t' & E').
    exists l', t'. apply bind_Ok. exists rounds, t1. by split.
  - by exists l, t.
Qed.

(** *** Perturbation *)

Lemma perturb_coordinate_Ok point k adjustment t x' t' :
  perturb_coordinate point k adjustment t = Ok (x', t') ->
  exists x u, getitem point k = Ok (Num x) /\ 0 <= u < 1
    /\ x' = x + (u - (1 # 2)) * adjustment.
Proof.
  unfold perturb_coordinate. intros H.
  apply bind_Ok in H as (c & t1 & [Ec ->]%lift_Ok & H).
  apply bind_Ok in H as (u & t2 & Eu%random_Ok & H).
  apply bind_Ok in H as (x & t3 & [Ex ->]%lift_Ok & H).
  apply ret_Ok in H as [-> _].
  destruct c as [x0|]; [|discriminate]. injection Ex as ->.
  by exists x, u.
Qed.

Lemma perturb_coordinate_total point k adjustment t x :
  getitem point k = Ok (Num x) ->
  exists x' t', perturb_coordinate point k adjustment t = Ok (x', t').
Proof.
  intros E. destruct (random_total t) as (u & t' & Eu & _).
  unfold perturb_coordinate, bind, lift. rewrite E, Eu. simpl. eauto.
Qed.

Lemma displacement_bound x u c :
  0 <= u < 1 -> 0 <= c < 1 ->
  Qabs (x + (u - (1 # 2)) * ((1 - c) * (1 # 10000)) - x) <= 1 # 10000.
Proof.
  intros Hu Hc. apply Qabs_Qle_condition. split; nra.
Qed.

Lemma perturb_loop_Ok ring : forall n i acc t res t',
  perturb_loop n i ring acc t = Ok (res, t') ->
  exists p, res = acc ++ p /\ length p = length ring
    /\ forall (k : nat) point, ring !! k = Some point ->
         exists point', p !! k = Some point'
           /\ (if ((i + Z.of_nat k =? 0) || (i + Z.of_nat k =? n - 1))%Z
               then point' = point
               else displaced (1 # 10000) point point').
Proof.
  induction ring as [|point ring IH]; intros n i acc t res t' H; cbn [perturb_loop] in H.
  - apply ret_Ok in H as [-> _]. exists []. rewrite app_nil_r.
    split; [done|]. split; [done|]. intros k pt Hk. by rewrite lookup_nil in Hk.
  - assert (Hstep : exists point',
        (exists t1, perturb_loop n (i + 1) ring (acc ++ [point']) t1 = Ok (res, t'))
        /\ (if ((i =? 0) || (i =? n - 1))%Z then point' = point
            else displaced (1 # 10000) point point')).
    { destruct ((i =? 0) || (i =? n - 1))%Z.
      - exists point. split; [by exists t | done].
      - apply bind_Ok in H as (c & t1 & Ec%random_Ok & H).
        apply bind_Ok in H as (x' & t2 & (x & u & Ex & Hu & ->)%perturb_coordinate_Ok & H).
        apply bind_Ok in H as (y' & t3 & (y & v & Ey & Hv & ->)%perturb_coordinate_Ok & H).
        eexists. split; [by exists t3|].
        exists x, y. eexists _, _. repeat split; [done | done | ..];
          by apply displacement_bound. }
    destruct Hstep as (point' & [t1 Hrest] & Hpoint').
    apply IH in Hrest as (p & -> & Hlen & Hp).
    exists (point' :: p). split; [by rewrite <- app_assoc|].
    split; [simpl; by rewrite Hlen|].
    intros [|k] pt Hk; simpl in Hk.
    + injection Hk as <-. exists point'. split; [done|].
      by rewrite Z.add_0_r.
    + destruct (Hp k pt Hk) as (pt' & Hk' & Hpt'). exists pt'. split; [done|].
      by replace (i + Z.of_nat (S k))%Z with (i + 1 + Z.of_nat k)%Z by lia.
Qed.

Lemma perturb_loop_perturbed points res t t' :
  perturb_loop (len points) 0 points [] t = Ok (res, t') -> perturbed points res.
Proof.
  intros (p & -> & Hlen & Hp)%perturb_loop_Ok. by split.
Qed.

Lemma perturb_loop_total ring : forall n i acc t,
  Forall (fun v => is_geopoint v = true) ring ->
  exists res t', perturb_loop n i ring acc t = Ok (res, t').
Proof.
  induction ring as [|point ring IH]; intros n i acc t Hgeo; cbn [perturb_loop].
  - by exists acc, t.
  - apply Forall_cons in Hgeo as [Hpoint Hgeo].
    destruct ((i =? 0) || (i =? n - 1))%Z; [by apply IH|].
    destruct (random_total t) as (c & t1 & Ec & _).
    destruct (is_geopoint_getitem _ Hpoint) as (x & y & Ex & Ey).
    destruct (perturb_coordinate_total point 0 ((1 - c) * (1 # 10000)) t1 x Ex)
      as (x' & t2 & Ex').
    destruct (perturb_coordinate_total point 1 ((1 - c) * (1 # 10000)) t2 y Ey)
      as (y' & t3 & Ey').
    destruct (IH n (i + 1)%Z (acc ++ [Arr [Num x'; Num y']]) t3 Hgeo) as (res & t' & E).
    exists res, t'.
    apply bind_Ok. exists c, t1. split; [done|].
    apply bind_Ok. exists x', t2. split; [done|].
    apply bind_Ok. exists y', t3. by split.
Qed.

Lemma displaced_geopoint bound point point' :
  displaced bound point point' -> is_geopoint point' = true.
Proof. by intros (x & y & x' & y' & _ & _ & -> & _). Qed.

Lemma perturbed_geopoints points p :
  perturbed points p ->
  Forall (fun v => is_geopoint v = true) points ->
  Forall (fun v => is_geopoint v = true) p.
Proof.
  intros [Hlen Hp] Hgeo. rewrite Forall_lookup in Hgeo |- *.
  intros k pt' Hk.
  destruct (lookup_lt_is_Some_2 points k) as [pt Hpt].
  { rewrite <- Hlen. by eapply lookup_lt_Some. }
  destruct (Hp k pt Hpt) as (pt'' & Hk' & Hcase).
  rewrite Hk in Hk'. injection Hk' as <-.
  destruct ((Z.of_nat k =? 0) || (Z.of_nat k =? len points - 1))%Z.
  - subst. by eapply Hgeo.
  - by eapply displaced_geopoint.
Qed.

Lemma perturbed_head points p : perturbed points p -> head p = head points.
Proof.
  intros [Hlen Hp]. destruct points as [|a points].
  - by destruct p.
  - destruct (Hp 0%nat a eq_refl) as (a' & Ha' & Hcase). simpl in Hcase. subst.
    destruct p; [done|]. simpl in Ha'. by injection Ha' as ->.
Qed.

Lemma perturbed_last points p : perturbed points p -> last p = last points.
Proof.
  intros [Hlen Hp]. rewrite !last_lookup, Hlen.
  destruct (points !! pred (length points)) as [b|] eqn:Eb.
  - destruct (Hp _ b Eb) as (b' & Hb' & Hcase).
    apply lookup_lt_Some in Eb.
    replace (Z.of_nat (pred (length points)) =? len points - 1)%Z with true in Hcase
      by (symmetry; apply Z.eqb_eq; unfold len; lia).
    rewrite orb_true_r in Hcase. by subst.
  - apply lookup_ge_None in Eb. apply lookup_ge_None. lia.
Qed.

(** *** Rings and polygons *)

Lemma refine_ring_Ok ring ring' t t' :
  refine_ring ring t = Ok (ring', t') ->
  exists points p n d points',
    ring = Arr points /\ ring' = Arr points'
    /\ perturbed points p /\ (n <= 2)%nat /\ inserted_n n p d
    /\ close_ring d = Ok points'.
Proof.
  unfold refine_ring. intros H.
  apply bind_Ok in H as (points & t1 & [E ->]%lift_Ok & H).
  apply bind_Ok in H as (p & t2 & Ep%perturb_loop_perturbed & H).
  apply bind_Ok in H as (d & t3 & (n & Hn & Hd)%densify_Ok & H).
  apply bind_Ok in H as (points' & t4 & [Ec ->]%lift_Ok & H).
  apply ret_Ok in H as [-> _].
  destruct ring as [|l]; [discriminate|]. injection E as ->.
  by exists points, p, n, d, points'.
Qed.

Lemma is_ring_Arr n ring :
  is_ring n ring = true ->
  exists points, ring = Arr points /\ (n <= len points)%Z
    /\ Forall (fun v => is_geopoint v = true) points.
Proof.
  destruct ring as [|points]; [discriminate|]. simpl.
  intros [H1 H2]%andb_true_iff. exists points. split; [done|].
  split; [lia|]. rewrite forallb_forall in H2. rewrite Forall_forall.
  intros v Hv. apply H2. by apply list_elem_of_In.
Qed.

Lemma refine_ring_total ring t :
  is_ring 3 ring = true -> exists ring' t', refine_ring ring t = Ok (ring', t').
Proof.
  intros (points & -> & Hlen & Hgeo)%is_ring_Arr. unfold len in Hlen.
  destruct (perturb_loop_total points (len points) 0 [] t Hgeo) as (p & t1 & Ep).
  pose proof (perturb_loop_perturbed _ _ _ _ Ep) as Hp.
  pose proof (perturbed_geopoints _ _ Hp Hgeo) as Hgeo1.
  destruct (densify_total points p t1) as (d & t2 & Ed); [destruct Hp; lia | done |].
  destruct (densify_Ok _ _ _ _ _ Ed) as (n & _ & (Hdlen & _ & _ & _ & Hgeo2)%inserted_n_facts).
  destruct (close_ring_total d) as (points' & Ec).
  { intros ->. destruct Hp as [Hp _]. simpl in Hdlen. lia. }
  { by apply Hgeo2. }
  exists (Arr points'), t2. unfold refine_ring.
  apply bind_Ok. exists points, t. split; [done|].
  apply bind_Ok. exists p, t1. split; [done|].
  apply bind_Ok. exists d, t2. split; [done|].
  apply bind_Ok. exists points', t2. split; [by apply lift_Ok | done].
Qed.

Lemma refine_rings_Ok rings : forall acc t res t',
  refine_rings rings acc t = Ok (res, t') ->
  exists out, res = acc ++ out /\ Forall2 refines rings out.
Proof.
  induction rings as [|ring rings IH]; intros acc t res t' H; simpl in H.
  - apply ret_Ok in H as [-> _]. exists []. by rewrite app_nil_r.
  - apply bind_Ok in H as (ring' & t1 & E & H).
    apply IH in H as (out & -> & Hout).
    exists (ring' :: out). split; [by rewrite <- app_assoc|].
    constructor; [by exists t, t1 | done].
Qed.

Lemma refine_rings_total rings : forall acc t,
  Forall (fun r => is_ring 3 r = true) rings ->
  exists res t', refine_rings rings acc t = Ok (res, t').
Proof.
  induction rings as [|ring rings IH]; intros acc t Hrings; simpl.
  - by exists acc, t.
  - apply Forall_cons in Hrings as [Hring Hrings].
    destruct (refine_ring_total ring t Hring) as (ring' & t1 & E).
    destruct (IH (acc ++ [ring']) t1 Hrings) as (res & t' & E').
    exists res, t'. apply bind_Ok. exists ring', t1. by split.
Qed.

Lemma refine_polygon_Ok geometry t geometry' t' :
  type geometry = "Polygon"%string ->
  refine_polygon geometry t = Ok (geometry', t') ->
  type geometry' = "Polygon"%string
  /\ exists rings rings',
      coordinates geometry = Arr rings /\ coordinates geometry' = Arr rings'
      /\ Forall2 refines rings rings'.
Proof.
  intros Ht. unfold refine_polygon. rewrite Ht. simpl. intros H.
  apply bind_Ok in H as (rings & t1 & [E ->]%lift_Ok & H).
  apply bind_Ok in H as (res & t2 & (out & -> & Hout)%refine_rings_Ok & H).
  apply ret_Ok in H as [-> _]. simpl. split; [done|].
  destruct (coordinates geometry) as [|l]; [discriminate|]. injection E as ->.
  by exists rings, out.
Qed.

Lemma is_polygon_inv n geometry :
  is_polygon n geometry = true ->
  type geometry = "Polygon"%string
  /\ exists rings, coordinates geometry = Arr rings
      /\ Forall (fun r => is_ring n r = true) rings.
Proof.
  unfold is_polygon. intros [Ht H]%andb_true_iff.
  apply String.eqb_eq in Ht. split; [done|].
  destruct (coordinates geometry) as [|rings]; [discriminate|].
  exists rings. split; [done|]. rewrite forallb_forall in H.
  rewrite Forall_forall. intros r Hr. apply H. by apply list_elem_of_In.
Qed.

Lemma is_ring_mono n m ring : (m <= n)%Z -> is_ring n ring = true -> is_ring m ring = true.
Proof.
  intros Hmn. destruct ring as [|points]; [done|]. simpl.
  intros [H1 H2]%andb_true_iff. apply andb_true_iff. split; [lia | done].
Qed.

Lemma refine_polygon_returns geometry t :
  is_polygon 3 geometry = true ->
  exists geometry' t', refine_polygon geometry t = Ok (geometry', t').
Proof.
  intros (Ht & rings & Ec & Hrings)%is_polygon_inv.
  unfold refine_polygon. rewrite Ht, Ec. simpl.
  destruct (refine_rings_total rings [] t Hrings) as (res & t' & E).
  eexists _, t'. apply bind_Ok. exists rings, t. split; [done|].
  apply bind_Ok. exists res, t'. by split.
Qed.

(** *** The refiner *)

Lemma refines_shape ring ring' :
  refines ring ring' ->
  exists points points' p,
    ring = Arr points /\ ring' = Arr points'
    /\ perturbed points p /\ p `sublist_of` points'
    /\ (length points <= length points' <= length points + 3)%nat
    /\ head points' = head points
    /\ last points' = (if ring_closed ring then last points else head points)
    /\ (ring_closed ring = true -> (length points' <= length points + 2)%nat)
    /\ ring_closed ring' = true.
Proof.
  intros (t & t' & H).
  apply refine_ring_Ok in H as (points & p & n & d & points' & -> & -> & Hp & Hn & Hd & Hc).
  apply inserted_n_facts in Hd as (Hdlen & Hdhead & Hdlast & Hdsub & _).
  pose proof (perturbed_head _ _ Hp) as Hphead.
  pose proof (perturbed_last _ _ Hp) as Hplast.
  pose proof (close_ring_closed _ _ Hc) as Hclosed.
  destruct Hp as [Hplen Hp'].
  exists points, points', p. split; [done|]. split; [done|].
  split; [by split|].
  apply close_ring_Ok in Hc as (first & last_ & Hf & Hl & [[E ->]|[E ->]]).
  - assert (Hring : ring_closed (Arr points) = true).
    { simpl. by rewrite <- Hphead, <- Hdhead, <- Hplast, <- Hdlast, Hf, Hl. }
    split; [done|]. split; [lia|]. split; [congruence|].
    split; [rewrite Hring; congruence|]. split; [intros _; lia | done].
  - assert (Hring : ring_closed (Arr points) = false).
    { simpl. by rewrite <- Hphead, <- Hdhead, <- Hplast, <- Hdlast, Hf, Hl. }
    split; [etrans; [done|]; by apply sublist_inserts_r|].
    split; [rewrite length_app; simpl; lia|].
    split; [destruct d; [done|]; simpl in *; congruence|].
    split; [rewrite Hring, last_snoc; congruence|].
    split; [by rewrite Hring | done].
Qed.

Lemma refines_closed rings rings' :
  Forall2 refines rings rings' ->
  Forall (fun ring' => ring_closed ring' = true) rings'.
Proof.
  induction 1 as [|r r' rings rings' Hr _ IH]; constructor; [|done].
  by apply refines_shape in Hr as (? & ? & ? & _ & _ & _ & _ & _ & _ & _ & _ & ?).
Qed.

(** C3. For a Polygon input the refiner returns whenever every ring is a
    list of at least three positions, and in whatever it returns every ring
    is closed: its first and last points are equal. Each output ring starts
    with the first point of its input ring and ends with the last point of
    its input ring when that ring was closed, with a copy of its first point
    otherwise. *)
Theorem refine_polygon_closed geometry t :
  type geometry = "Polygon"%string ->
  (is_polygon 3 geometry = true ->
   exists geometry' t', refine_polygon geometry t = Ok (geometry', t'))
  /\ (forall geometry' t',
        refine_polygon geometry t = Ok (geometry', t') ->
        Forall (fun ring' => ring_closed ring' = true) (rings_of geometry')
        /\ Forall2 (fun ring ring' =>
              exists points points',
                ring = Arr points /\ ring' = Arr points'
                /\ head points' = head points
                /\ last points' =
                     (if ring_closed ring then last points else head points))
             (rings_of geometry) (rings_of geometry')).
Proof.
  intros Ht. split; [apply refine_polygon_returns|].
  intros geometry' t' H.
  apply refine_polygon_Ok in H as (_ & rings & rings' & E & E' & Hrings); [|done].
  unfold rings_of. rewrite E, E'. split.
  - by eapply refines_closed.
  - eapply Forall2_impl; [done|]. intros r r' Hr. simpl.
    apply refines_shape in Hr as (pts & pts' & p & -> & -> & _ & _ & _ & Hh & Hl & _).
    by exists pts, pts'.
Qed.

Lemma refine_polygon_closed_witness :
  type parcel = "Polygon"%string
  /\ is_polygon 3 parcel = true
  /\ (exists geometry' t', refine_polygon parcel parcel_tape = Ok (geometry', t'))
  /\ (forall geometry' t',
        refine_polygon parcel parcel_tape = Ok (geometry', t') ->
        Forall (fun ring' => ring_closed ring' = true) (rings_of geometry')).
Proof.
  split; [reflexivity|]. split; [reflexivity|].
  destruct (refine_polygon_closed parcel parcel_tape eq_refl) as [H1 H2].
  split; [apply H1; reflexivity|].
  intros geometry' t' H. apply (H2 geometry' t' H).
Defined.

(** C7. For an input whose type is not Polygon the refiner returns the
    input as it is, type and coordinates, and draws nothing from the random
    source. *)
Theorem refine_polygon_passthrough geometry t :
  type geometry <> "Polygon"%string ->
  refine_polygon geometry t = Ok (geometry, t).
Proof.
  intros Ht. unfold refine_polygon.
  destruct (String.eqb_spec (type geometry) "Polygon") as [?|_]; [done|].
  by destruct geometry.
Qed.

Lemma refine_polygon_passthrough_witness :
  type point_geometry <> "Polygon"%string
  /\ refine_polygon point_geometry parcel_tape = Ok (point_geometry, parcel_tape).
Proof.
  split; [discriminate|].
  apply (refine_polygon_passthrough point_geometry parcel_tape). discriminate.
Defined.

(** C2 fails as stated: on [parcel] with the draws of [parcel_tape] the
    second point of the hole comes back 0.00005 degrees further west and
    south. *)
Lemma refine_polygon_moves_holes :
  ~ (forall geometry t geometry' t',
       type geometry = "Polygon"%string ->
       (1 < length (rings_of geometry))%nat ->
       refine_polygon geometry t = Ok (geometry', t') ->
       forall (j : nat) hole hole',
         (1 <= j)%nat ->
         rings_of geometry !! j = Some hole ->
         rings_of geometry' !! j = Some hole' ->
         py_eqb hole' hole = true).
Proof.
  intros H.
  assert (E : refine_polygon parcel parcel_tape = Ok (parcel_refined, []))
    by (vm_compute; reflexivity).
  specialize (H parcel parcel_tape parcel_refined [] eq_refl).
  specialize (H ltac:(simpl; lia) E 1%nat parcel_hole).
  destruct (rings_of parcel_refined !! 1%nat) as [hole'|] eqn:Eh;
    [|by vm_compute in Eh].
  specialize (H hole' ltac:(lia) eq_refl eq_refl).
  vm_compute in Eh. injection Eh as <-. by vm_compute in H.
Qed.

(** C2, amended. The refiner treats every ring of a Polygon alike, the
    holes as it treats the exterior: the output has as many rings as the
    input, and each output ring is its input ring with interior positions
    displaced by at most 0.0001 per axis and up to two positions put in; it
    keeps the first point of the input ring, and the last when the input
    ring was closed. *)
Theorem refine_polygon_rings_alike geometry t geometry' t' :
  type geometry = "Polygon"%string ->
  refine_polygon geometry t = Ok (geometry', t') ->
  length (rings_of geometry') = length (rings_of geometry)
  /\ forall (j : nat) ring ring',
       rings_of geometry !! j = Some ring ->
       rings_of geometry' !! j = Some ring' ->
       refined ring ring'.
Proof.
  intros Ht H.
  apply refine_polygon_Ok in H as (_ & rings & rings' & E & E' & Hrings); [|done].
  unfold rings_of. rewrite E, E'. split.
  - symmetry. by eapply Forall2_length.
  - intros j ring ring' Hj Hj'.
    pose proof (Forall2_lookup_lr _ _ _ _ _ _ Hrings Hj Hj') as Hr.
    apply refines_shape in Hr
      as (pts & pts' & p & -> & -> & Hp & Hsub & Hlen & Hh & Hl & Hlen' & _).
    exists pts, pts', p. do 4 (split; [done|]). split; [lia|]. split; [done|].
    intros Hc. split; [by rewrite Hc in Hl | by apply Hlen'].
Qed.

Lemma refine_polygon_rings_alike_witness :
  type parcel = "Polygon"%string
  /\ refine_polygon parcel parcel_tape = Ok (parcel_refined, [])
  /\ length (rings_of parcel_refined) = length (rings_of parcel)
  /\ forall (j : nat) ring ring',
       rings_of parcel !! j = Some ring ->
       rings_of parcel_refined !! j = Some ring' ->
       refined ring ring'.
Proof.
  split; [reflexivity|]. split; [vm_compute; reflexivity|].
  apply (refine_polygon_rings_alike parcel parcel_tape parcel_refined []);
    [reflexivity | vm_compute; reflexivity].
Defined.

(** C4. In whatever the refiner returns for a Polygon, ring by ring, every
    interior position of the input ring (not the first, not the closing one)
    has its counterpart in the output ring, displaced by at most 0.0001
    degrees in longitude and in latitude, whatever the draws were. *)
Theorem refine_polygon_displacement geometry t geometry' t' :
  type geometry = "Polygon"%string ->
  refine_polygon geometry t = Ok (geometry', t') ->
  Forall2 (interior_within (1 # 10000)) (rings_of geometry) (rings_of geometry').
Proof.
  intros Ht H.
  apply refine_polygon_Ok in H as (_ & rings & rings' & E & E' & Hrings); [|done].
  unfold rings_of. rewrite E, E'.
  eapply Forall2_impl; [done|]. intros ring ring' Hr. simpl.
  apply refines_shape in Hr
    as (pts & pts' & p & -> & -> & [Hplen Hp] & Hsub & _).
  exists pts, pts', p. repeat split; try done.
  intros i point Hi Hpoint.
  destruct (Hp i point Hpoint) as (point' & Hpoint' & Hcase).
  exists point'. split; [done|].
  destruct (Z.eqb_spec (Z.of_nat i) 0) as [?|_]; [lia|].
  destruct (Z.eqb_spec (Z.of_nat i) (len pts - 1)) as [?|_]; [unfold len in *; lia|].
  done.
Qed.

Lemma refine_polygon_displacement_witness :
  type parcel = "Polygon"%string
  /\ refine_polygon parcel parcel_tape = Ok (parcel_refined, [])
  /\ Forall2 (interior_within (1 # 10000)) (rings_of parcel) (rings_of parcel_refined).
Proof.
  split; [reflexivity|]. split; [vm_compute; reflexivity|].
  apply (refine_polygon_displacement parcel parcel_tape parcel_refined []);
    [reflexivity | vm_compute; reflexivity].
Defined.

(** C10. On a Polygon whose every ring is a list of at least four
    positions the refiner raises nothing: it returns a geometry. In the
    densification step, for a ring of at least four points, the range of
    [randint(1, len - 2)] is not empty and the points at [insert_idx] and
    [insert_idx + 1] are there. *)
Theorem refine_polygon_total geometry t :
  is_polygon 4 geometry = true ->
  (exists geometry' t', refine_polygon geometry t = Ok (geometry', t'))
  /\ (forall (improved_ring : list coords_t) t1,
        (4 <= len improved_ring)%Z ->
        exists insert_idx t2 a b,
          randint 1 (len improved_ring - 2) t1 = Ok (insert_idx, t2)
          /\ (1 <= insert_idx /\ insert_idx + 1 < len improved_ring)%Z
          /\ list_getitem improved_ring insert_idx = Ok a
          /\ list_getitem improved_ring (insert_idx + 1) = Ok b).
Proof.
  intros Hg. split.
  - apply refine_polygon_returns.
    apply is_polygon_inv in Hg as (Ht & rings & Ec & Hrings).
    unfold is_polygon. rewrite Ht, Ec. simpl.
    rewrite forallb_forall. intros r Hr. apply (is_ring_mono 4); [lia|].
    rewrite Forall_forall in Hrings. apply Hrings. by apply list_elem_of_In.
  - intros l t1 Hlen.
    destruct (randint_total 1 (len l - 2) t1) as (idx & t2 & E & Hidx); [lia|].
    unfold len in *.
    destruct (lookup_lt_is_Some_2 l (Z.to_nat idx)) as [a Ha]; [lia|].
    destruct (lookup_lt_is_Some_2 l (Z.to_nat (idx + 1))) as [b Hb]; [lia|].
    exists idx, t2, a, b. split; [done|]. split; [lia|].
    split; apply list_getitem_lookup; (lia || done).
Qed.

Lemma refine_polygon_total_witness :
  is_polygon 4 parcel = true
  /\ exists geometry' t', refine_polygon parcel parcel_tape = Ok (geometry', t').
Proof.
  split; [reflexivity|].
  apply (refine_polygon_total parcel parcel_tape). reflexivity.
Defined.

End BoundaryFacts.

Module SynthesizerFacts.
Import BoundaryDetection BoundaryFacts.

Section Synthesizer.

Variables sin cos : Q -> Q.

Lemma fdiv_Ok x y q : fdiv x y = Ok q -> ~ y == 0 /\ q = x / y.
Proof.
  unfold fdiv. destruct (Qeq_bool y 0) eqn:E; [discriminate|].
  intros [= <-]. split; [|done]. intros Hy. apply Qeq_bool_iff in Hy. congruence.
Qed.

Lemma fdiv_total x y : ~ y == 0 -> fdiv x y = Ok (x / y).
Proof.
  intros Hy. unfold fdiv. destruct (Qeq_bool y 0) eqn:E; [|done].
  apply Qeq_bool_iff in E. done.
Qed.

Lemma vertex_loop_Ok clat clon rlat rlon n todo : forall i acc t res t',
  vertex_loop sin cos clat clon rlat rlon n todo i acc t = Ok (res, t') ->
  exists new, res = acc ++ new /\ length new = todo.
Proof.
  induction todo as [|todo IH]; intros i acc t res t' H; cbn [vertex_loop] in H.
  - apply ret_Ok in H as [-> _]. exists []. by rewrite app_nil_r.
  - apply bind_Ok in H as (q & t1 & _ & H).
    apply bind_Ok in H as (u1 & t2 & _ & H).
    apply bind_Ok in H as (u2 & t3 & _ & H).
    apply bind_Ok in H as (u3 & t4 & _ & H).
    apply IH in H as (new & -> & Hlen).
    eexists (_ :: new). split; [by rewrite <- app_assoc|]. simpl. by rewrite Hlen.
Qed.

Lemma vertex_loop_total clat clon rlat rlon n todo : forall i acc t,
  n <> 0%Z ->
  exists res t', vertex_loop sin cos clat clon rlat rlon n todo i acc t = Ok (res, t').
Proof.
  induction todo as [|todo IH]; intros i acc t Hn; cbn [vertex_loop].
  - by exists acc, t.
  - assert (Hq : ~ inject_Z n == 0).
    { intros Hq. apply Hn. unfold Qeq in Hq. simpl in Hq. lia. }
    destruct (random_total t) as (u1 & t1 & E1 & _).
    destruct (random_total t1) as (u2 & t2 & E2 & _).
    destruct (random_total t2) as (u3 & t3 & E3 & _).
    edestruct (IH (i + 1)%Z) as (res & t' & E); [done|].
    exists res, t'.
    apply bind_Ok. eexists _, t. split.
    { apply lift_Ok. split; [by apply fdiv_total | done]. }
    apply bind_Ok. exists u1, t1. split; [done|].
    apply bind_Ok. exists u2, t2. split; [done|].
    apply bind_Ok. exists u3, t3. split; [done|]. exact E.
Qed.

(** C5. Whatever the synthesizer returns is a Polygon with one ring of
    [num_points + 1] positions, where [num_points] is between 6 and 10, so
    between 7 and 11; the last position of the ring is its first; the
    confidence lies in [0.75, 0.95). It returns whenever the cosine of the
    centre latitude is not zero. *)
Theorem detect_boundaries_from_coords_spec lat lon radius_m t :
  (~ cos (lat * pi / 180) == 0 ->
   exists geometry confidence t',
     detect_boundaries_from_coords sin cos lat lon radius_m t
     = Ok (geometry, confidence, t'))
  /\ (forall geometry confidence t',
        detect_boundaries_from_coords sin cos lat lon radius_m t
        = Ok (geometry, confidence, t') ->
        exists points num_points first,
          geometry = Geometry "Polygon" (Arr [Arr points])
          /\ (6 <= num_points <= 10)%Z
          /\ len points = (num_points + 1)%Z
          /\ (7 <= len points <= 11)%Z
          /\ head points = Some first /\ last points = Some first
          /\ ring_closed (Arr points) = true
          /\ (75 # 100) <= confidence < (95 # 100)).
Proof.
  unfold detect_boundaries_from_coords, generate_realistic_polygon. split.
  - intros Hcos.
    destruct (randint_total 6 10 t) as (n & t1 & En & Hn); [lia|].
    destruct (vertex_loop_total lat lon (inject_Z radius_m / 110540)
                (inject_Z radius_m / (111320 * cos (lat * pi / 180)))
                n (Z.to_nat n) 0 [] t1) as (coords & t2 & Ec); [lia|].
    pose proof (vertex_loop_Ok _ _ _ _ _ _ _ _ _ _ _ Ec) as (new & Hnew & Hlen).
    simpl in Hnew. subst new.
    destruct coords as [|first coords]; [simpl in Hlen; lia|].
    assert (Hfirst : exists c, copy first = Ok c).
    { cbn [vertex_loop] in Ec. destruct (Z.to_nat n) as [|todo] eqn:En'; [lia|].
      cbn [vertex_loop] in Ec.
      apply bind_Ok in Ec as (q & t3 & _ & Ec).
      apply bind_Ok in Ec as (u1 & t4 & _ & Ec).
      apply bind_Ok in Ec as (u2 & t5 & _ & Ec).
      apply bind_Ok in Ec as (u3 & t6 & _ & Ec).
      apply vertex_loop_Ok in Ec as (new & Hnew & _). simpl in Hnew.
      injection Hnew as -> _. simpl. eauto. }
    destruct Hfirst as (c & Hc).
    destruct (random_total t2) as (u & t3 & Eu & _).
    eexists _, _, t3.
    apply bind_Ok. eexists _, t2. split.
    2:{ apply bind_Ok. exists u, t3. split; [done | reflexivity]. }
    apply bind_Ok. eexists _, t. split.
    { apply lift_Ok. split; [by apply fdiv_total | done]. }
    apply bind_Ok. eexists _, t. split.
    { apply lift_Ok. split; [|done]. apply fdiv_total.
      intros H. apply Hcos. nra. }
    apply bind_Ok. exists n, t1. split; [done|].
    apply bind_Ok. exists (first :: coords), t2. split; [done|].
    apply bind_Ok. exists first, t2. split; [by apply lift_Ok|].
    apply bind_Ok. exists c, t2. split; [by apply lift_Ok|].
    reflexivity.
  - intros geometry confidence t' H.
    apply bind_Ok in H as (polygon & t1 & Hp & H).
    apply bind_Ok in H as (u & t2 & Hu%random_Ok & H).
    apply ret_Ok in H as [[= -> ->] _].
    apply bind_Ok in Hp as (rlat & t3 & _ & Hp).
    apply bind_Ok in Hp as (rlon & t4 & _ & Hp).
    apply bind_Ok in Hp as (n & t5 & Hn%randint_Ok & Hp).
    apply bind_Ok in Hp as (coords & t6 & (new & Hnew & Hlen)%vertex_loop_Ok & Hp).
    apply bind_Ok in Hp as (first & t7 & [Hfirst _]%lift_Ok & Hp).
    apply bind_Ok in Hp as (c & t8 & [Hc _]%lift_Ok & Hp).
    apply ret_Ok in Hp as [-> _]. simpl in Hnew. subst new.
    rewrite list_getitem_0 in Hfirst.
    destruct coords as [|first' coords]; [discriminate|].
    simpl in Hfirst. injection Hfirst as ->.
    destruct first as [|l]; [discriminate|]. simpl in Hc. injection Hc as <-.
    exists ((Arr l :: coords) ++ [Arr l]), n, (Arr l).
    split; [done|]. split; [done|].
    assert (Hl : len ((Arr l :: coords) ++ [Arr l]) = (n + 1)%Z).
    { unfold len. rewrite length_app. simpl in *. lia. }
    split; [done|]. split; [lia|]. split; [done|].
    split; [by rewrite last_snoc|]. split.
    + cbn [ring_closed]. rewrite last_snoc. simpl. apply (py_eqb_refl (Arr l)).
    + lra.
Qed.

End Synthesizer.

Lemma detect_boundaries_from_coords_witness :
  let cos := fun _ : Q => 1 in
  let sin := fun _ : Q => 0 in
  ~ cos (8 * pi / 180) == 0
  /\ exists geometry confidence t',
       detect_boundaries_from_coords sin cos 8 (-13) 500 parcel_tape
       = Ok (geometry, confidence, t').
Proof.
  intros cos sin. split; [by vm_compute|].
  apply (detect_boundaries_from_coords_spec sin cos 8 (-13) 500 parcel_tape).
  by vm_compute.
Defined.

End SynthesizerFacts.

Module BoundaryHeapFacts.
Import BoundaryHeap.

(** *** Rules for [keeps] *)

Section Keeps.

Variable h0 : heap.

Lemma keeps_ret {A} (a : A) (post : A -> Prop) : post a -> keeps h0 (ret a) post.
Proof. intros Ha s b s' Hs [-> ->]%ret_Ok. done. Qed.

Lemma keeps_bind {A B} (m : HM A) (k : A -> HM B) mid post :
  keeps h0 m mid -> (forall a, mid a -> keeps h0 (k a) post) ->
  keeps h0 (bind m k) post.
Proof.
  intros Hm Hk s b s' Hs H.
  apply bind_Ok in H as (a & s1 & E & H).
  destruct (Hm s a s1 Hs E) as [Hs1 Ha]. by eapply Hk.
Qed.

Lemma keeps_weaken {A} (m : HM A) (post post' : A -> Prop) :
  keeps h0 m post -> (forall a, post a -> post' a) -> keeps h0 m post'.
Proof. intros Hm Himp s a s' Hs E. destruct (Hm s a s' Hs E). eauto. Qed.

Lemma keeps_raise {A} e (post : A -> Prop) : keeps h0 (raise e) post.
Proof. intros s a s' _ H. discriminate. Qed.

Lemma keeps_lift {A} (r : result A) : keeps h0 (lift r) any.
Proof. intros s a s' Hs [_ ->]%lift_Ok. done. Qed.

Lemma keeps_rnd {A} (m : M A) : keeps h0 (rnd m) any.
Proof.
  intros s a s' Hs H. unfold rnd in H.
  destruct (m s.2) as [[a' t']|]; [|discriminate]. by injection H as _ <-.
Qed.

Lemma keeps_load v : keeps h0 (load v) any.
Proof.
  intros s a s' Hs H. unfold load in H.
  destruct v as [|l]; [discriminate|].
  destruct (s.1 !! l); [|discriminate]. by injection H as _ <-.
Qed.

Lemma keeps_alloc items : keeps h0 (alloc items) (fresh_for h0).
Proof.
  intros s a s' Hs H. unfold alloc in H. injection H as <- <-. simpl.
  assert (Hfresh : s.1 !! fresh (dom s.1) = None)
    by (apply not_elem_of_dom, is_fresh).
  assert (Hnew : h0 !! fresh (dom s.1) = None).
  { destruct (h0 !! fresh (dom s.1)) as [x|] eqn:E; [|done].
    eapply lookup_weaken in E; [|exact Hs]. congruence. }
  split; [|done]. by apply insert_subseteq_r.
Qed.

Lemma keeps_store v items : fresh_for h0 v -> keeps h0 (store v items) any.
Proof.
  intros Hv s a s' Hs H. unfold store in H.
  destruct v as [|l]; [discriminate|]. injection H as _ <-. simpl.
  split; [|done]. by apply insert_subseteq_r.
Qed.

Lemma keeps_append v x : fresh_for h0 v -> keeps h0 (append v x) any.
Proof.
  intros Hv. unfold append. destruct v as [|l]; [apply keeps_raise|].
  eapply keeps_bind; [apply keeps_load|]. intros items _. by apply keeps_store.
Qed.

Lemma keeps_insert v i x : fresh_for h0 v -> keeps h0 (insert v i x) any.
Proof.
  intros Hv. unfold insert. destruct v as [|l]; [apply keeps_raise|].
  eapply keeps_bind; [apply keeps_load|]. intros items _. by apply keeps_store.
Qed.

Lemma keeps_getitem v i : keeps h0 (getitem v i) any.
Proof.
  unfold getitem. eapply keeps_bind; [apply keeps_load|].
  intros items _. apply keeps_lift.
Qed.

Lemma keeps_length_of v : keeps h0 (length_of v) any.
Proof.
  unfold length_of. eapply keeps_bind; [apply keeps_load|].
  intros items _. by apply keeps_ret.
Qed.

Lemma keeps_copy v : keeps h0 (copy v) (fresh_for h0).
Proof.
  unfold copy. destruct v as [|l]; [apply keeps_raise|].
  eapply keeps_bind; [apply keeps_load|]. intros items _. apply keeps_alloc.
Qed.

Lemma keeps_ne_fuel fuel v w : keeps h0 (ne_fuel fuel v w) any.
Proof.
  intros s a s' Hs H. unfold ne_fuel in H.
  destruct (eqb_fuel _ _ _ _); [|discriminate]. by injection H as _ <-.
Qed.

Lemma keeps_ne v w : keeps h0 (ne v w) any.
Proof. apply keeps_ne_fuel. Qed.

(** *** The refiner keeps the store it was given *)

Lemma keeps_perturb_coordinate point k adjustment :
  keeps h0 (perturb_coordinate point k adjustment) any.
Proof.
  unfold perturb_coordinate.
  eapply keeps_bind; [apply keeps_getitem|]. intros c _.
  eapply keeps_bind; [apply keeps_rnd|]. intros u _.
  eapply keeps_bind; [apply keeps_lift|]. intros x _.
  by apply keeps_ret.
Qed.

Lemma keeps_perturb_loop ring points : forall i improved_ring,
  fresh_for h0 improved_ring ->
  keeps h0 (perturb_loop ring i points improved_ring) any.
Proof.
  induction points as [|point points IH]; intros i improved_ring Hfresh;
    cbn [perturb_loop].
  - by apply keeps_ret.
  - eapply keeps_bind; [apply keeps_length_of|]. intros n _.
    destruct ((i =? 0) || (i =? n - 1))%Z.
    + eapply keeps_bind; [by apply keeps_append|]. intros _ _. by apply IH.
    + eapply keeps_bind; [apply keeps_rnd|]. intros certainty _.
      eapply keeps_bind; [apply keeps_perturb_coordinate|]. intros x _.
      eapply keeps_bind; [apply keeps_perturb_coordinate|]. intros y _.
      eapply keeps_bind; [apply keeps_alloc|]. intros improved_point _.
      eapply keeps_bind; [by apply keeps_append|]. intros _ _. by apply IH.
Qed.

Lemma keeps_midpoint_coordinate a b k : keeps h0 (midpoint_coordinate a b k) any.
Proof.
  unfold midpoint_coordinate.
  eapply keeps_bind; [apply keeps_getitem|]. intros ak _.
  eapply keeps_bind; [apply keeps_getitem|]. intros bk _.
  eapply keeps_bind; [apply keeps_lift|]. intros x _.
  eapply keeps_bind; [apply keeps_lift|]. intros y _.
  eapply keeps_bind; [apply keeps_rnd|]. intros u _.
  by apply keeps_ret.
Qed.

Lemma keeps_insert_point improved_ring :
  fresh_for h0 improved_ring -> keeps h0 (insert_point improved_ring) any.
Proof.
  intros Hfresh. unfold insert_point.
  eapply keeps_bind; [apply keeps_length_of|]. intros n _.
  eapply keeps_bind; [apply keeps_rnd|]. intros insert_idx _.
  eapply keeps_bind; [apply keeps_getitem|]. intros a _.
  eapply keeps_bind; [apply keeps_getitem|]. intros b _.
  eapply keeps_bind; [apply keeps_midpoint_coordinate|]. intros x _.
  eapply keeps_bind; [apply keeps_midpoint_coordinate|]. intros y _.
  eapply keeps_bind; [apply keeps_alloc|]. intros new_point _.
  by apply keeps_insert.
Qed.

Lemma keeps_insert_points rounds improved_ring :
  fresh_for h0 improved_ring -> keeps h0 (insert_points rounds improved_ring) any.
Proof.
  intros Hfresh. induction rounds as [|rounds IH]; simpl.
  - by apply keeps_ret.
  - eapply keeps_bind; [by apply keeps_insert_point|]. by intros _ _.
Qed.

Lemma keeps_densify ring improved_ring :
  fresh_for h0 improved_ring -> keeps h0 (densify ring improved_ring) any.
Proof.
  intros Hfresh. unfold densify.
  eapply keeps_bind; [apply keeps_length_of|]. intros n _.
  destruct (n <? 20)%Z; [|by apply keeps_ret].
  eapply keeps_bind; [apply keeps_rnd|]. intros rounds _.
  by apply keeps_insert_points.
Qed.

Lemma keeps_close_ring improved_ring :
  fresh_for h0 improved_ring -> keeps h0 (close_ring improved_ring) any.
Proof.
  intros Hfresh. unfold close_ring.
  eapply keeps_bind; [apply keeps_getitem|]. intros first _.
  eapply keeps_bind; [apply keeps_getitem|]. intros last_ _.
  eapply keeps_bind; [apply keeps_ne|]. intros [|] _; [|by apply keeps_ret].
  eapply keeps_bind; [apply keeps_getitem|]. intros first' _.
  eapply keeps_bind; [apply keeps_copy|]. intros c _.
  by apply keeps_append.
Qed.

Lemma keeps_refine_ring ring improved_rings :
  fresh_for h0 improved_rings -> keeps h0 (refine_ring ring improved_rings) any.
Proof.
  intros Hfresh. unfold refine_ring.
  eapply keeps_bind; [apply keeps_alloc|]. intros improved_ring Hring.
  eapply keeps_bind; [apply keeps_load|]. intros points _.
  eapply keeps_bind; [by apply keeps_perturb_loop|]. intros _ _.
  eapply keeps_bind; [by apply keeps_densify|]. intros _ _.
  eapply keeps_bind; [by apply keeps_close_ring|]. intros _ _.
  by apply keeps_append.
Qed.

Lemma keeps_refine_rings rings improved_rings :
  fresh_for h0 improved_rings -> keeps h0 (refine_rings rings improved_rings) any.
Proof.
  intros Hfresh. induction rings as [|ring rings IH]; simpl.
  - by apply keeps_ret.
  - eapply keeps_bind; [by apply keeps_refine_ring|]. by intros _ _.
Qed.

Lemma keeps_refine_polygon geometry : keeps h0 (refine_polygon geometry) any.
Proof.
  unfold refine_polygon.
  eapply keeps_bind; [apply keeps_alloc|]. intros empty _.
  destruct (String.eqb (type geometry) "Polygon"); [|by apply keeps_ret].
  eapply keeps_bind; [apply keeps_alloc|]. intros improved_rings Hfresh.
  eapply keeps_bind; [apply keeps_load|]. intros rings _.
  eapply keeps_bind; [by apply keeps_refine_rings|]. intros _ _.
  by apply keeps_ret.
Qed.

Section Improve.

Variables cos sqrt : Q -> Q.

Lemma keeps_sum_coordinate k points : forall total,
  keeps h0 (sum_coordinate k points total) any.
Proof.
  induction points as [|point points IH]; intros total; simpl.
  - by apply keeps_ret.
  - eapply keeps_bind; [apply keeps_getitem|]. intros c _.
    eapply keeps_bind; [apply keeps_lift|]. intros x _. apply IH.
Qed.

Lemma keeps_centre_and_radius geometry :
  keeps h0 (centre_and_radius cos sqrt geometry) any.
Proof.
  unfold centre_and_radius.
  destruct (String.eqb (type geometry) "Polygon"); [|by apply keeps_ret].
  eapply keeps_bind; [apply keeps_getitem|]. intros coords _.
  eapply keeps_bind; [apply keeps_load|]. intros points _.
  eapply keeps_bind; [apply keeps_sum_coordinate|]. intros lon_sum _.
  eapply keeps_bind; [apply keeps_load|]. intros points' _.
  eapply keeps_bind; [apply keeps_sum_coordinate|]. intros lat_sum _.
  eapply keeps_bind; [apply keeps_length_of|]. intros n _.
  eapply keeps_bind; [apply keeps_lift|]. intros center_lon _.
  eapply keeps_bind; [apply keeps_length_of|]. intros n' _.
  eapply keeps_bind; [apply keeps_lift|]. intros center_lat _.
  eapply keeps_bind; [apply keeps_getitem|]. intros first_point _.
  eapply keeps_bind; [apply keeps_getitem|]. intros c _.
  eapply keeps_bind; [apply keeps_lift|]. intros x _.
  eapply keeps_bind; [apply keeps_getitem|]. intros c' _.
  eapply keeps_bind; [apply keeps_lift|]. intros y _.
  by apply keeps_ret.
Qed.

Lemma keeps_improve_existing_boundary geometry :
  keeps h0 (improve_existing_boundary cos sqrt geometry) any.
Proof.
  unfold improve_existing_boundary.
  eapply keeps_bind; [apply keeps_centre_and_radius|]. intros _ _.
  eapply keeps_bind; [apply keeps_refine_polygon|]. intros improved_geometry _.
  eapply keeps_bind; [apply keeps_rnd|]. intros u _.
  by apply keeps_ret.
Qed.

End Improve.

End Keeps.

(** C9. If [refine_polygon] returns, every list object of the store it
    was started in is in the store it leaves, with the items it had: the
    list of rings, every ring and every position of the input are as they
    were, and the lists the function appended to or inserted into are
    objects it created. The same holds of [improve_existing_boundary]. The
    [type] and [coordinates] attributes of the geometry are assigned
    nowhere. *)
Theorem refine_polygon_keeps_input cos sqrt geometry h t :
  (forall geometry' h' t',
     refine_polygon geometry (h, t) = Ok (geometry', (h', t')) ->
     forall (l : loc) items, h !! l = Some items -> h' !! l = Some items)
  /\ (forall geometry' confidence h' t',
        improve_existing_boundary cos sqrt geometry (h, t)
        = Ok (geometry', confidence, (h', t')) ->
        forall (l : loc) items, h !! l = Some items -> h' !! l = Some items).
Proof.
  split.
  - intros geometry' h' t' H l items Hl.
    destruct (keeps_refine_polygon h geometry (h, t) _ _ (reflexivity _) H) as [Hsub _].
    by eapply lookup_weaken.
  - intros geometry' confidence h' t' H l items Hl.
    destruct (keeps_improve_existing_boundary h cos sqrt geometry (h, t) _ _
                (reflexivity _) H) as [Hsub _].
    by eapply lookup_weaken.
Qed.

Lemma refine_polygon_keeps_input_witness :
  exists geometry' h' t',
    refine_polygon parcel (parcel_heap, BoundaryDetection.parcel_tape)
    = Ok (geometry', (h', t'))
    /\ forall (l : loc) items,
         parcel_heap !! l = Some items -> h' !! l = Some items.
Proof.
  destruct (refine_polygon parcel (parcel_heap, BoundaryDetection.parcel_tape))
    as [[geometry' [h' t']]|e] eqn:E; [|by vm_compute in E].
  exists geometry', h', t'. split; [reflexivity|].
  destruct (refine_polygon_keeps_input (fun _ => 1) (fun _ => 1) parcel parcel_heap
              BoundaryDetection.parcel_tape) as [Hkeeps _].
  exact (Hkeeps geometry' h' t' E).
Defined.

End BoundaryHeapFacts.

(** ** The two models of the refiner agree *)

Module AgreementFacts.
Import BoundaryHeap.

Lemma reify_num fuel h x : reify (S fuel) h (VNum x) = Some (BoundaryDetection.Num x).
Proof. done. Qed.

Lemma reify_ref fuel h l c :
  reify (S fuel) h (VRef l) = Some c <->
  exists items cs, h !! l = Some items /\ c = BoundaryDetection.Arr cs
    /\ Forall2 (fun v c => reify fuel h v = Some c) items cs.
Proof.
  simpl. destruct (h !! l) as [items|]; split.
  - intros H. apply fmap_Some in H as (cs & H & ->).
    exists items, cs. split; [done|]. split; [done|]. by apply mapM_Some.
  - intros (items' & cs & [= <-] & -> & H). apply mapM_Some in H. by rewrite H.
  - done.
  - by intros (items' & cs & [=] & _).
Qed.

Lemma reify_heap_mono fuel : forall h h' v c,
  h ⊆ h' -> reify fuel h v = Some c -> reify fuel h' v = Some c.
Proof.
  induction fuel as [|fuel IH]; intros h h' v c Hsub H; [done|].
  destruct v as [x|l]; [done|].
  apply reify_ref in H as (items & cs & Hl & -> & Hitems).
  apply reify_ref. exists items, cs. split; [by eapply lookup_weaken|].
  split; [done|]. eapply Forall2_impl; [done|]. intros v c. by apply IH.
Qed.

Lemma reify_fuel_S fuel : forall h v c,
  reify fuel h v = Some c -> reify (S fuel) h v = Some c.
Proof.
  induction fuel as [|fuel IH]; intros h v c H; [done|].
  destruct v as [x|l]; [done|].
  apply reify_ref in H as (items & cs & Hl & -> & Hitems).
  apply reify_ref. exists items, cs. split; [done|]. split; [done|].
  eapply Forall2_impl; [done|]. intros v c. by apply IH.
Qed.

Lemma reify_fuel_mono fuel fuel' h v c :
  (fuel <= fuel')%nat -> reify fuel h v = Some c -> reify fuel' h v = Some c.
Proof. induction 1 as [|m _ IH]; [done|]. intros Hv. by apply reify_fuel_S, IH. Qed.

Lemma py_eqb_cons a b l l' :
  BoundaryDetection.py_eqb (BoundaryDetection.Arr (a :: l)) (BoundaryDetection.Arr (b :: l'))
  = BoundaryDetection.py_eqb a b && BoundaryDetection.py_eqb (BoundaryDetection.Arr l) (BoundaryDetection.Arr l').
Proof. done. Qed.

Lemma py_eqb_length cs : forall cs',
  length cs <> length cs' -> BoundaryDetection.py_eqb (BoundaryDetection.Arr cs) (BoundaryDetection.Arr cs') = false.
Proof.
  induction cs as [|c cs IH]; intros [|c' cs'] Hneq; try done.
  rewrite py_eqb_cons, IH; [by rewrite andb_false_r|]. simpl in Hneq. lia.
Qed.

Lemma eqb_fuel_reify fuel : forall h v w a b,
  reify fuel h v = Some a -> reify fuel h w = Some b ->
  eqb_fuel fuel h v w = Ok (BoundaryDetection.py_eqb a b).
Proof.
  induction fuel as [|fuel IH]; intros h v w a b Ha Hb; [done|].
  destruct v as [x|l], w as [y|l'].
  - injection Ha as <-. injection Hb as <-. done.
  - injection Ha as <-. apply reify_ref in Hb as (? & ? & _ & -> & _). done.
  - injection Hb as <-. apply reify_ref in Ha as (? & ? & _ & -> & _). done.
  - apply reify_ref in Ha as (items & cs & Hl & -> & Hitems).
    apply reify_ref in Hb as (items' & cs' & Hl' & -> & Hitems').
    cbn [eqb_fuel]. rewrite Hl, Hl'.
    destruct (Nat.eqb_spec (length items) (length items')) as [Hlen|Hlen]; cbn [negb].
    + clear Hl Hl'. revert items' cs' Hitems' Hlen.
      induction Hitems as [|x c items cs Hx _ IHitems]; intros items' cs' Hitems' Hlen.
      * destruct items'; [|done]. by inversion Hitems'.
      * destruct Hitems' as [|y c' items' cs' Hy Hitems']; [done|].
        rewrite py_eqb_cons. cbn [all_equal].
        assert (Hhead : match x, y with
                        | VRef k, VRef k' =>
                            if decide (k = k') then Ok true else eqb_fuel fuel h x y
                        | _, _ => eqb_fuel fuel h x y
                        end = Ok (BoundaryDetection.py_eqb c c')).
        { destruct x as [|k], y as [|k']; try by apply IH.
          destruct (decide (k = k')) as [->|_]; [|by apply IH].
          rewrite Hx in Hy. injection Hy as <-.
          by rewrite BoundaryFacts.py_eqb_refl. }
        rewrite Hhead. destruct (BoundaryDetection.py_eqb c c'); [|done].
        apply IHitems; [done|]. simpl in Hlen. lia.
    + assert (Hneq : length cs <> length cs').
      { apply Forall2_length in Hitems, Hitems'. lia. }
      by rewrite py_eqb_length.
Qed.

(** *** Simulation *)

Lemma sim_bind {A B A' B'} h t (mh : HM A) (mp : M B) (kh : A -> HM A') (kp : B -> M B')
    mid post :
  sim h t mh mp mid ->
  (forall h' t' a b, mid h' a b -> sim h' t' (kh a) (kp b) post) ->
  sim h t (bind mh kh) (bind mp kp) post.
Proof.
  unfold sim, bind. intros Hm Hk.
  destruct (mp t) as [[b t']|e].
  - destruct Hm as (a & h' & -> & Hmid). by apply Hk.
  - by rewrite Hm.
Qed.

Lemma sim_weaken {A B} h t (mh : HM A) (mp : M B) (post post' : heap -> A -> B -> Prop) :
  sim h t mh mp post -> (forall h' a b, post h' a b -> post' h' a b) ->
  sim h t mh mp post'.
Proof.
  unfold sim. intros Hm Himp. destruct (mp t) as [[b t']|e]; [|done].
  destruct Hm as (a & h' & E & Hpost). eauto.
Qed.

Lemma sim_ret {A B} h t (a : A) (b : B) (post : heap -> A -> B -> Prop) :
  post h a b -> sim h t (ret a) (ret b) post.
Proof. intros H. unfold sim, ret. eauto. Qed.

Lemma sim_raise {A B} h t e (post : heap -> A -> B -> Prop) :
  sim h t (raise e) (raise e) post.
Proof. done. Qed.

Lemma sim_rnd {A} h t (m : M A) :
  sim h t (rnd m) m (fun h' a b => h' = h /\ a = b).
Proof.
  unfold sim, rnd. simpl. destruct (m t) as [[a t']|e]; [|done]. eauto.
Qed.

Lemma sim_lift {A} h t (r : result A) :
  sim h t (lift r) (lift r) (fun h' a b => h' = h /\ a = b).
Proof. unfold sim, lift. destruct r; [|done]. eauto. Qed.

Lemma sim_lift2 {A B} h t (r : result A) (r' : result B) (R : A -> B -> Prop) :
  match r' with
  | Ok b => exists a, r = Ok a /\ R a b
  | Raise e => r = Raise e
  end ->
  sim h t (lift r) (lift r') (fun h' a b => h' = h /\ R a b).
Proof.
  unfold sim, lift. destruct r' as [b|e].
  - intros (a & -> & HR). eauto.
  - by intros ->.
Qed.

Lemma list_getitem_Forall2 {A B} (R : A -> B -> Prop) l k i :
  Forall2 R l k ->
  match list_getitem k i with
  | Ok b => exists a, list_getitem l i = Ok a /\ R a b
  | Raise e => list_getitem l i = Raise e
  end.
Proof.
  intros H. unfold list_getitem. rewrite (Forall2_length _ _ _ H).
  destruct (_ <? 0)%Z; [done|].
  set (j := Z.to_nat _).
  destruct (k !! j) as [b|] eqn:Ek.
  - destruct (Forall2_lookup_r _ _ _ _ _ H Ek) as (a & -> & HR). eauto.
  - apply lookup_ge_None in Ek. rewrite <- (Forall2_length _ _ _ H) in Ek.
    apply lookup_ge_None in Ek. by rewrite Ek.
Qed.

Lemma sim_load h t hs fuel v c :
  hs ⊆ h -> reify (S fuel) hs v = Some c ->
  sim h t (load v) (lift (BoundaryDetection.iter c))
    (fun h' items cs => h' = h /\ reps fuel hs items cs).
Proof.
  intros Hsub Hv. unfold sim, lift, load. simpl.
  destruct v as [x|l].
  - by injection Hv as <-.
  - apply reify_ref in Hv as (items & cs & Hl & -> & Hitems). simpl.
    rewrite (lookup_weaken _ _ _ _ Hl Hsub). eauto.
Qed.

Lemma sim_getitem h t hs fuel v c i :
  hs ⊆ h -> reify (S fuel) hs v = Some c ->
  sim h t (getitem v i) (lift (BoundaryDetection.getitem c i))
    (fun h' a b => h' = h /\ reify fuel hs a = Some b).
Proof.
  intros Hsub Hv. unfold sim, lift, getitem, bind, load. simpl.
  destruct v as [x|l].
  - by injection Hv as <-.
  - apply reify_ref in Hv as (items & cs & Hl & -> & Hitems). simpl.
    rewrite (lookup_weaken _ _ _ _ Hl Hsub).
    pose proof (list_getitem_Forall2 _ _ _ i Hitems) as H.
    destruct (list_getitem cs i) as [b|e].
    + destruct H as (a & -> & Ha). simpl. eauto.
    + by rewrite H.
Qed.

Lemma as_float_reify fuel hs a b :
  reify (S fuel) hs a = Some b -> as_float a = BoundaryDetection.as_float b.
Proof.
  destruct a as [x|l]; [by intros [= <-]|].
  by intros (? & ? & _ & -> & _)%reify_ref.
Qed.

Lemma sim_step_l {A A' B} h h' t (mh : HM A) (kh : A -> HM A') (mp : M B) a post :
  mh (h, t) = Ok (a, (h', t)) ->
  sim h' t (kh a) mp post ->
  sim h t (bind mh kh) mp post.
Proof.
  intros E H. unfold sim, bind in *. rewrite E. exact H.
Qed.

Lemma sim_final {A B} h h' t (mh : HM A) a (b : B) (post : heap -> A -> B -> Prop) :
  mh (h, t) = Ok (a, (h', t)) -> post h' a b -> sim h t mh (ret b) post.
Proof. intros E H. unfold sim, ret. eauto. Qed.

(** *** One ring under construction *)

Section Ring.

Variable fq : nat.
Variables lir lirs : loc.
Hypothesis Hlir : lir <> lirs.
Hypothesis Hfuel : (S (S fq) <= recursion_limit)%nat.

Lemma extends_refl h : extends lir lirs h h.
Proof. by split. Qed.

Lemma extends_trans h1 h2 h3 : extends lir lirs h1 h2 -> extends lir lirs h2 h3 -> extends lir lirs h1 h3.
Proof. intros [H1 E1] [H2 E2]. split; [by etrans | congruence]. Qed.

Lemma stable_sub h : stable lir lirs h ⊆ h.
Proof. unfold stable. etrans; apply delete_subseteq. Qed.

Lemma stable_store h items : stable lir lirs (<[lir := items]> h) = stable lir lirs h.
Proof.
  unfold stable. rewrite (delete_insert_ne h lirs lir) by done.
  by rewrite delete_insert_eq.
Qed.

Lemma stable_alloc h (ln : loc) items :
  h !! ln = None -> ln <> lir -> ln <> lirs ->
  stable lir lirs (<[ln := items]> h) = <[ln := items]> (stable lir lirs h)
  /\ stable lir lirs h ⊆ stable lir lirs (<[ln := items]> h).
Proof.
  intros Hln H1 H2.
  assert (E : stable lir lirs (<[ln := items]> h) = <[ln := items]> (stable lir lirs h)).
  { unfold stable. by rewrite !delete_insert_ne by done. }
  split; [done|]. rewrite E. apply insert_subseteq.
  eapply lookup_weaken_None; [exact Hln | apply stable_sub].
Qed.

Lemma reps_mono fuel h h' items cs :
  h ⊆ h' -> reps fuel h items cs -> reps fuel h' items cs.
Proof.
  intros Hsub H. eapply Forall2_impl; [done|]. intros v c. by apply reify_heap_mono.
Qed.

Lemma append_building h t cs v c :
  building fq lir lirs h cs -> reify (S (S fq)) (stable lir lirs h) v = Some c ->
  exists h', append (VRef lir) v (h, t) = Ok (tt, (h', t))
    /\ extends lir lirs h h' /\ building fq lir lirs h' (cs ++ [c]).
Proof.
  intros [(items & Hl & Hitems) Hlirs] Hv.
  exists (<[lir := items ++ [v]]> h). split; [|split].
  - unfold append, bind, load, store. simpl. by rewrite Hl.
  - split; [by rewrite stable_store|]. by rewrite lookup_insert_ne.
  - split.
    + exists (items ++ [v]). split; [by rewrite lookup_insert_eq|].
      rewrite stable_store. apply Forall2_app; [done|]. by constructor.
    + by rewrite lookup_insert_ne.
Qed.

Lemma list_insert_at_Forall2 {A B} (R : A -> B -> Prop) l k i x y :
  Forall2 R l k -> R x y ->
  Forall2 R (list_insert_at l i x) (list_insert_at k i y).
Proof.
  intros H Hxy. unfold list_insert_at. rewrite (Forall2_length _ _ _ H).
  apply Forall2_app; [by apply Forall2_take|].
  constructor; [done|]. by apply Forall2_drop.
Qed.

Lemma insert_building h t cs i v c :
  building fq lir lirs h cs -> reify (S (S fq)) (stable lir lirs h) v = Some c ->
  exists h', insert (VRef lir) i v (h, t) = Ok (tt, (h', t))
    /\ extends lir lirs h h' /\ building fq lir lirs h' (list_insert_at cs i c).
Proof.
  intros [(items & Hl & Hitems) Hlirs] Hv.
  exists (<[lir := list_insert_at items i v]> h). split; [|split].
  - unfold insert, bind, load, store. simpl. by rewrite Hl.
  - split; [by rewrite stable_store|]. by rewrite lookup_insert_ne.
  - split.
    + exists (list_insert_at items i v). split; [by rewrite lookup_insert_eq|].
      rewrite stable_store. by apply list_insert_at_Forall2.
    + by rewrite lookup_insert_ne.
Qed.

Lemma alloc_building h t cs items cs' :
  building fq lir lirs h cs -> reps (S fq) (stable lir lirs h) items cs' ->
  exists ln h', alloc items (h, t) = Ok (VRef ln, (h', t))
    /\ extends lir lirs h h' /\ building fq lir lirs h' cs
    /\ reify (S (S fq)) (stable lir lirs h') (VRef ln) = Some (BoundaryDetection.Arr cs').
Proof.
  intros [(ring_items & Hl & Hitems) Hlirs] Hnew.
  set (ln := fresh (dom h)).
  assert (Hln : h !! ln = None) by (apply not_elem_of_dom, is_fresh).
  assert (H1 : ln <> lir) by (intros E; rewrite E in Hln; congruence).
  assert (H2 : ln <> lirs) by (intros E; rewrite E in Hln; by destruct Hlirs; congruence).
  destruct (stable_alloc h ln items Hln H1 H2) as [E Hsub].
  exists ln, (<[ln := items]> h). split; [done|]. split; [|split].
  - split; [done|]. by rewrite lookup_insert_ne.
  - split.
    + exists ring_items. split; [by rewrite lookup_insert_ne|].
      by eapply reps_mono.
    + by rewrite lookup_insert_ne.
  - apply reify_ref. exists items, cs'. split; [by rewrite E, lookup_insert_eq|].
    split; [done|]. by eapply reps_mono.
Qed.

Lemma length_of_building h t cs :
  building fq lir lirs h cs -> length_of (VRef lir) (h, t) = Ok (len cs, (h, t)).
Proof.
  intros [(items & Hl & Hitems) _].
  unfold length_of, bind, load, len. simpl. rewrite Hl.
  by rewrite (Forall2_length _ _ _ Hitems).
Qed.

Lemma getitem_building h t cs i :
  building fq lir lirs h cs ->
  match list_getitem cs i with
  | Ok c => exists v, getitem (VRef lir) i (h, t) = Ok (v, (h, t))
                       /\ reify (S (S fq)) (stable lir lirs h) v = Some c
  | Raise e => getitem (VRef lir) i (h, t) = Raise e
  end.
Proof.
  intros [(items & Hl & Hitems) _].
  pose proof (list_getitem_Forall2 _ _ _ i Hitems) as H.
  unfold getitem, bind, load, lift. simpl. rewrite Hl.
  destruct (list_getitem cs i) as [c|e].
  - destruct H as (v & -> & Hv). eauto.
  - by rewrite H.
Qed.

Lemma sim_getitem_building h t cs i :
  building fq lir lirs h cs ->
  sim h t (getitem (VRef lir) i) (lift (list_getitem cs i))
    (fun h' v c => h' = h /\ reify (S (S fq)) (stable lir lirs h) v = Some c).
Proof.
  intros Hb. pose proof (getitem_building h t cs i Hb) as H.
  unfold sim, lift. destruct (list_getitem cs i) as [c|e]; [|done].
  destruct H as (v & -> & Hv). eauto.
Qed.

Lemma sim_perturb_coordinate h t hs point c k adjustment :
  hs ⊆ h -> reify (S (S fq)) hs point = Some c ->
  sim h t (perturb_coordinate point k adjustment)
    (BoundaryDetection.perturb_coordinate c k adjustment)
    (fun h' a b => h' = h /\ a = b).
Proof.
  intros Hsub Hpoint. unfold perturb_coordinate, BoundaryDetection.perturb_coordinate.
  eapply sim_bind; [by eapply sim_getitem|].
  intros h1 t1 a b [-> Ha]. simpl in Ha.
  eapply sim_bind; [apply sim_rnd|]. intros h2 t2 u u' [-> <-].
  rewrite (as_float_reify _ _ _ _ Ha).
  eapply sim_bind; [apply sim_lift|]. intros h3 t3 x x' [-> <-].
  by apply sim_ret.
Qed.

Lemma sim_midpoint_coordinate h t hs a b ca cb k :
  hs ⊆ h -> reify (S (S fq)) hs a = Some ca -> reify (S (S fq)) hs b = Some cb ->
  sim h t (midpoint_coordinate a b k) (BoundaryDetection.midpoint_coordinate ca cb k)
    (fun h' x y => h' = h /\ x = y).
Proof.
  intros Hsub Ha Hb. unfold midpoint_coordinate, BoundaryDetection.midpoint_coordinate.
  eapply sim_bind; [by eapply sim_getitem|]. intros h1 t1 ak cak [-> Hak].
  eapply sim_bind; [by eapply sim_getitem|]. intros h2 t2 bk cbk [-> Hbk].
  simpl in Hak, Hbk.
  rewrite (as_float_reify _ _ _ _ Hak), (as_float_reify _ _ _ _ Hbk).
  eapply sim_bind; [apply sim_lift|]. intros h3 t3 x x' [-> <-].
  eapply sim_bind; [apply sim_lift|]. intros h4 t4 y y' [-> <-].
  eapply sim_bind; [apply sim_rnd|]. intros h5 t5 u u' [-> <-].
  by apply sim_ret.
Qed.

Lemma sim_built_trans h1 h2 t (mh : HM unit) (mp : M (list BoundaryDetection.coords_t)) :
  extends lir lirs h1 h2 -> sim h2 t mh mp (built fq lir lirs h2) -> sim h2 t mh mp (built fq lir lirs h1).
Proof.
  intros Hext H. eapply sim_weaken; [done|].
  intros h' [] cs' [H1 H2]. split; [by eapply extends_trans | done].
Qed.

Lemma length_of_stable h t (lr : loc) items :
  stable lir lirs h !! lr = Some items ->
  length_of (VRef lr) (h, t) = Ok (len items, (h, t)).
Proof.
  intros Hl. unfold length_of, bind, load. simpl.
  by rewrite (lookup_weaken _ _ _ _ Hl (stable_sub h)).
Qed.

Lemma sim_perturb_loop (lr : loc) ring_items points : forall pts i acc h t,
  building fq lir lirs h acc -> reps (S (S fq)) (stable lir lirs h) points pts ->
  stable lir lirs h !! lr = Some ring_items ->
  sim h t (perturb_loop (VRef lr) i points (VRef lir))
    (BoundaryDetection.perturb_loop (len ring_items) i pts acc) (built fq lir lirs h).
Proof.
  induction points as [|point points IH]; intros pts i acc h t Hb Hpts Hring.
  - inversion Hpts; subst. apply sim_ret. split; [apply extends_refl | done].
  - destruct pts as [|c pts]; [by inversion Hpts|].
    apply Forall2_cons in Hpts as [Hpoint Hpts].
    cbn [perturb_loop BoundaryDetection.perturb_loop].
    eapply sim_step_l; [by apply length_of_stable|].
    destruct ((i =? 0) || (i =? len ring_items - 1))%Z.
    + destruct (append_building h t acc point c Hb Hpoint) as (h1 & E1 & Hext & Hb1).
      eapply sim_step_l; [exact E1|].
      eapply sim_built_trans; [done|].
      apply IH; [done | by eapply reps_mono, Hpts; apply Hext |].
      by eapply lookup_weaken; [|apply Hext].
    + eapply sim_bind; [apply sim_rnd|]. intros h1 t1 certainty ? [-> <-].
      eapply sim_bind;
        [by eapply sim_perturb_coordinate; [apply stable_sub|]|].
      intros h2 t2 x ? [-> <-].
      eapply sim_bind;
        [by eapply sim_perturb_coordinate; [apply stable_sub|]|].
      intros h3 t3 y ? [-> <-].
      destruct (alloc_building h t3 acc [VNum x; VNum y] [BoundaryDetection.Num x; BoundaryDetection.Num y] Hb)
        as (ln & h4 & E4 & Hext4 & Hb4 & Hln).
      { by repeat constructor. }
      eapply sim_step_l; [exact E4|].
      destruct (append_building h4 t3 acc (VRef ln) _ Hb4 Hln) as (h5 & E5 & Hext5 & Hb5).
      eapply sim_step_l; [exact E5|].
      pose proof (extends_trans _ _ _ Hext4 Hext5) as Hext.
      eapply sim_built_trans; [done|].
      apply IH; [done | by eapply reps_mono, Hpts; apply Hext |].
      by eapply lookup_weaken; [|apply Hext].
Qed.

Lemma sim_insert_point h t cs :
  building fq lir lirs h cs ->
  sim h t (insert_point (VRef lir)) (BoundaryDetection.insert_point cs) (built fq lir lirs h).
Proof.
  intros Hb. unfold insert_point, BoundaryDetection.insert_point.
  eapply sim_step_l; [by apply length_of_building|].
  eapply sim_bind; [apply sim_rnd|]. intros h1 t1 insert_idx ? [-> <-].
  eapply sim_bind; [by apply sim_getitem_building|]. intros h2 t2 a ca [-> Ha].
  eapply sim_bind; [by apply sim_getitem_building|]. intros h3 t3 b cb [-> Hb'].
  eapply sim_bind;
    [by eapply sim_midpoint_coordinate; [apply stable_sub|..]|].
  intros h4 t4 x ? [-> <-].
  eapply sim_bind;
    [by eapply sim_midpoint_coordinate; [apply stable_sub|..]|].
  intros h5 t5 y ? [-> <-].
  destruct (alloc_building h t5 cs [VNum x; VNum y] [BoundaryDetection.Num x; BoundaryDetection.Num y] Hb)
    as (ln & h6 & E6 & Hext6 & Hb6 & Hln).
  { by repeat constructor. }
  destruct (insert_building h6 t5 cs (insert_idx + 1) (VRef ln) _ Hb6 Hln)
    as (h7 & E7 & Hext7 & Hb7).
  eapply sim_final.
  - unfold bind. rewrite E6. exact E7.
  - split; [by eapply extends_trans | done].
Qed.

Lemma sim_insert_points rounds : forall h t cs,
  building fq lir lirs h cs ->
  sim h t (insert_points rounds (VRef lir)) (BoundaryDetection.insert_points rounds cs) (built fq lir lirs h).
Proof.
  induction rounds as [|rounds IH]; intros h t cs Hb; simpl.
  - apply sim_ret. split; [apply extends_refl | done].
  - eapply sim_bind; [by apply sim_insert_point|].
    intros h1 t1 [] cs1 [Hext Hb1].
    eapply sim_built_trans; [done|]. by apply IH.
Qed.

Lemma sim_densify (lr : loc) ring_items pts h t cs :
  building fq lir lirs h cs -> stable lir lirs h !! lr = Some ring_items ->
  len pts = len ring_items ->
  sim h t (densify (VRef lr) (VRef lir)) (BoundaryDetection.densify pts cs) (built fq lir lirs h).
Proof.
  intros Hb Hring Hlen. unfold densify, BoundaryDetection.densify.
  eapply sim_step_l; [by apply length_of_stable|]. rewrite Hlen.
  destruct (len ring_items <? 20)%Z.
  - eapply sim_bind; [apply sim_rnd|]. intros h1 t1 rounds ? [-> <-].
    by apply sim_insert_points.
  - apply sim_ret. split; [apply extends_refl | done].
Qed.

Lemma ne_fuel_reify fuel h t v w a b :
  reify fuel h v = Some a -> reify fuel h w = Some b ->
  ne_fuel fuel v w (h, t) = Ok (negb (BoundaryDetection.py_eqb a b), (h, t)).
Proof.
  intros Ha Hb. unfold ne_fuel. simpl. by rewrite (eqb_fuel_reify _ _ _ _ _ _ Ha Hb).
Qed.

Lemma ne_building h t v w a b :
  reify (S (S fq)) (stable lir lirs h) v = Some a -> reify (S (S fq)) (stable lir lirs h) w = Some b ->
  ne v w (h, t) = Ok (negb (BoundaryDetection.py_eqb a b), (h, t)).
Proof.
  intros Ha Hb. unfold ne. apply ne_fuel_reify.
  - eapply reify_fuel_mono; [exact Hfuel|]. eapply reify_heap_mono; [apply stable_sub|done].
  - eapply reify_fuel_mono; [exact Hfuel|]. eapply reify_heap_mono; [apply stable_sub|done].
Qed.

Lemma copy_building h t cs (l : loc) cl :
  building fq lir lirs h cs -> reify (S (S fq)) (stable lir lirs h) (VRef l) = Some (BoundaryDetection.Arr cl) ->
  exists ln h', copy (VRef l) (h, t) = Ok (VRef ln, (h', t))
    /\ extends lir lirs h h' /\ building fq lir lirs h' cs
    /\ reify (S (S fq)) (stable lir lirs h') (VRef ln) = Some (BoundaryDetection.Arr cl).
Proof.
  intros Hb (items & cl' & Hl & [= <-] & Hitems)%reify_ref.
  destruct (alloc_building h t cs items cl Hb Hitems)
    as (ln & h1 & Ea & Hext1 & Hb1 & Hln).
  exists ln, h1. split; [|done].
  unfold copy, bind, load. cbn [fst snd].
  by rewrite (lookup_weaken _ _ _ _ Hl (stable_sub h)).
Qed.

Lemma sim_close_ring h t cs :
  building fq lir lirs h cs ->
  sim h t (close_ring (VRef lir)) (lift (BoundaryDetection.close_ring cs)) (built fq lir lirs h).
Proof.
  intros Hb. unfold sim, lift, close_ring, BoundaryDetection.close_ring, bind.
  pose proof (getitem_building h t cs 0 Hb) as H0.
  pose proof (getitem_building h t cs (-1) Hb) as H1.
  destruct (list_getitem cs 0) as [cfirst|e]; [|by rewrite H0].
  destruct H0 as (first & E0 & Hfirst). rewrite E0.
  destruct (list_getitem cs (-1)) as [clast|e]; [|by rewrite H1].
  destruct H1 as (last_ & E1 & Hlast). rewrite E1.
  rewrite (ne_building h t _ _ _ _ Hfirst Hlast).
  destruct (negb (BoundaryDetection.py_eqb cfirst clast)).
  - rewrite E0. destruct first as [x|l].
    + injection Hfirst as <-. done.
    + assert (Hc : exists cl, cfirst = BoundaryDetection.Arr cl).
      { apply reify_ref in Hfirst as (? & cl & _ & -> & _). eauto. }
      destruct Hc as (cl & ->).
      destruct (copy_building h t cs l cl Hb Hfirst)
        as (ln & h1 & Ec & Hext1 & Hb1 & Hln).
      rewrite Ec. cbn [BoundaryDetection.copy].
      destruct (append_building h1 t cs (VRef ln) _ Hb1 Hln) as (h2 & E2 & Hext2 & Hb2).
      rewrite E2. exists tt, h2. split; [done|].
      split; [by eapply extends_trans | done].
  - exists tt, h. split; [done|]. split; [apply extends_refl | done].
Qed.

End Ring.

(** *** The list of finished rings *)

Lemma sim_pure_lift_Ok {A B C} h t (mh : HM A) (b : B) (kp : B -> M C) post :
  sim h t mh (kp b) post -> sim h t mh (bind (lift (Ok b)) kp) post.
Proof. done. Qed.

Section Rings.

Variable fq : nat.
Variable lirs : loc.
Hypothesis Hfuel : (S (S fq) <= recursion_limit)%nat.

Lemma sim_refine_ring h t rs ring cring :
  collecting fq lirs h rs -> reify (S (S (S fq))) (delete lirs h) ring = Some cring ->
  sim h t (refine_ring ring (VRef lirs)) (BoundaryDetection.refine_ring cring)
    (fun h' _ cring' => collected fq lirs h h' tt (rs ++ [cring'])).
Proof.
  intros (its & Hlirs & Hits) Hring. unfold refine_ring, BoundaryDetection.refine_ring.
  set (lir := fresh (dom h)).
  assert (Hfresh : h !! lir = None) by (apply not_elem_of_dom, is_fresh).
  assert (Hne : lir <> lirs) by (intros E; rewrite E in Hfresh; congruence).
  set (h1 := <[lir := []]> h).
  eapply (sim_step_l h h1); [done|].
  assert (Hstable : stable lir lirs h1 = delete lirs h).
  { unfold stable, h1. rewrite delete_insert_ne by done.
    rewrite delete_insert_eq. apply delete_id.
    by rewrite lookup_delete_ne. }
  assert (Hb1 : building fq lir lirs h1 []).
  { split.
    - exists []. split; [by apply lookup_insert_eq | constructor].
    - unfold h1. rewrite lookup_insert_ne by done. eauto. }
  destruct ring as [x|lr].
  { injection Hring as <-. done. }
  pose proof Hring as Hr.
  apply reify_ref in Hr as (points & pts & Hlr & -> & Hpts).
  rewrite <- Hstable in Hlr, Hpts.
  eapply sim_step_l.
  { unfold load. cbn [fst].
    by rewrite (lookup_weaken _ _ _ _ Hlr (stable_sub lir lirs h1)). }
  cbn [BoundaryDetection.iter]. apply sim_pure_lift_Ok.
  assert (Hlen : len pts = len points).
  { unfold len. by rewrite (Forall2_length _ _ _ Hpts). }
  rewrite Hlen.
  eapply sim_bind; [by eapply sim_perturb_loop|].
  intros h2 t2 [] cs2 [Hext2 Hb2].
  eapply sim_bind.
  { eapply sim_densify; [done..| |done].
    by eapply lookup_weaken; [|apply Hext2]. }
  intros h3 t3 [] cs3 [Hext3 Hb3].
  eapply sim_bind; [by eapply sim_close_ring|].
  intros h4 t4 [] cs4 [Hext4 Hb4].
  pose proof (extends_trans _ _ _ _ _ (extends_trans _ _ _ _ _ Hext2 Hext3) Hext4)
    as [Hsub Hsame].
  destruct Hb4 as [(items & Hlir & Hitems) _].
  assert (Hlirs4 : h4 !! lirs = Some its).
  { rewrite Hsame. unfold h1. by rewrite lookup_insert_ne. }
  assert (Hbase : delete lirs h ⊆ delete lirs h4).
  { rewrite <- Hstable. etrans; [exact Hsub|]. apply delete_subseteq. }
  eapply (sim_final _ (<[lirs := its ++ [VRef lir]]> h4)).
  { unfold append, bind, load, store. cbn [fst snd]. by rewrite Hlirs4. }
  split.
  - by rewrite delete_insert_eq.
  - exists (its ++ [VRef lir]). split; [by apply lookup_insert_eq|].
    rewrite delete_insert_eq. apply Forall2_app.
    + by eapply reps_mono.
    + constructor; [|constructor]. apply reify_ref. exists items, cs4.
      split; [by rewrite lookup_delete_ne|]. split; [done|].
      eapply reps_mono; [|exact Hitems]. apply delete_subseteq.
Qed.

Lemma sim_refine_rings rings : forall crings rs h t,
  collecting fq lirs h rs -> reps (S (S (S fq))) (delete lirs h) rings crings ->
  sim h t (refine_rings rings (VRef lirs)) (BoundaryDetection.refine_rings crings rs) (collected fq lirs h).
Proof.
  induction rings as [|ring rings IH]; intros crings rs h t Hc Hrings.
  - inversion Hrings; subst. by apply sim_ret.
  - destruct crings as [|cring crings]; [by inversion Hrings|].
    apply Forall2_cons in Hrings as [Hring Hrings]. simpl.
    eapply sim_bind; [by apply sim_refine_ring|].
    intros h1 t1 [] cring' [Hsub Hc1].
    eapply sim_weaken; [apply IH; [done | by eapply reps_mono]|].
    intros h2 [] rs2 [Hsub2 Hc2]. split; [by etrans | done].
Qed.

End Rings.

(** The two models of [refine_polygon] agree: on a store in which the
    coordinates of the geometry stand for the nested list [c], with the same
    draws, either both raise the same exception or both return, having drawn
    the same, and the coordinates returned on the store stand for the nested
    list returned. *)
Theorem refine_polygon_agrees fuel ty v c h t :
  (4 <= fuel <= recursion_limit + 2)%nat ->
  reify fuel h v = Some c ->
  sim h t (refine_polygon (Geometry ty v)) (BoundaryDetection.refine_polygon (BoundaryDetection.Geometry ty c))
    (fun h' geometry geometry' =>
       type geometry = ty /\ BoundaryDetection.type geometry' = ty
       /\ reify fuel h' (coordinates geometry) = Some (BoundaryDetection.coordinates geometry')).
Proof.
  intros Hfuel Hv.
  destruct fuel as [|[|[|[|fq]]]]; try lia.
  unfold refine_polygon, BoundaryDetection.refine_polygon. cbn [type coordinates BoundaryDetection.type BoundaryDetection.coordinates].
  set (le := fresh (dom h)).
  assert (Hle : h !! le = None) by (apply not_elem_of_dom, is_fresh).
  set (h1 := <[le := []]> h).
  assert (Hsub1 : h ⊆ h1) by (by apply insert_subseteq).
  eapply (sim_step_l h h1); [done|].
  destruct (String.eqb ty "Polygon").
  - set (lirs := fresh (dom h1)).
    assert (Hlirs : h1 !! lirs = None) by (apply not_elem_of_dom, is_fresh).
    set (h2 := <[lirs := []]> h1).
    eapply (sim_step_l h1 h2); [done|].
    assert (Hbase : delete lirs h2 = h1).
    { unfold h2. rewrite delete_insert_eq. by apply delete_id. }
    assert (Hv2 : reify (S (S (S (S fq)))) (delete lirs h2) v = Some c).
    { rewrite Hbase. by eapply reify_heap_mono. }
    eapply sim_bind.
    { eapply sim_load; [|exact Hv2]. apply delete_subseteq. }
    intros h3 t3 rings crings [-> Hrings].
    eapply sim_bind.
    { eapply (sim_refine_rings fq lirs); [unfold recursion_limit in *; lia | | done].
      exists []. split; [by apply lookup_insert_eq | constructor]. }
    intros h4 t4 [] rs [_ (its & Hits & Hrs)].
    apply sim_ret. split; [done|]. split; [done|].
    cbn [coordinates BoundaryDetection.coordinates].
    apply reify_ref. exists its, rs. split; [done|]. split; [done|].
    eapply reps_mono; [|exact Hrs]. apply delete_subseteq.
  - apply sim_ret. split; [done|]. split; [done|].
    cbn [coordinates BoundaryDetection.coordinates]. by eapply reify_heap_mono.
Qed.

(** The store of the example stands for the parcel of the list model, and
    the two models return the same refined parcel on it. *)
Example parcel_heap_reifies :
  reify 4 parcel_heap (coordinates parcel)
  = Some (BoundaryDetection.coordinates BoundaryDetection.parcel).
Proof. by vm_compute. Qed.

Corollary parcel_agrees :
  exists v' h',
    refine_polygon parcel (parcel_heap, BoundaryDetection.parcel_tape)
    = Ok (Geometry "Polygon" v', (h', []))
    /\ reify 4 h' v'
       = Some (BoundaryDetection.coordinates BoundaryDetection.parcel_refined).
Proof.
  assert (Hfuel : (4 <= 4 <= recursion_limit + 2)%nat)
    by (unfold recursion_limit; lia).
  pose proof (refine_polygon_agrees 4 "Polygon" (VRef 12%positive) _ parcel_heap
                BoundaryDetection.parcel_tape Hfuel parcel_heap_reifies) as H.
  unfold sim in H.
  assert (E : BoundaryDetection.refine_polygon
                (BoundaryDetection.Geometry "Polygon"
                   (BoundaryDetection.coordinates BoundaryDetection.parcel))
                BoundaryDetection.parcel_tape
              = Ok (BoundaryDetection.parcel_refined, []))
    by (vm_compute; reflexivity).
  rewrite E in H. destruct H as ([ty v'] & h' & Eh & Hty & _ & Hv').
  cbn [type coordinates] in Hty, Hv'. subst ty.
  exists v', h'. unfold parcel. split; [exact Eh | exact Hv'].
Qed.

End AgreementFacts.

(** * Further properties *)

(** ** The model handle *)

Module ModelHandleFacts.

Lemma land_use_load_model_loaded g :
  MODEL_LOADED g = true -> LandUse.load_model g = g.
Proof. intros H. unfold LandUse.load_model. by rewrite H. Qed.

Lemma boundary_load_model_loaded g :
  MODEL_LOADED g = true -> BoundaryDetection.load_model g = g.
Proof. intros H. unfold BoundaryDetection.load_model. by rewrite H. Qed.

(** X1. [load_model] is paid for once: however often it is called, the
    module is left as one call leaves it, loaded; and a call that finds the
    module not loaded sets [MODEL], sleeps half a second and logs two
    lines. *)
Theorem load_model_once g (n : nat) :
  (Nat.iter (S n) LandUse.load_model g = LandUse.load_model g
   /\ MODEL_LOADED (LandUse.load_model g) = true
   /\ (MODEL_LOADED g = false ->
       MODEL (LandUse.load_model g) = Some "simulation"%string
       /\ slept (LandUse.load_model g) == slept g + (1 # 2)
       /\ length (logged (LandUse.load_model g)) = (length (logged g) + 2)%nat))
  /\ (Nat.iter (S n) BoundaryDetection.load_model g = BoundaryDetection.load_model g
      /\ MODEL_LOADED (BoundaryDetection.load_model g) = true
      /\ (MODEL_LOADED g = false ->
          MODEL (BoundaryDetection.load_model g) = Some "simulation"%string
          /\ slept (BoundaryDetection.load_model g) == slept g + (1 # 2)
          /\ length (logged (BoundaryDetection.load_model g))
             = (length (logged g) + 2)%nat)).
Proof.
  assert (HL : MODEL_LOADED (LandUse.load_model g) = true).
  { unfold LandUse.load_model. by destruct (MODEL_LOADED g) eqn:E. }
  assert (HB : MODEL_LOADED (BoundaryDetection.load_model g) = true).
  { unfold BoundaryDetection.load_model. by destruct (MODEL_LOADED g) eqn:E. }
  split; (split; [|split; [done|]]).
  - induction n as [|n IH]; [done|].
    change (Nat.iter (S (S n)) LandUse.load_model g)
      with (LandUse.load_model (Nat.iter (S n) LandUse.load_model g)).
    rewrite IH. by apply land_use_load_model_loaded.
  - intros E. unfold LandUse.load_model. rewrite E. simpl.
    split; [done|]. split; [reflexivity|]. rewrite !length_app. simpl. lia.
  - induction n as [|n IH]; [done|].
    change (Nat.iter (S (S n)) BoundaryDetection.load_model g)
      with (BoundaryDetection.load_model (Nat.iter (S n) BoundaryDetection.load_model g)).
    rewrite IH. by apply boundary_load_model_loaded.
  - intros E. unfold BoundaryDetection.load_model. rewrite E. simpl.
    split; [done|]. split; [reflexivity|]. rewrite !length_app. simpl. lia.
Qed.

Lemma load_model_once_witness :
  MODEL_LOADED at_import = false
  /\ Nat.iter 3 LandUse.load_model at_import = LandUse.load_model at_import
  /\ slept (LandUse.load_model at_import) == 1 # 2
  /\ Nat.iter 3 BoundaryDetection.load_model at_import
     = BoundaryDetection.load_model at_import.
Proof.
  split; [reflexivity|].
  destruct (load_model_once at_import 2) as [(H1 & _ & H2) (H3 & _)].
  split; [exact H1|]. split; [|exact H3].
  destruct (H2 eq_refl) as (_ & Hs & _). rewrite Hs. reflexivity.
Defined.

End ModelHandleFacts.

(** ** More on land-use scoring *)

Module LandUseMore.
Import LandUse LandUseFacts.

Lemma confidence_le_sum l a :
  Forall nonneg l -> a ∈ l -> confidence a <= sum_confidence l.
Proof.
  induction 1 as [|b l Hb Hl IH]; intros Ha.
  - by apply elem_of_nil in Ha.
  - assert (Hsum : 0 <= sum_confidence l).
    { clear -Hl. induction Hl as [|c l Hc _ IH]; simpl; [lra|]. unfold nonneg in Hc. lra. }
    simpl. unfold nonneg in Hb.
    apply elem_of_cons in Ha as [->|Ha]; [lra|]. specialize (IH Ha). lra.
Qed.

(** X2. Whatever is drawn, the primary label is one of the ten categories
    and its confidence lies in [0.65, 0.95). *)
Theorem detect_land_use_primary geometry t :
  exists primary conf alternatives t',
    detect_land_use geometry t = Ok (primary, conf, alternatives, t')
    /\ primary ∈ LAND_USE_CATEGORIES
    /\ (65 # 100) <= conf < (95 # 100).
Proof.
  destruct (draw_alternatives_spec geometry t)
    as (primary & conf & drawn & t' & E & Hp & Hconf & _).
  exists primary, conf, (sort_desc drawn), t'.
  split; [by apply detect_land_use_draw | done].
Qed.

(** X3. The primary label is always the most confident one: every
    alternative has a confidence of at most 0.35, strictly below the primary
    confidence. *)
Theorem detect_land_use_primary_dominates geometry t :
  exists primary conf alternatives t',
    detect_land_use geometry t = Ok (primary, conf, alternatives, t')
    /\ Forall (fun a => confidence a <= 35 # 100 /\ confidence a < conf) alternatives.
Proof.
  destruct (draw_alternatives_spec geometry t)
    as (primary & conf & drawn & t' & E & _ & Hconf & _ & _ & _ & Hsum & Hpos).
  exists primary, conf, (sort_desc drawn), t'.
  split; [by apply detect_land_use_draw|].
  rewrite Forall_forall. intros a Ha. rewrite sort_desc_perm in Ha.
  pose proof (confidence_le_sum drawn a Hpos Ha). lra.
Qed.



(** X5. The category-detail lookup tells known from unknown: it returns the
    placeholder record exactly for the strings that are none of the ten
    categories. *)
Theorem get_land_use_details_unknown_iff (category : string) :
  get_land_use_details category = unknown_details
  <-> category ∉ LAND_USE_CATEGORIES.
Proof.
  split.
  - intros H Hin. revert H. unfold LAND_USE_CATEGORIES in Hin.
    rewrite !elem_of_cons, elem_of_nil in Hin.
    repeat (destruct Hin as [->|Hin]; [by vm_compute|]). done.
  - intros H. unfold get_land_use_details, dict_get.
    rewrite dict_of_lookup_None; [done|]. by rewrite details_keys.
Qed.

End LandUseMore.

(** ** More on the refiner *)

Module RefinerMore.
Import BoundaryDetection BoundaryFacts.

Lemma refine_polygon_type geometry t geometry' t' :
  refine_polygon geometry t = Ok (geometry', t') -> type geometry' = type geometry.
Proof.
  unfold refine_polygon. destruct (String.eqb (type geometry) "Polygon").
  - intros H. apply bind_Ok in H as (rings & t1 & _ & H).
    apply bind_Ok in H as (res & t2 & _ & H). by apply ret_Ok in H as [-> _].
  - by intros [-> _]%ret_Ok.
Qed.

(** *** Rings too long or too short for densification *)

Lemma refine_ring_large points ring' t t' :
  (20 <= len points)%Z ->
  refine_ring (Arr points) t = Ok (ring', t') ->
  exists p points',
    ring' = Arr points' /\ perturbed points p /\ close_ring p = Ok points'.
Proof.
  intros Hlen H. unfold refine_ring in H.
  apply bind_Ok in H as (pts & t1 & [[= <-] ->]%lift_Ok & H).
  apply bind_Ok in H as (p & t2 & Hp%perturb_loop_perturbed & H).
  apply bind_Ok in H as (d & t3 & Hd & H).
  apply bind_Ok in H as (points' & t4 & [Hc ->]%lift_Ok & H).
  apply ret_Ok in H as [-> _].
  unfold densify in Hd. destruct (Z.ltb_spec (len points) 20) as [?|_]; [lia|].
  apply ret_Ok in Hd as [-> _]. by exists p, points'.
Qed.

(** X6. Rings of 20 points or more are not densified: such a ring comes
    back with its interior positions displaced and no position put in, so
    with the length it had when it was closed, and one more (the closing copy
    of its first point) when it was not. *)
Theorem refine_polygon_large_rings geometry t geometry' t' :
  type geometry = "Polygon"%string ->
  refine_polygon geometry t = Ok (geometry', t') ->
  Forall2 (fun ring ring' =>
     forall points, ring = Arr points -> (20 <= len points)%Z ->
     exists p points',
       ring' = Arr points' /\ perturbed points p
       /\ ((ring_closed ring = true /\ points' = p)
           \/ (ring_closed ring = false
               /\ exists first, head points = Some first /\ points' = p ++ [first])))
    (rings_of geometry) (rings_of geometry').
Proof.
  intros Ht H.
  apply refine_polygon_Ok in H as (_ & rings & rings' & E & E' & Hrings); [|done].
  unfold rings_of. rewrite E, E'.
  eapply Forall2_impl; [done|]. intros ring ring' (t1 & t2 & Hr) points -> Hlen.
  apply refine_ring_large in Hr as (p & points' & -> & Hp & Hc); [|done].
  exists p, points'. split; [done|]. split; [done|].
  pose proof (perturbed_head _ _ Hp) as Hh.
  pose proof (perturbed_last _ _ Hp) as Hl.
  apply close_ring_Ok in Hc as (first & last_ & Hf & Hla & [[Eq ->]|[Eq ->]]).
  - left. split; [|done]. simpl. by rewrite <- Hh, <- Hl, Hf, Hla.
  - right. split; [simpl; by rewrite <- Hh, <- Hl, Hf, Hla|].
    exists first. split; [congruence | done].
Qed.

Lemma refine_polygon_large_rings_witness :
  type long_parcel = "Polygon"%string
  /\ refine_polygon long_parcel [] = Ok (long_parcel_refined, [])
  /\ Forall2 (fun ring ring' =>
       forall points, ring = Arr points -> (20 <= len points)%Z ->
       exists p points',
         ring' = Arr points' /\ perturbed points p
         /\ ((ring_closed ring = true /\ points' = p)
             \/ (ring_closed ring = false
                 /\ exists first, head points = Some first /\ points' = p ++ [first])))
      (rings_of long_parcel) (rings_of long_parcel_refined).
Proof.
  split; [reflexivity|]. split; [vm_compute; reflexivity|].
  apply (refine_polygon_large_rings long_parcel [] long_parcel_refined []);
    [reflexivity | vm_compute; reflexivity].
Defined.

Lemma Qfloor_third u : 1 # 3 <= u -> (1 <= Qfloor (u * 3))%Z.
Proof.
  intros Hu. change 1%Z with (Qfloor 1). apply Qfloor_resp_le. lra.
Qed.

Lemma insert_points_short rounds (l : list coords_t) t :
  (length l < 3)%nat -> insert_points (S rounds) l t = Raise ValueError.
Proof.
  intros Hl. cbn [insert_points]. unfold bind, insert_point, randint.
  destruct (Z.ltb_spec (len l - 2) 1) as [_|?]; [done | unfold len in *; lia].
Qed.

(** X7. A ring too short to have an interior segment makes the refiner
    fail as soon as it densifies: when the first ring has fewer than three
    points, nothing is drawn for its vertices, and a first draw of 1/3 or
    more (a densification count of 1 or 2) raises [ValueError]. *)
Theorem refine_polygon_short_ring points rings (d : draw) t :
  (length points < 3)%nat -> 1 # 3 <= draw_val d ->
  refine_polygon (Geometry "Polygon" (Arr (Arr points :: rings))) (d :: t)
  = Raise ValueError.
Proof.
  intros Hlen Hd.
  assert (Hp : perturb_loop (len points) 0 points [] (d :: t) = Ok (points, d :: t)).
  { destruct points as [|a [|b [|c ?]]]; [done | done | done | simpl in Hlen; lia]. }
  assert (Hrounds : exists r, Z.to_nat (0 + Qfloor (draw_val d * inject_Z (2 - 0 + 1))) = S r).
  { pose proof (Qfloor_third _ Hd) as H. change (inject_Z (2 - 0 + 1)) with 3.
    exists (Z.to_nat (Qfloor (draw_val d * 3)) - 1)%nat. lia. }
  destruct Hrounds as [r Hr].
  unfold refine_polygon. cbn [type coordinates String.eqb Ascii.eqb Bool.eqb].
  unfold bind at 1. cbn [lift iter].
  unfold bind at 1. cbn [refine_rings]. unfold bind at 1.
  unfold refine_ring. unfold bind at 1. cbn [lift iter].
  unfold bind at 1. rewrite Hp.
  unfold bind at 1. unfold densify.
  destruct (Z.ltb_spec (len points) 20) as [_|?]; [|unfold len in *; lia].
  unfold bind at 1. unfold randint at 1. cbn [Z.ltb Z.compare].
  unfold bind at 1. unfold randbelow. unfold bind at 1. cbn [random ret].
  rewrite Hr. by rewrite insert_points_short.
Qed.

Lemma refine_polygon_short_ring_witness :
  let two := [position 1 1; position 1 1] in
  let d := Draw (1 # 2) eq_refl in
  (length two < 3)%nat /\ 1 # 3 <= draw_val d
  /\ refine_polygon (Geometry "Polygon" (Arr [Arr two])) [d] = Raise ValueError.
Proof.
  intros two d.
  assert (H1 : (length two < 3)%nat) by (simpl; lia).
  assert (H2 : 1 # 3 <= draw_val d) by (by vm_compute).
  split; [exact H1|]. split; [exact H2|].
  exact (refine_polygon_short_ring two [] d [] H1 H2).
Defined.

Lemma refines_empty ring' : ~ refines (Arr []) ring'.
Proof.
  intros (t & t' & H).
  apply refine_ring_Ok in H as (points & p & n & d & points' & [= <-] & _ & Hp & _ & Hd & Hc).
  destruct Hp as [Hlen _]. destruct p; [|done].
  assert (d = []) as ->.
  { inversion Hd as [|? ? ? ? (k & x & Hk & _) _]; [done | simpl in Hk; lia]. }
  by apply close_ring_Ok in Hc as (? & ? & ? & _).
Qed.

(** X8. A Polygon with an empty ring is never refined: whatever is drawn,
    [refine_polygon] raises. *)
Theorem refine_polygon_empty_ring geometry t :
  type geometry = "Polygon"%string -> Arr [] ∈ rings_of geometry ->
  exists e, refine_polygon geometry t = Raise e.
Proof.
  intros Ht Hin.
  destruct (refine_polygon geometry t) as [[geometry' t']|e] eqn:H; [|by exists e].
  exfalso.
  apply refine_polygon_Ok in H as (_ & rings & rings' & E & E' & Hrings); [|done].
  unfold rings_of in Hin. rewrite E in Hin.
  apply list_elem_of_lookup in Hin as (j & Hj).
  destruct (Forall2_lookup_l _ _ _ _ _ Hrings Hj) as (r' & _ & Hr).
  by apply refines_empty in Hr.
Qed.

Lemma refine_polygon_empty_ring_witness :
  let geometry := Geometry "Polygon" (Arr [parcel_exterior; Arr []]) in
  type geometry = "Polygon"%string /\ Arr [] ∈ rings_of geometry
  /\ exists e, refine_polygon geometry parcel_tape = Raise e.
Proof.
  intros geometry.
  assert (H : Arr [] ∈ rings_of geometry) by (right; left).
  split; [reflexivity|]. split; [exact H|].
  exact (refine_polygon_empty_ring geometry parcel_tape eq_refl H).
Defined.

(** *** Where the new points go *)

Lemma midpoint_coordinate_Ok a b k t x t' :
  midpoint_coordinate a b k t = Ok (x, t') ->
  exists ak bk,
    getitem a k = Ok (Num ak) /\ getitem b k = Ok (Num bk)
    /\ Qabs (x - (ak + bk) / 2) <= 25 # 1000000.
Proof.
  unfold midpoint_coordinate. intros H.
  apply bind_Ok in H as (ca & t1 & [Ea ->]%lift_Ok & H).
  apply bind_Ok in H as (cb & t2 & [Eb ->]%lift_Ok & H).
  apply bind_Ok in H as (ak & t3 & [Eak ->]%lift_Ok & H).
  apply bind_Ok in H as (bk & t4 & [Ebk ->]%lift_Ok & H).
  apply bind_Ok in H as (u & t5 & Hu%random_Ok & H).
  apply ret_Ok in H as [-> _].
  destruct ca as [xa|]; [|discriminate]. injection Eak as ->.
  destruct cb as [xb|]; [|discriminate]. injection Ebk as ->.
  exists ak, bk. split; [done|]. split; [done|].
  apply Qabs_Qle_condition. split; lra.
Qed.

(** X9. One round of densification puts one new two-float position into
    the ring, between two neighbours that are not the first point, so never
    before the first point nor after the last; the new position is within
    0.000025 degrees, in longitude and in latitude, of the midpoint of the
    two neighbours. *)
Theorem insert_point_midpoint (improved_ring improved_ring' : list coords_t) t t' :
  insert_point improved_ring t = Ok (improved_ring', t') ->
  exists (k : nat) a b ax ay bx by_ x y,
    (1 <= k /\ k + 1 < length improved_ring)%nat
    /\ improved_ring !! k = Some a /\ improved_ring !! (k + 1)%nat = Some b
    /\ getitem a 0 = Ok (Num ax) /\ getitem a 1 = Ok (Num ay)
    /\ getitem b 0 = Ok (Num bx) /\ getitem b 1 = Ok (Num by_)
    /\ improved_ring' = take (k + 1) improved_ring
                          ++ Arr [Num x; Num y] :: drop (k + 1) improved_ring
    /\ Qabs (x - (ax + bx) / 2) <= 25 # 1000000
    /\ Qabs (y - (ay + by_) / 2) <= 25 # 1000000.
Proof.
  unfold insert_point. intros H.
  apply bind_Ok in H as (idx & t1 & Hidx%randint_Ok & H).
  apply bind_Ok in H as (a & t2 & [Ea ->]%lift_Ok & H).
  apply bind_Ok in H as (b & t3 & [Eb ->]%lift_Ok & H).
  apply bind_Ok in H as (x & t4 & (ax & bx & Hax & Hbx & Hx)%midpoint_coordinate_Ok & H).
  apply bind_Ok in H as (y & t5 & (ay & by_ & Hay & Hby & Hy)%midpoint_coordinate_Ok & H).
  apply ret_Ok in H as [-> _]. unfold len in Hidx.
  rewrite list_getitem_nonneg in Ea, Eb by lia.
  destruct (improved_ring !! Z.to_nat idx) as [a'|] eqn:Ha; [|discriminate].
  destruct (improved_ring !! Z.to_nat (idx + 1)) as [b'|] eqn:Hb; [|discriminate].
  injection Ea as ->. injection Eb as ->.
  replace (Z.to_nat (idx + 1)) with (Z.to_nat idx + 1)%nat in Hb by lia.
  exists (Z.to_nat idx), a, b, ax, ay, bx, by_, x, y.
  split; [lia|]. do 6 (split; [done|]). split; [|done].
  rewrite list_insert_at_inner by (unfold len; lia).
  by replace (Z.to_nat (idx + 1)) with (Z.to_nat idx + 1)%nat by lia.
Qed.

Lemma insert_point_midpoint_witness :
  exists improved_ring' (k : nat) a b ax ay bx by_ x y,
    insert_point insert_example parcel_tape = Ok (improved_ring', drop 3 parcel_tape)
    /\ (1 <= k /\ k + 1 < length insert_example)%nat
    /\ insert_example !! k = Some a /\ insert_example !! (k + 1)%nat = Some b
    /\ getitem a 0 = Ok (Num ax) /\ getitem a 1 = Ok (Num ay)
    /\ getitem b 0 = Ok (Num bx) /\ getitem b 1 = Ok (Num by_)
    /\ improved_ring' = take (k + 1) insert_example
                          ++ Arr [Num x; Num y] :: drop (k + 1) insert_example
    /\ Qabs (x - (ax + bx) / 2) <= 25 # 1000000
    /\ Qabs (y - (ay + by_) / 2) <= 25 # 1000000.
Proof.
  destruct (insert_point insert_example parcel_tape) as [[l' t']|e] eqn:E;
    [|by vm_compute in E].
  assert (Ht : t' = drop 3 parcel_tape).
  { vm_compute in E. by injection E as _ <-. }
  subst t'.
  destruct (insert_point_midpoint _ _ _ _ E)
    as (k & a & b & ax & ay & bx & by_ & x & y & H).
  exists l', k, a, b, ax, ay, bx, by_, x, y. split; [reflexivity | exact H].
Defined.

End RefinerMore.

(** ** [improve_existing_boundary] *)

Module ImproveMore.
Import BoundaryDetection BoundaryFacts RefinerMore.

Section Improve.

Variables cos sqrt : Q -> Q.

Lemma sum_coordinate_total k points : forall total,
  (k = 0 \/ k = 1)%Z -> Forall (fun v => is_geopoint v = true) points ->
  exists s, sum_coordinate k points total = Ok s.
Proof.
  induction points as [|point points IH]; intros total Hk Hgeo; simpl; [eauto|].
  apply Forall_cons in Hgeo as [Hpoint Hgeo].
  destruct (is_geopoint_getitem _ Hpoint) as (x & y & Ex & Ey).
  destruct Hk as [-> | ->].
  - rewrite Ex. simpl. by apply IH; [left|].
  - rewrite Ey. simpl. by apply IH; [right|].
Qed.

Lemma centre_and_radius_total geometry t :
  is_polygon 1 geometry = true -> rings_of geometry <> [] ->
  exists c, centre_and_radius cos sqrt geometry t = Ok (c, t).
Proof.
  intros (Ht & rings & Ec & Hrings)%is_polygon_inv Hne.
  unfold rings_of in Hne. rewrite Ec in Hne.
  destruct rings as [|ring rings]; [done|].
  apply Forall_cons in Hrings as [Hring _].
  apply is_ring_Arr in Hring as (points & -> & Hlen & Hgeo).
  destruct points as [|first points]; [unfold len in Hlen; simpl in Hlen; lia|].
  destruct (sum_coordinate_total 0 (first :: points) 0) as (lon_sum & Elon);
    [by left | done |].
  destruct (sum_coordinate_total 1 (first :: points) 0) as (lat_sum & Elat);
    [by right | done |].
  apply Forall_cons in Hgeo as [Hfirst _].
  destruct (is_geopoint_getitem _ Hfirst) as (x & y & Ex & Ey).
  assert (Hn : ~ inject_Z (len (first :: points)) == 0).
  { unfold Qeq, len. simpl. lia. }
  unfold centre_and_radius. rewrite Ht, Ec, String.eqb_refl.
  eexists.
  apply bind_Ok. exists (Arr (first :: points)), t. split; [done|].
  apply bind_Ok. exists (first :: points), t. split; [done|].
  apply bind_Ok. exists lon_sum, t. split; [by apply lift_Ok|].
  apply bind_Ok. exists lat_sum, t. split; [by apply lift_Ok|].
  apply bind_Ok. eexists _, t.
  split; [apply lift_Ok; split; [by apply SynthesizerFacts.fdiv_total | done]|].
  apply bind_Ok. eexists _, t.
  split; [apply lift_Ok; split; [by apply SynthesizerFacts.fdiv_total | done]|].
  apply bind_Ok. exists first, t. split; [done|].
  apply bind_Ok. exists (Num x), t. split; [by apply lift_Ok|].
  apply bind_Ok. exists x, t. split; [done|].
  apply bind_Ok. exists (Num y), t. split; [by apply lift_Ok|].
  apply bind_Ok. exists y, t. split; [done|].
  reflexivity.
Qed.

Lemma improve_existing_boundary_returns geometry t :
  is_polygon 3 geometry = true -> rings_of geometry <> [] ->
  exists geometry' confidence t',
    improve_existing_boundary cos sqrt geometry t = Ok (geometry', confidence, t').
Proof.
  intros Hg Hne.
  assert (Hg1 : is_polygon 1 geometry = true).
  { apply is_polygon_inv in Hg as (Ht & rings & Ec & Hrings).
    unfold is_polygon. rewrite Ht, Ec. simpl.
    rewrite forallb_forall. intros r Hr. apply (is_ring_mono 3); [lia|].
    rewrite Forall_forall in Hrings. apply Hrings. by apply list_elem_of_In. }
  destruct (centre_and_radius_total geometry t Hg1 Hne) as (c & Ec).
  destruct (refine_polygon_returns geometry t Hg) as (geometry' & t1 & Er).
  destruct (random_total t1) as (u & t2 & Eu & _).
  eexists _, _, t2. unfold improve_existing_boundary.
  apply bind_Ok. exists c, t. split; [done|].
  apply bind_Ok. exists geometry', t1. split; [done|].
  apply bind_Ok. exists u, t2. split; [done|]. reflexivity.
Qed.

(** X10. What [improve_existing_boundary] returns has the type of the
    input and a confidence in [0.85, 0.99); and it returns for every Polygon
    with at least one ring whose rings are lists of at least three
    positions. *)
Theorem improve_existing_boundary_result geometry t :
  (is_polygon 3 geometry = true -> rings_of geometry <> [] ->
   exists geometry' confidence t',
     improve_existing_boundary cos sqrt geometry t = Ok (geometry', confidence, t'))
  /\ (forall geometry' confidence t',
        improve_existing_boundary cos sqrt geometry t = Ok (geometry', confidence, t') ->
        type geometry' = type geometry
        /\ (85 # 100) <= confidence < (99 # 100)).
Proof.
  split; [apply improve_existing_boundary_returns|].
  intros geometry' confidence t' H. unfold improve_existing_boundary in H.
  apply bind_Ok in H as (c & t1 & _ & H).
  apply bind_Ok in H as (g' & t2 & Hr%refine_polygon_type & H).
  apply bind_Ok in H as (u & t3 & Hu%random_Ok & H).
  apply ret_Ok in H as [[= -> ->] _]. split; [done | lra].
Qed.

(** X11. A Polygon without rings is refined to itself by [refine_polygon],
    but [improve_existing_boundary] raises [IndexError] on it; and on a
    Polygon whose first ring is empty it raises [ZeroDivisionError]: the
    centre is computed before anything else. *)
Theorem improve_existing_boundary_degenerate rings t :
  refine_polygon (Geometry "Polygon" (Arr [])) t
  = Ok (Geometry "Polygon" (Arr []), t)
  /\ improve_existing_boundary cos sqrt (Geometry "Polygon" (Arr [])) t
     = Raise IndexError
  /\ improve_existing_boundary cos sqrt (Geometry "Polygon" (Arr (Arr [] :: rings))) t
     = Raise ZeroDivisionError.
Proof. done. Qed.

(** X12. On an input whose type is not Polygon [improve_existing_boundary]
    never raises, whatever the coordinates are: it returns the input as it is
    with the confidence 0.85 + 0.14 u for the one number u it draws. *)
Theorem improve_existing_boundary_passthrough geometry t :
  type geometry <> "Polygon"%string ->
  exists u t',
    random t = Ok (u, t')
    /\ improve_existing_boundary cos sqrt geometry t
       = Ok (geometry, (85 # 100) + u * (14 # 100), t').
Proof.
  intros Ht. destruct (random_total t) as (u & t' & Eu & _).
  exists u, t'. split; [done|].
  unfold improve_existing_boundary, centre_and_radius, refine_polygon.
  destruct (String.eqb_spec (type geometry) "Polygon") as [?|_]; [done|].
  unfold bind, ret. rewrite Eu. by destruct geometry.
Qed.

End Improve.

Lemma improve_existing_boundary_result_witness :
  let cos := fun _ : Q => 1 in
  let sqrt := fun _ : Q => 0 in
  is_polygon 3 parcel = true /\ rings_of parcel <> []
  /\ exists geometry' confidence t',
       improve_existing_boundary cos sqrt parcel parcel_tape
       = Ok (geometry', confidence, t').
Proof.
  intros cos sqrt.
  assert (H1 : is_polygon 3 parcel = true) by reflexivity.
  assert (H2 : rings_of parcel <> []) by discriminate.
  split; [exact H1|]. split; [exact H2|].
  exact (proj1 (improve_existing_boundary_result cos sqrt parcel parcel_tape) H1 H2).
Defined.

Lemma improve_existing_boundary_passthrough_witness :
  let cos := fun _ : Q => 1 in
  let sqrt := fun _ : Q => 0 in
  type point_geometry <> "Polygon"%string
  /\ exists u t',
       random parcel_tape = Ok (u, t')
       /\ improve_existing_boundary cos sqrt point_geometry parcel_tape
          = Ok (point_geometry, (85 # 100) + u * (14 # 100), t').
Proof.
  intros cos sqrt.
  assert (H : type point_geometry <> "Polygon"%string) by discriminate.
  split; [exact H|].
  exact (improve_existing_boundary_passthrough cos sqrt point_geometry parcel_tape H).
Defined.

End ImproveMore.

(** ** More on the synthesizer *)

Module SynthesizerMore.
Import BoundaryDetection BoundaryFacts SynthesizerFacts.

Section Synthesizer.

Variables sin cos : Q -> Q.

Lemma scaled_le (x y z : Q) :
  0 <= x <= 1 -> 0 <= y -> 0 <= z -> z <= (12 # 10) -> x * y * z <= (12 # 10) * y.
Proof.
  intros [Hx0 Hx] Hy Hz0 Hz.
  assert (H1 : 0 <= x * y) by nra.
  assert (H2 : x * y <= y) by nra.
  assert (H3 : 0 <= (x * y) * ((12 # 10) - z)) by (apply Qmult_le_0_compat; lra).
  lra.
Qed.

Lemma vertex_loop_vertices clat clon rlat rlon n todo : forall i acc t res t',
  vertex_loop sin cos clat clon rlat rlon n todo i acc t = Ok (res, t') ->
  exists new, res = acc ++ new /\ length new = todo
    /\ Forall (vertex sin cos clat clon rlat rlon) new.
Proof.
  induction todo as [|todo IH]; intros i acc t res t' H; cbn [vertex_loop] in H.
  - apply ret_Ok in H as [-> _]. exists []. by rewrite app_nil_r.
  - apply bind_Ok in H as (q & t1 & _ & H).
    apply bind_Ok in H as (u1 & t2 & Hu1%random_Ok & H).
    apply bind_Ok in H as (u2 & t3 & Hu2%random_Ok & H).
    apply bind_Ok in H as (u3 & t4 & Hu3%random_Ok & H).
    apply IH in H as (new & -> & Hlen & Hnew).
    eexists (_ :: new). split; [by rewrite <- app_assoc|].
    split; [simpl; by rewrite Hlen|]. constructor; [|done].
    eexists _, ((7 # 10) + u1 * (3 # 10)), (u2 * (2 # 10)).
    split; [lra|]. split; [lra|]. reflexivity.
Qed.

Lemma detect_boundaries_from_coords_Ok lat lon radius_m t geometry confidence t' :
  detect_boundaries_from_coords sin cos lat lon radius_m t = Ok (geometry, confidence, t') ->
  exists points first,
    geometry = Geometry "Polygon" (Arr [Arr (points ++ [first])])
    /\ head points = Some first /\ (6 <= length points <= 10)%nat
    /\ ~ cos (lat * pi / 180) == 0
    /\ Forall (vertex sin cos lat lon (inject_Z radius_m / 110540)
                 (inject_Z radius_m / (111320 * cos (lat * pi / 180))))
         points.
Proof.
  unfold detect_boundaries_from_coords, generate_realistic_polygon. intros H.
  apply bind_Ok in H as (polygon & t1 & Hp & H).
  apply bind_Ok in H as (u & t2 & _ & H).
  apply ret_Ok in H as [[= -> ->] _].
  apply bind_Ok in Hp as (rlat & t3 & [[_ ->]%fdiv_Ok _]%lift_Ok & Hp).
  apply bind_Ok in Hp as (rlon & t4 & [[Hcos ->]%fdiv_Ok _]%lift_Ok & Hp).
  apply bind_Ok in Hp as (n & t5 & Hn%randint_Ok & Hp).
  apply bind_Ok in Hp as (coords & t6 & (new & Hnew & Hlen & Hv)%vertex_loop_vertices & Hp).
  apply bind_Ok in Hp as (first & t7 & [Hfirst _]%lift_Ok & Hp).
  apply bind_Ok in Hp as (c & t8 & [Hc _]%lift_Ok & Hp).
  apply ret_Ok in Hp as [-> _]. simpl in Hnew. subst new.
  rewrite list_getitem_0 in Hfirst.
  destruct coords as [|first' coords]; [discriminate|].
  simpl in Hfirst. injection Hfirst as ->.
  destruct first as [|l]; [discriminate|]. simpl in Hc. injection Hc as <-.
  exists (Arr l :: coords), (Arr l). split; [done|]. split; [done|].
  split; [lia|]. split; [|done]. intros E. apply Hcos. rewrite E. ring.
Qed.




(** X15. No vertex is further from the centre than 1.2 times the radius,
    in degrees of latitude and of longitude, provided sines and cosines are
    at most 1 in absolute value. *)
Theorem detect_boundaries_from_coords_within lat lon radius_m t geometry confidence t' :
  (forall x, Qabs (sin x) <= 1) -> (forall x, Qabs (cos x) <= 1) ->
  detect_boundaries_from_coords sin cos lat lon radius_m t = Ok (geometry, confidence, t') ->
  exists points,
    geometry = Geometry "Polygon" (Arr [Arr points])
    /\ Forall (fun point =>
         exists lon' lat',
           point = Arr [Num lon'; Num lat']
           /\ Qabs (lat' - lat) <= (12 # 10) * Qabs (inject_Z radius_m / 110540)
           /\ Qabs (lon' - lon)
              <= (12 # 10) * Qabs (inject_Z radius_m / (111320 * cos (lat * pi / 180))))
       points.
Proof.
  intros Hsin Hcos (points & first & -> & Hh & Hlen & _ & Hv)%detect_boundaries_from_coords_Ok.
  exists (points ++ [first]). split; [done|].
  assert (Hfirst : first ∈ points).
  { destruct points; [done|]. injection Hh as ->. by left. }
  assert (Hall : Forall (vertex sin cos lat lon (inject_Z radius_m / 110540)
                 (inject_Z radius_m / (111320 * cos (lat * pi / 180))))
                 (points ++ [first])).
  { apply Forall_app. split; [done|]. constructor; [|done].
    rewrite Forall_forall in Hv. by apply Hv. }
  eapply Forall_impl; [exact Hall|].
  intros point (a & rf & nz & Hrf & Hnz & ->).
  assert (Hbound : forall s r, Qabs s <= 1 ->
            Qabs (s * r * rf * (1 + nz)) <= (12 # 10) * Qabs r).
  { intros s r Hs.
    assert (E : s * r * rf * (1 + nz) == (s * r) * (rf * (1 + nz))) by ring.
    rewrite E, (Qabs_Qmult (s * r)), (Qabs_Qmult s r).
    assert (Hrfn : Qabs (rf * (1 + nz)) <= 12 # 10).
    { apply Qabs_Qle_condition. split; nra. }
    pose proof (Qabs_nonneg s). pose proof (Qabs_nonneg r).
    pose proof (Qabs_nonneg (rf * (1 + nz))).
    by apply (scaled_le (Qabs s) (Qabs r) (Qabs (rf * (1 + nz)))). }
  eexists _, _. split; [reflexivity|]. split.
  - specialize (Hbound (sin a) (inject_Z radius_m / 110540) (Hsin a)).
    eapply Qle_trans; [|exact Hbound]. apply Qle_lteq. right.
    apply Qabs_wd. ring.
  - specialize (Hbound (cos a) (inject_Z radius_m / (111320 * cos (lat * pi / 180)))
                  (Hcos a)).
    eapply Qle_trans; [|exact Hbound]. apply Qle_lteq. right.
    apply Qabs_wd. ring.
Qed.

(** X16. With a radius of 0 the polygon collapses: every vertex is at the
    centre. *)
Theorem detect_boundaries_from_coords_radius_0 lat lon t geometry confidence t' :
  detect_boundaries_from_coords sin cos lat lon 0 t = Ok (geometry, confidence, t') ->
  exists points,
    geometry = Geometry "Polygon" (Arr [Arr points])
    /\ Forall (fun point =>
         exists lon' lat',
           point = Arr [Num lon'; Num lat'] /\ lon' == lon /\ lat' == lat)
       points.
Proof.
  intros (points & first & -> & Hh & Hlen & _ & Hv)%detect_boundaries_from_coords_Ok.
  exists (points ++ [first]). split; [done|].
  assert (Hfirst : first ∈ points).
  { destruct points; [done|]. injection Hh as ->. by left. }
  assert (Hall : Forall (vertex sin cos lat lon (inject_Z 0 / 110540)
                 (inject_Z 0 / (111320 * cos (lat * pi / 180))))
                 (points ++ [first])).
  { apply Forall_app. split; [done|]. constructor; [|done].
    rewrite Forall_forall in Hv. by apply Hv. }
  eapply Forall_impl; [exact Hall|].
  intros point (a & rf & nz & _ & _ & ->).
  eexists _, _. split; [reflexivity|].
  assert (E : forall y, inject_Z 0 / y == 0) by (intros y; unfold Qdiv; ring).
  split; rewrite E; ring.
Qed.

End Synthesizer.



Lemma detect_boundaries_from_coords_within_witness :
  let cos := fun _ : Q => 1 in
  let sin := fun _ : Q => 0 in
  exists geometry confidence t' points,
    detect_boundaries_from_coords sin cos 8 (-13) 500 parcel_tape
    = Ok (geometry, confidence, t')
    /\ geometry = Geometry "Polygon" (Arr [Arr points])
    /\ Forall (fun point =>
         exists lon' lat',
           point = Arr [Num lon'; Num lat']
           /\ Qabs (lat' - 8) <= (12 # 10) * Qabs (inject_Z 500 / 110540)
           /\ Qabs (lon' - -13)
              <= (12 # 10) * Qabs (inject_Z 500 / (111320 * cos (8 * pi / 180))))
       points.
Proof.
  intros cos sin.
  destruct (detect_boundaries_from_coords sin cos 8 (-13) 500 parcel_tape)
    as [[[geometry confidence] t']|e] eqn:E; [|by vm_compute in E].
  destruct (detect_boundaries_from_coords_within sin cos 8 (-13) 500 parcel_tape
              geometry confidence t') as (points & Hg & Hpoints).
  - intros x. by vm_compute.
  - intros x. by vm_compute.
  - exact E.
  - by exists geometry, confidence, t', points.
Defined.

Lemma detect_boundaries_from_coords_radius_0_witness :
  let cos := fun _ : Q => 1 in
  let sin := fun _ : Q => 0 in
  exists geometry confidence t' points,
    detect_boundaries_from_coords sin cos 8 (-13) 0 parcel_tape
    = Ok (geometry, confidence, t')
    /\ geometry = Geometry "Polygon" (Arr [Arr points])
    /\ Forall (fun point =>
         exists lon' lat',
           point = Arr [Num lon'; Num lat'] /\ lon' == -13 /\ lat' == 8)
       points.
Proof.
  intros cos sin.
  destruct (detect_boundaries_from_coords sin cos 8 (-13) 0 parcel_tape)
    as [[[geometry confidence] t']|e] eqn:E; [|by vm_compute in E].
  destruct (detect_boundaries_from_coords_radius_0 sin cos 8 (-13) parcel_tape
              geometry confidence t' E) as (points & Hg & Hpoints).
  by exists geometry, confidence, t', points.
Defined.

End SynthesizerMore.

(** ** What the output of the refiner shares with its input *)

Module SharingFacts.
Import BoundaryHeap.

(** *** What the operations on the store return *)

Lemma reads_ret {A} (a : A) : reads (ret a).
Proof. by intros s b s' [= _ <-]. Qed.

Lemma reads_bind {A B} (m : HM A) (k : A -> HM B) :
  reads m -> (forall a, reads (k a)) -> reads (bind m k).
Proof.
  intros Hm Hk s b s' H. apply bind_Ok in H as (a & s1 & H1 & H2).
  rewrite (Hk _ _ _ _ H2). by apply (Hm _ _ _ H1).
Qed.

Lemma reads_lift {A} (r : result A) : reads (lift r).
Proof. intros s a s' H. by apply lift_Ok in H as [_ ->]. Qed.

Lemma reads_rnd {A} (m : M A) : reads (rnd m).
Proof.
  intros s a s' H. unfold rnd in H.
  destruct (m s.2) as [[a' t']|e]; [|done]. by injection H as _ <-.
Qed.

Lemma load_Ok v items s s' :
  load v s = Ok (items, s') ->
  exists l : loc, v = VRef l /\ s.1 !! l = Some items /\ s' = s.
Proof.
  unfold load. destruct v as [x|l]; [done|].
  destruct (s.1 !! l) as [items'|] eqn:E; [|done].
  intros [= <- <-]. by exists l.
Qed.

Lemma reads_load v : reads (load v).
Proof. intros s a s' H. by apply load_Ok in H as (l & _ & _ & ->). Qed.

Lemma reads_getitem v i : reads (getitem v i).
Proof. apply reads_bind; [apply reads_load | intros; apply reads_lift]. Qed.

Lemma reads_length_of v : reads (length_of v).
Proof. apply reads_bind; [apply reads_load | intros; apply reads_ret]. Qed.

Lemma reads_ne_fuel fuel v w : reads (ne_fuel fuel v w).
Proof.
  intros s a s' H. unfold ne_fuel in H.
  destruct (eqb_fuel fuel s.1 v w); [|done]. by injection H as _ <-.
Qed.

Lemma reads_ne v w : reads (ne v w).
Proof. apply reads_ne_fuel. Qed.

Lemma reads_perturb_coordinate point k adjustment :
  reads (perturb_coordinate point k adjustment).
Proof.
  apply reads_bind; [apply reads_getitem|]. intros c.
  apply reads_bind; [apply reads_rnd|]. intros u.
  apply reads_bind; [apply reads_lift|]. intros x. apply reads_ret.
Qed.

Lemma reads_midpoint_coordinate a b k : reads (midpoint_coordinate a b k).
Proof.
  apply reads_bind; [apply reads_getitem|]. intros ak.
  apply reads_bind; [apply reads_getitem|]. intros bk.
  apply reads_bind; [apply reads_lift|]. intros x.
  apply reads_bind; [apply reads_lift|]. intros y.
  apply reads_bind; [apply reads_rnd|]. intros u. apply reads_ret.
Qed.

Lemma getitem_Ok (l : loc) i x h t s' items :
  h !! l = Some items ->
  getitem (VRef l) i (h, t) = Ok (x, s') ->
  list_getitem items i = Ok x /\ s' = (h, t).
Proof.
  intros Hl H. apply bind_Ok in H as (items' & s1 & H1 & H2).
  apply load_Ok in H1 as (l' & [= <-] & E & ->). simpl in E.
  apply lift_Ok in H2 as [H2 ->]. by replace items with items' by congruence.
Qed.

Lemma length_of_Ok (l : loc) n h t s' items :
  h !! l = Some items ->
  length_of (VRef l) (h, t) = Ok (n, s') -> n = len items /\ s' = (h, t).
Proof.
  intros Hl H. apply bind_Ok in H as (items' & s1 & H1 & H2).
  apply load_Ok in H1 as (l' & [= <-] & E & ->). simpl in E.
  apply ret_Ok in H2 as [-> ->]. by replace items with items' by congruence.
Qed.

Lemma alloc_Ok items h t v s' :
  alloc items (h, t) = Ok (v, s') ->
  exists l : loc, v = VRef l /\ h !! l = None /\ s' = (<[l := items]> h, t).
Proof.
  intros [= <- <-]. exists (fresh (dom h)). split; [done|]. split; [|done].
  apply not_elem_of_dom, is_fresh.
Qed.

Lemma append_Ok (l : loc) x h t u s' items :
  h !! l = Some items ->
  append (VRef l) x (h, t) = Ok (u, s') -> s' = (<[l := items ++ [x]]> h, t).
Proof.
  intros Hl H. apply bind_Ok in H as (items' & s1 & H1 & H2).
  apply load_Ok in H1 as (l' & [= <-] & E & ->). simpl in E.
  injection H2 as <-. by replace items with items' by congruence.
Qed.

Lemma insert_Ok (l : loc) i x h t u s' items :
  h !! l = Some items ->
  insert (VRef l) i x (h, t) = Ok (u, s') ->
  s' = (<[l := list_insert_at items i x]> h, t).
Proof.
  intros Hl H. apply bind_Ok in H as (items' & s1 & H1 & H2).
  apply load_Ok in H1 as (l' & [= <-] & E & ->). simpl in E.
  injection H2 as <-. by replace items with items' by congruence.
Qed.

Lemma copy_Ok v c h t s' :
  copy v (h, t) = Ok (c, s') ->
  exists (l : loc) items,
    c = VRef l /\ h !! l = None /\ s' = (<[l := items]> h, t).
Proof.
  destruct v as [x|l0]; [done|]. intros H.
  apply bind_Ok in H as (items & s1 & H1 & H2).
  apply load_Ok in H1 as (l' & _ & _ & ->).
  apply alloc_Ok in H2 as (l & -> & Hl & ->). by exists l, items.
Qed.

Lemma created_mono h h' v : h ⊆ h' -> created h' v -> created h v.
Proof.
  intros Hsub (l & -> & Hl). exists l. split; [done|].
  by eapply lookup_weaken_None.
Qed.

Lemma shares_mono h h' points points' :
  h ⊆ h' -> shares h' points points' -> shares h points points'.
Proof.
  intros Hsub (mid & closing & -> & Hmid & Hc & Hlen).
  exists mid, closing. split; [done|].
  split; [|split; [|done]]; (eapply Forall_impl; [done|]);
    intros v; by apply created_mono.
Qed.

(** *** One ring *)

Section Ring.

(** The store that the ring under construction, [lir], is no part of. *)
Variable hf : heap.
Variable lir : loc.
Hypothesis Hlir : hf !! lir = None.

Lemma frame_store h items : hf ⊆ h -> hf ⊆ <[lir := items]> h.
Proof. intros Hsub. by apply insert_subseteq_r. Qed.

Lemma frame_alloc h (l : loc) items : hf ⊆ h -> h !! l = None -> hf ⊆ <[l := items]> h.
Proof.
  intros Hsub Hl. apply insert_subseteq_r; [|done]. by eapply lookup_weaken_None.
Qed.

Lemma frame_created h (l : loc) : hf ⊆ h -> h !! l = None -> created hf (VRef l).
Proof. intros Hsub Hl. exists l. split; [done|]. by eapply lookup_weaken_None. Qed.

(** The first loop keeps the first and the last point of the ring [lr] as
    they are, the objects themselves, and puts a new object for every other
    point. *)
Lemma perturb_loop_ends (lr : loc) all points : forall done items h t u h' t',
  hf !! lr = Some all -> all = done ++ points ->
  hf ⊆ h -> h !! lir = Some items -> length items = length done ->
  (forall (k : nat) v, items !! k = Some v ->
     if decide (k = 0 \/ S k = length all)%nat then all !! k = Some v
     else created hf v) ->
  perturb_loop (VRef lr) (len done) points (VRef lir) (h, t) = Ok (u, (h', t')) ->
  hf ⊆ h'
  /\ exists items',
       h' !! lir = Some items' /\ length items' = length all
       /\ forall (k : nat) v, items' !! k = Some v ->
            if decide (k = 0 \/ S k = length all)%nat then all !! k = Some v
            else created hf v.
Proof.
  induction points as [|point points IH]; intros done items h t u h' t' Hlr Hall Hsub Hi Hlen Hitems H.
  - apply ret_Ok in H as [_ [= <- <-]]. split; [done|].
    exists items. rewrite Hall, app_nil_r. split; [done|]. split; [done|].
    by rewrite Hall, app_nil_r in Hitems.
  - cbn [perturb_loop] in H.
    apply bind_Ok in H as (n & s1 & Hn & H).
    apply (length_of_Ok lr _ _ _ _ all) in Hn as [-> ->];
      [|by eapply lookup_weaken].
    assert (Hnext : (len done + 1)%Z = len (done ++ [point])).
    { unfold len. rewrite length_app. simpl. lia. }
    assert (Hall' : all = (done ++ [point]) ++ points) by (by rewrite <- app_assoc).
    assert (Hk : all !! length done = Some point).
    { rewrite Hall. by rewrite list_lookup_middle. }
    destruct ((len done =? 0)%Z || (len done =? len all - 1)%Z) eqn:Eb.
    + apply bind_Ok in H as (u1 & s1 & Ha & H).
      apply (append_Ok lir _ _ _ _ _ items) in Ha as ->; [|done].
      rewrite Hnext in H.
      apply (IH (done ++ [point]) (items ++ [point])) in H; try done.
      * by apply frame_store.
      * by rewrite lookup_insert_eq.
      * rewrite !length_app. simpl. lia.
      * intros k v Hv.
        destruct (decide (k < length items)%nat) as [Hlt|Hge].
        { rewrite lookup_app_l in Hv by done. by apply Hitems. }
        rewrite lookup_app_r in Hv by lia.
        destruct (k - length items)%nat as [|?] eqn:Ek; [|done].
        injection Hv as <-. assert (k = length done) as -> by lia.
        rewrite decide_True; [done|]. unfold len in Eb. lia.
    + apply bind_Ok in H as (certainty & s1 & Hc & H).
      pose proof (reads_rnd _ _ _ _ Hc) as E1. destruct s1 as [h1 t1].
      simpl in E1. subst h1.
      apply bind_Ok in H as (x & s2 & Hx & H).
      pose proof (reads_perturb_coordinate _ _ _ _ _ _ Hx) as E2.
      destruct s2 as [h2 t2]. simpl in E2. subst h2.
      apply bind_Ok in H as (y & s3 & Hy & H).
      pose proof (reads_perturb_coordinate _ _ _ _ _ _ Hy) as E3.
      destruct s3 as [h3 t3]. simpl in E3. subst h3.
      apply bind_Ok in H as (p & s4 & Hp & H).
      apply alloc_Ok in Hp as (l & -> & Hl & ->).
      assert (Hne : l <> lir) by congruence.
      apply bind_Ok in H as (u1 & s5 & Ha & H).
      apply (append_Ok lir _ _ _ _ _ items) in Ha as ->;
        [|by rewrite lookup_insert_ne].
      rewrite Hnext in H.
      apply (IH (done ++ [point]) (items ++ [VRef l])) in H; try done.
      * by apply frame_store, frame_alloc.
      * by rewrite lookup_insert_eq.
      * rewrite !length_app. simpl. lia.
      * intros k v Hv.
        destruct (decide (k < length items)%nat) as [Hlt|Hge].
        { rewrite lookup_app_l in Hv by done. by apply Hitems. }
        rewrite lookup_app_r in Hv by lia.
        destruct (k - length items)%nat as [|?] eqn:Ek; [|done].
        injection Hv as <-. assert (k = length done) as -> by lia.
        apply lookup_lt_Some in Hk.
        rewrite decide_False; [by apply (frame_created h)|].
        unfold len in Eb. lia.
Qed.

(** After the first loop the ring under construction is the first point,
    new objects, and the last point. *)
Lemma ends_shape (all items : list val) :
  length items = length all ->
  (forall (k : nat) v, items !! k = Some v ->
     if decide (k = 0 \/ S k = length all)%nat then all !! k = Some v
     else created hf v) ->
  exists mid,
    items = take 1 all ++ mid ++ drop (Nat.max 1 (length all - 1)) all
    /\ Forall (created hf) mid.
Proof.
  intros Hlen Hitems.
  destruct all as [|a rest]; [destruct items; [|done]; by exists []|].
  destruct items as [|x items]; [done|].
  assert (x = a) as ->.
  { specialize (Hitems 0%nat x eq_refl). rewrite decide_True in Hitems by (by left).
    by injection Hitems. }
  destruct (decide (rest = [])) as [->|Hrest].
  { destruct items; [|done]. by exists []. }
  destruct (exists_last Hrest) as (rest' & z & ->).
  assert (Hne : items <> []).
  { intros ->. simpl in Hlen. rewrite length_app in Hlen. simpl in Hlen. lia. }
  destruct (exists_last Hne) as (mid & y & ->).
  simpl in Hlen. rewrite !length_app in Hlen. simpl in Hlen.
  assert (y = z) as ->.
  { specialize (Hitems (S (length mid)) y).
    rewrite decide_True in Hitems.
    2:{ right. simpl. rewrite length_app. simpl. lia. }
    simpl in Hitems. rewrite list_lookup_middle in Hitems by done.
    specialize (Hitems eq_refl).
    replace (length mid) with (length rest') in Hitems by lia.
    rewrite list_lookup_middle in Hitems by done. by injection Hitems. }
  exists mid. split.
  - simpl. rewrite length_app. simpl.
    replace (Nat.max 1 (length rest' + 1 - 0)) with (S (length rest')) by lia.
    simpl. rewrite drop_app_length. done.
  - apply Forall_lookup. intros k v Hk.
    specialize (Hitems (S k) v). simpl in Hitems.
    rewrite lookup_app_l in Hitems by (by eapply lookup_lt_Some).
    specialize (Hitems Hk). apply lookup_lt_Some in Hk.
    rewrite decide_False in Hitems; [done|].
    simpl. rewrite length_app. simpl. lia.
Qed.

(** One round of densification puts a new object between the ends. *)
Lemma insert_point_shape (pre post mid : list val) h t u h' t' :
  (length pre <= 1)%nat -> (length post <= 1)%nat ->
  hf ⊆ h -> h !! lir = Some (pre ++ mid ++ post) ->
  Forall (created hf) mid ->
  insert_point (VRef lir) (h, t) = Ok (u, (h', t')) ->
  hf ⊆ h'
  /\ exists mid', h' !! lir = Some (pre ++ mid' ++ post) /\ Forall (created hf) mid'.
Proof.
  intros Hpre Hpost Hsub Hi Hmid H. unfold insert_point in H.
  apply bind_Ok in H as (n & s1 & Hn & H).
  apply (length_of_Ok lir _ _ _ _ _ Hi) in Hn as [-> ->].
  apply bind_Ok in H as (idx & s1 & Hidx & H).
  pose proof (reads_rnd _ _ _ _ Hidx) as E1. destruct s1 as [h1 t1].
  simpl in E1. subst h1.
  assert (Hrange : (1 <= idx <= len (pre ++ mid ++ post) - 2)%Z).
  { unfold rnd in Hidx. simpl in Hidx.
    destruct (randint 1 _ t) as [[k tk]|e] eqn:Ek; [|done].
    injection Hidx as <- _. by apply randint_Ok in Ek. }
  apply bind_Ok in H as (a & s2 & Ha & H).
  pose proof (reads_getitem _ _ _ _ _ Ha) as E2. destruct s2 as [h2 t2].
  simpl in E2. subst h2.
  apply bind_Ok in H as (b & s3 & Hb & H).
  pose proof (reads_getitem _ _ _ _ _ Hb) as E3. destruct s3 as [h3 t3].
  simpl in E3. subst h3.
  apply bind_Ok in H as (x & s4 & Hx & H).
  pose proof (reads_midpoint_coordinate _ _ _ _ _ _ Hx) as E4.
  destruct s4 as [h4 t4]. simpl in E4. subst h4.
  apply bind_Ok in H as (y & s5 & Hy & H).
  pose proof (reads_midpoint_coordinate _ _ _ _ _ _ Hy) as E5.
  destruct s5 as [h5 t5]. simpl in E5. subst h5.
  apply bind_Ok in H as (p & s6 & Hp & H).
  apply alloc_Ok in Hp as (l & -> & Hl & ->).
  assert (Hne : l <> lir) by congruence.
  apply (insert_Ok lir _ _ _ _ _ _ (pre ++ mid ++ post)) in H;
    [|by rewrite lookup_insert_ne].
  injection H as -> ->.
  split; [by apply frame_store, frame_alloc|].
  unfold len in Hrange. rewrite !length_app in Hrange.
  set (j := (Z.to_nat (idx + 1) - length pre)%nat).
  exists (take j mid ++ VRef l :: drop j mid). split.
  - rewrite lookup_insert_eq. f_equal.
    rewrite BoundaryFacts.list_insert_at_inner
      by (unfold len; rewrite !length_app; lia).
    rewrite take_app_ge, drop_app_ge by lia. fold j.
    rewrite take_app_le, drop_app_le by lia.
    by rewrite <- !app_assoc.
  - apply Forall_app. split; [by apply Forall_take|].
    constructor; [by apply (frame_created h) | by apply Forall_drop].
Qed.

Lemma insert_points_shape (pre post : list val) rounds : forall mid h t u h' t',
  (length pre <= 1)%nat -> (length post <= 1)%nat ->
  hf ⊆ h -> h !! lir = Some (pre ++ mid ++ post) ->
  Forall (created hf) mid ->
  insert_points rounds (VRef lir) (h, t) = Ok (u, (h', t')) ->
  hf ⊆ h'
  /\ exists mid', h' !! lir = Some (pre ++ mid' ++ post) /\ Forall (created hf) mid'.
Proof.
  induction rounds as [|rounds IH]; intros mid h t u h' t' Hpre Hpost Hsub Hi Hmid H.
  - apply ret_Ok in H as [_ [= <- <-]]. split; [done|]. by exists mid.
  - cbn [insert_points] in H.
    apply bind_Ok in H as (u1 & [h1 t1] & H1 & H).
    apply (insert_point_shape pre post mid) in H1 as (Hsub1 & mid1 & Hi1 & Hmid1);
      try done.
    by apply (IH mid1) in H.
Qed.

Lemma densify_shape (pre post mid : list val) ring h t u h' t' :
  (length pre <= 1)%nat -> (length post <= 1)%nat ->
  hf ⊆ h -> h !! lir = Some (pre ++ mid ++ post) ->
  Forall (created hf) mid ->
  densify ring (VRef lir) (h, t) = Ok (u, (h', t')) ->
  hf ⊆ h'
  /\ exists mid', h' !! lir = Some (pre ++ mid' ++ post) /\ Forall (created hf) mid'.
Proof.
  intros Hpre Hpost Hsub Hi Hmid H. unfold densify in H.
  apply bind_Ok in H as (n & s1 & Hn & H).
  pose proof (reads_length_of _ _ _ _ Hn) as E1. destruct s1 as [h1 t1].
  simpl in E1. subst h1.
  destruct (n <? 20)%Z.
  - apply bind_Ok in H as (rounds & s2 & Hr & H).
    pose proof (reads_rnd _ _ _ _ Hr) as E2. destruct s2 as [h2 t2].
    simpl in E2. subst h2.
    by apply (insert_points_shape pre post _ mid) in H.
  - apply ret_Ok in H as [_ [= <- <-]]. split; [done|]. by exists mid.
Qed.

(** Closing the ring puts at most one new object at its end. *)
Lemma close_ring_shape (items : list val) h t u h' t' :
  hf ⊆ h -> h !! lir = Some items ->
  close_ring (VRef lir) (h, t) = Ok (u, (h', t')) ->
  hf ⊆ h'
  /\ exists closing,
       h' !! lir = Some (items ++ closing)
       /\ Forall (created hf) closing /\ (length closing <= 1)%nat.
Proof.
  intros Hsub Hi H. unfold close_ring in H.
  apply bind_Ok in H as (first & s1 & H1 & H).
  pose proof (reads_getitem _ _ _ _ _ H1) as E1. destruct s1 as [h1 t1].
  simpl in E1. subst h1.
  apply bind_Ok in H as (last_ & s2 & H2 & H).
  pose proof (reads_getitem _ _ _ _ _ H2) as E2. destruct s2 as [h2 t2].
  simpl in E2. subst h2.
  apply bind_Ok in H as (open & s3 & H3 & H).
  pose proof (reads_ne _ _ _ _ _ H3) as E3. destruct s3 as [h3 t3].
  simpl in E3. subst h3.
  destruct open.
  - apply bind_Ok in H as (first' & s4 & H4 & H).
    pose proof (reads_getitem _ _ _ _ _ H4) as E4. destruct s4 as [h4 t4].
    simpl in E4. subst h4.
    apply bind_Ok in H as (c & s5 & H5 & H).
    apply copy_Ok in H5 as (l & its & -> & Hl & ->).
    assert (Hne : l <> lir) by congruence.
    apply (append_Ok lir _ _ _ _ _ items) in H; [|by rewrite lookup_insert_ne].
    injection H as -> ->.
    split; [by apply frame_store, frame_alloc|].
    exists [VRef l]. rewrite lookup_insert_eq. split; [done|].
    split; [|simpl; lia]. constructor; [by apply (frame_created h) | done].
  - apply ret_Ok in H as [_ [= <- <-]]. split; [done|].
    exists []. rewrite app_nil_r. split; [done|]. split; [done | simpl; lia].
Qed.

End Ring.

(** *** All rings *)

Lemma ring_shares_mono h0 h h' ring ring' :
  h0 ⊆ h -> ring_shares h h' ring ring' -> ring_shares h0 h' ring ring'.
Proof.
  intros Hsub (lir & points' & -> & Hl & Hl' & Hs).
  exists lir, points'. split; [done|].
  split; [by eapply lookup_weaken_None|]. split; [done|].
  intros lr points Er Hlr. apply (shares_mono h0 h); [done|].
  apply (Hs lr); [done|]. by eapply lookup_weaken.
Qed.

Lemma refine_ring_shares ring (lirs : loc) rs h t u h' t' :
  h !! lirs = Some rs ->
  refine_ring ring (VRef lirs) (h, t) = Ok (u, (h', t')) ->
  delete lirs h ⊆ delete lirs h'
  /\ exists ring', h' !! lirs = Some (rs ++ [ring']) /\ ring_shares h h' ring ring'.
Proof.
  intros Hrs H. unfold refine_ring in H.
  apply bind_Ok in H as (v & s1 & Ha & H).
  apply alloc_Ok in Ha as (lir & -> & Hlir & ->).
  assert (Hne : lir <> lirs) by congruence.
  apply bind_Ok in H as (points & s2 & Hp & H).
  apply load_Ok in Hp as (lr & -> & Hlr & ->). simpl in Hlr.
  apply bind_Ok in H as (u1 & [h2 t2] & H1 & H).
  assert (Hshape : h ⊆ h2
    /\ exists pre mid post,
         h2 !! lir = Some (pre ++ mid ++ post)
         /\ (length pre <= 1)%nat /\ (length post <= 1)%nat
         /\ Forall (created h) mid
         /\ forall points0, h !! lr = Some points0 ->
              pre = take 1 points0
              /\ post = drop (Nat.max 1 (length points0 - 1)) points0).
  { destruct (decide (lr = lir)) as [->|Hlrne].
    - rewrite lookup_insert_eq in Hlr. injection Hlr as <-.
      apply ret_Ok in H1 as [_ [= ? ?]]. subst h2 t2.
      split; [by apply insert_subseteq|].
      exists [], [], []. rewrite lookup_insert_eq.
      split; [done|]. split; [simpl; lia|]. split; [simpl; lia|].
      split; [done|]. intros points0 Hp0. congruence.
    - rewrite lookup_insert_ne in Hlr by done.
      change 0%Z with (len (@nil val)) in H1.
      apply (perturb_loop_ends h lir Hlir lr points points [] []) in H1
        as (Hsub & items & Hi & Hlen & Hitems); try done.
      2:{ by apply insert_subseteq. }
      2:{ by rewrite lookup_insert_eq. }
      destruct (ends_shape h points items Hlen Hitems) as (mid & -> & Hmid).
      split; [done|].
      exists (take 1 points), mid, (drop (Nat.max 1 (length points - 1)) points).
      split; [done|]. split; [rewrite length_take; lia|].
      split; [rewrite length_drop; lia|]. split; [done|].
      intros points0 Hp0. by replace points0 with points by congruence. }
  destruct Hshape as (Hsub2 & pre & mid & post & Hi2 & Hpre & Hpost & Hmid & Hends).
  apply bind_Ok in H as (u2 & [h3 t3] & H2 & H).
  apply (densify_shape h lir Hlir pre post mid) in H2
    as (Hsub3 & mid3 & Hi3 & Hmid3); try done.
  apply bind_Ok in H as (u3 & [h4 t4] & H3 & H).
  apply (close_ring_shape h lir Hlir (pre ++ mid3 ++ post)) in H3
    as (Hsub4 & closing & Hi4 & Hclosing & Hlen4); try done.
  apply (append_Ok lirs _ _ _ _ _ rs) in H; [|by eapply lookup_weaken].
  injection H as -> ->. split.
  - rewrite delete_insert_eq. by apply delete_mono.
  - exists (VRef lir). rewrite lookup_insert_eq. split; [done|].
    exists lir, ((pre ++ mid3 ++ post) ++ closing). split; [done|].
    split; [done|]. split; [by rewrite lookup_insert_ne|].
    intros lr0 points0 [= <-] Hp0. destruct (Hends points0 Hp0) as [-> ->].
    exists mid3, closing. by rewrite <- !app_assoc.
Qed.

Lemma refine_rings_shares (lirs : loc) rings : forall rs h t u h' t',
  h !! lirs = Some rs ->
  refine_rings rings (VRef lirs) (h, t) = Ok (u, (h', t')) ->
  delete lirs h ⊆ delete lirs h'
  /\ exists rs',
       h' !! lirs = Some (rs ++ rs')
       /\ Forall2 (ring_shares (delete lirs h) h') rings rs'.
Proof.
  induction rings as [|ring rings IH]; intros rs h t u h' t' Hrs H.
  - apply ret_Ok in H as [_ [= <- <-]]. split; [done|].
    exists []. by rewrite app_nil_r.
  - cbn [refine_rings] in H.
    apply bind_Ok in H as (u1 & [h1 t1] & H1 & H).
    apply (refine_ring_shares _ _ rs) in H1 as (Hsub1 & ring' & Hrs1 & Hring);
      [|done].
    apply (IH (rs ++ [ring'])) in H as (Hsub & rs' & Hrs' & Hrings); [|done].
    split; [by etrans|].
    exists (ring' :: rs'). split; [by rewrite <- app_assoc in Hrs'|].
    constructor.
    + destruct Hring as (lir & points' & -> & Hl & Hl1 & Hs).
      assert (Hne : lirs <> lir) by congruence.
      exists lir, points'. split; [done|].
      split; [by rewrite lookup_delete_ne|]. split.
      * assert (Hd : delete lirs h1 !! lir = Some points')
          by (by rewrite lookup_delete_ne).
        eapply lookup_weaken in Hd; [|done].
        by apply lookup_delete_Some in Hd as [_ ?].
      * intros lr points Er Hlr. apply lookup_delete_Some in Hlr as [_ Hlr].
        apply (shares_mono _ h); [apply delete_subseteq|]. by apply (Hs lr).
    + eapply Forall2_impl; [done|]. intros r r'. by apply ring_shares_mono.
Qed.

(** X17. The output of [refine_polygon] is no deep copy of its input. For
    a Polygon the list of rings and every ring are new list objects, but the
    first item of every ring, and its last item when the ring has two or
    more, are the input's own point objects; the items between them and a
    closing item are new objects. For any other type the output has the
    coordinates object of the input. *)
Theorem refine_polygon_shares geometry h t geometry' h' t' :
  refine_polygon geometry (h, t) = Ok (geometry', (h', t')) ->
  (type geometry <> "Polygon"%string ->
   coordinates geometry' = coordinates geometry)
  /\ (type geometry = "Polygon"%string ->
      exists (lirs : loc) rings',
        coordinates geometry' = VRef lirs
        /\ h !! lirs = None /\ h' !! lirs = Some rings'
        /\ forall (l : loc) rings,
             coordinates geometry = VRef l -> h !! l = Some rings ->
             Forall2 (ring_shares h h') rings rings').
Proof.
  intros H. unfold refine_polygon in H.
  apply bind_Ok in H as (empty & s1 & He & H).
  apply alloc_Ok in He as (le & -> & Hle & ->).
  destruct (String.eqb_spec (type geometry) "Polygon") as [Ht|Ht].
  - split; [done|]. intros _.
    apply bind_Ok in H as (v & s2 & Ha & H).
    apply alloc_Ok in Ha as (lirs & -> & Hlirs & ->).
    apply bind_Ok in H as (rings & s3 & Hl & H).
    apply load_Ok in Hl as (l & Ec & Hl & ->). simpl in Hl.
    apply bind_Ok in H as (u & [h4 t4] & Hr & H).
    apply ret_Ok in H as [-> [= <- <-]].
    apply (refine_rings_shares lirs rings []) in Hr as (Hsub & rs' & Hrs' & Hrings);
      [|by rewrite lookup_insert_eq].
    assert (Hh : h ⊆ <[le := []]> h) by (by apply insert_subseteq).
    assert (Hnone : h !! lirs = None) by (by eapply lookup_weaken_None).
    assert (Hbase : h ⊆ delete lirs (<[lirs := []]> (<[le := []]> h))).
    { rewrite delete_insert_eq. rewrite delete_id by done. done. }
    exists lirs, rs'. split; [done|]. split; [done|]. split; [done|].
    intros l0 rings0 El0 Hl0. rewrite Ec in El0. injection El0 as <-.
    assert (Hl2 : <[lirs := []]> (<[le := []]> h) !! l = Some rings0).
    { eapply lookup_weaken; [exact Hl0|]. etrans; [exact Hh|].
      by apply insert_subseteq. }
    replace rings0 with rings by congruence.
    eapply Forall2_impl; [done|]. intros r r'. by apply ring_shares_mono.
  - split; [|done]. intros _. by apply ret_Ok in H as [-> _].
Qed.

Lemma refine_polygon_shares_witness :
  exists geometry' h' t' (lirs : loc) rings',
    refine_polygon parcel (parcel_heap, BoundaryDetection.parcel_tape)
    = Ok (geometry', (h', t'))
    /\ coordinates geometry' = VRef lirs
    /\ parcel_heap !! lirs = None /\ h' !! lirs = Some rings'
    /\ Forall2 (ring_shares parcel_heap h')
         [VRef 6%positive; VRef 11%positive] rings'.
Proof.
  destruct (refine_polygon parcel (parcel_heap, BoundaryDetection.parcel_tape))
    as [[geometry' [h' t']]|e] eqn:E; [|by vm_compute in E].
  destruct (refine_polygon_shares parcel parcel_heap BoundaryDetection.parcel_tape
              geometry' h' t' E) as [_ H].
  destruct (H eq_refl) as (lirs & rings' & Hc & Hn & Hl & Hrings).
  exists geometry', h', t', lirs, rings'. split; [reflexivity|].
  split; [exact Hc|]. split; [exact Hn|]. split; [exact Hl|].
  apply (Hrings 12%positive); [reflexivity | vm_compute; reflexivity].
Defined.

End SharingFacts.

(** ** The centre that [improve_existing_boundary] computes *)

Module CentreFacts.
Import BoundaryDetection BoundaryFacts.

Lemma centre_and_radius_tape cos sqrt geometry t c t1 :
  centre_and_radius cos sqrt geometry t = Ok (c, t1) ->
  t1 = t
  /\ forall cos' sqrt', exists c', centre_and_radius cos' sqrt' geometry t = Ok (c', t).
Proof.
  unfold centre_and_radius.
  destruct (String.eqb (type geometry) "Polygon").
  2:{ intros [= _ <-]. split; [done|]. intros _ _. by eexists. }
  unfold bind, lift, ret.
  destruct (getitem (coordinates geometry) 0) as [coords|]; [|done].
  destruct (iter coords) as [points|]; [|done].
  destruct (sum_coordinate 0 points 0) as [lon_sum|]; [|done].
  destruct (sum_coordinate 1 points 0) as [lat_sum|]; [|done].
  destruct (fdiv lon_sum _) as [center_lon|]; [|done].
  destruct (fdiv lat_sum _) as [center_lat|]; [|done].
  destruct (getitem coords 0) as [first_point|]; [|done].
  destruct (getitem first_point 0) as [c0|]; [|done].
  destruct (as_float c0) as [x|]; [|done].
  destruct (getitem first_point 1) as [c1|]; [|done].
  destruct (as_float c1) as [y|]; [|done].
  intros [= _ <-]. split; [done|]. intros cos' sqrt'. by eexists.
Qed.

(** X18. The centre and the radius that [improve_existing_boundary]
    computes are used for nothing: when it returns, the geometry is what
    [refine_polygon] returns for the same draws, the confidence comes from
    the next draw, and the result is the same whatever cosine and square
    root are. *)
Theorem improve_existing_boundary_refines cos sqrt geometry t geometry' confidence t' :
  improve_existing_boundary cos sqrt geometry t = Ok (geometry', confidence, t') ->
  (exists t1 u,
     refine_polygon geometry t = Ok (geometry', t1)
     /\ random t1 = Ok (u, t')
     /\ confidence = (85 # 100) + u * (14 # 100))
  /\ forall cos' sqrt',
       improve_existing_boundary cos' sqrt' geometry t
       = Ok (geometry', confidence, t').
Proof.
  intros H. unfold improve_existing_boundary in H.
  apply bind_Ok in H as (c & t0 & [-> Hc]%centre_and_radius_tape & H).
  apply bind_Ok in H as (g' & t1 & Hr & H).
  apply bind_Ok in H as (u & t2 & Hu & H).
  apply ret_Ok in H as [[= ? ?] ?]. subst g' confidence t2.
  split; [by exists t1, u|].
  intros cos' sqrt'. destruct (Hc cos' sqrt') as (c' & Ec').
  unfold improve_existing_boundary.
  apply bind_Ok. exists c', t. split; [done|].
  apply bind_Ok. exists geometry', t1. split; [done|].
  apply bind_Ok. exists u, t'. split; [done|]. reflexivity.
Qed.

Lemma improve_existing_boundary_refines_witness :
  let cos := fun _ : Q => 1 in
  let sqrt := fun _ : Q => 0 in
  exists geometry' confidence t' t1 u,
    improve_existing_boundary cos sqrt parcel parcel_tape
    = Ok (geometry', confidence, t')
    /\ refine_polygon parcel parcel_tape = Ok (geometry', t1)
    /\ random t1 = Ok (u, t')
    /\ confidence = (85 # 100) + u * (14 # 100).
Proof.
  intros cos sqrt.
  destruct (improve_existing_boundary cos sqrt parcel parcel_tape)
    as [[[geometry' confidence] t']|e] eqn:E; [|by vm_compute in E].
  destruct (improve_existing_boundary_refines cos sqrt parcel parcel_tape
              geometry' confidence t' E) as [(t1 & u & H) _].
  exists geometry', confidence, t', t1, u. split; [reflexivity | exact H].
Defined.

End CentreFacts.

(** ** Refining what was refined *)

Module IterationFacts.
Import BoundaryDetection BoundaryFacts.




End IterationFacts.
